(** * MikroTik master scraper: the engine of [mikrotik_master.py]

    A shallow embedding of [MasterEngine] (version generation, existence
    probe, download with retry, RSS delta, persistence) together with the
    properties of its specification.

    Modelling conventions.
    - Python integers are [Z]; file contents and response bodies are
      [list byte]. A Python [str] is the [string] of the bytes of its
      UTF-8 encoding: concatenation, equality, search for an ASCII text
      and the order of [sorted] are the same on both sides.
    - A [pathlib.Path] is the list of its components below the root; the
      [/] operator appends one component, which is what it does on POSIX
      for a [plain_component]. Symbolic links are not modelled.
    - The engine's mutable attributes, the file system and the observable
      effects (log lines, sleeps, HTTP requests) live in one record
      [engine] that every method takes and returns.
    - The outside world (HTTP server, clock, thread scheduling, the
      library codecs) is a record [Env] of oracles; theorems quantify over
      all of them.
    - The thread pools are modelled at task granularity: the tasks of a pool
      run one after the other, in an order chosen by the environment.
    - A file operation raises when the shape of the file system makes it
      raise (a directory where a file is expected, a file on the way to a
      directory); permissions and full disks are not modelled. *)

From Stdlib Require Import ZArith Lia Ascii String.
From Stdlib.Strings Require Import Byte.
From stdpp Require Import gmap strings list fin_maps pretty sorting list_numbers.

Local Open Scope Z_scope.

(** ** Constants of the module *)

Definition BASE_CDN_URL : string := "https://download.mikrotik.com/routeros".

Definition ARCHITECTURES : list string :=
  ["arm"; "arm64"; "mipsbe"; "mmips"; "ppc"; "smips"; "tile"; "x86"]%string.

Definition FILE_PATTERNS : list string :=
  [ "routeros-{arch}-{version}.npk";
    "all_packages-{arch}-{version}.zip";
    "routeros-{arch}-{version}.zip";
    "mikrotik-{version}.iso";
    "cd-{version}.iso";
    "chr-{version}.ova";
    "chr-{version}.vdi";
    "chr-{version}.vmdk";
    "chr-{version}.vhdx";
    "chr-{version}.img";
    "chr-{version}.zip";
    "routeros-{arch}-{version}.upgrade";
    "routeros-{version}.pdf";
    "CHANGELOG";
    "README" ]%string.

Definition RSS_URL : string := "https://mikrotik.com/download.rss".

(** ** Strings *)

Module Str.

(** [x in s] on Python strings. *)
Fixpoint contains (x s : string) : bool :=
  if String.prefix x s then true
  else match s with
       | EmptyString => false
       | String _ s' => contains x s'
       end.

Fixpoint drop (n : nat) (s : string) : string :=
  match n, s with
  | O, _ => s
  | S n', String _ s' => drop n' s'
  | S _, EmptyString => EmptyString
  end.

(** Substitution of one placeholder, as [str.format] performs it on the
    patterns of [FILE_PATTERNS]; [skip] counts the characters of a
    placeholder that was just replaced. *)
Fixpoint replace_go (skip : nat) (old new s : string) : string :=
  match s with
  | EmptyString => EmptyString
  | String c s' =>
      match skip with
      | S k => replace_go k old new s'
      | O =>
          if String.prefix old s
          then new +:+ replace_go (String.length old - 1) old new s'
          else String c (replace_go O old new s')
      end
  end.

Definition replace (old new s : string) : string :=
  match old with
  | EmptyString => s
  | _ => replace_go O old new s
  end.

(** [s.split('.')]. *)
Fixpoint split_go (sep : ascii) (cur : string) (s : string) : list string :=
  match s with
  | EmptyString => [String.rev cur]
  | String c s' =>
      if Ascii.eqb c sep then String.rev cur :: split_go sep EmptyString s'
      else split_go sep (String c cur) s'
  end.

Definition split (sep : ascii) (s : string) : list string :=
  split_go sep EmptyString s.

End Str.

(** ** The file system *)

Abbreviation path := (list string).

Inductive node : Type :=
  | File (content : list byte)
  | Dir.

Module FS.

(** The root always exists and is a directory. *)
Definition node_at (fs : gmap path node) (p : path) : option node :=
  match p with
  | [] => Some Dir
  | _ => fs !! p
  end.

Definition exists_ (fs : gmap path node) (p : path) : bool :=
  match node_at fs p with Some _ => true | None => false end.

Definition is_dir (fs : gmap path node) (p : path) : bool :=
  match node_at fs p with Some Dir => true | _ => false end.

Definition is_file (fs : gmap path node) (p : path) : bool :=
  match node_at fs p with Some (File _) => true | _ => false end.

Definition parent (p : path) : path := removelast p.

(** The non-empty prefixes of [p], shortest first: its ancestors and
    itself. *)
Definition prefixes (p : path) : list path :=
  (λ n, take n p) <$> seq 1 (length p).

(** [Path.mkdir(parents=True, exist_ok=True)]: raises when a component
    exists and is not a directory, and then creates nothing. *)
Definition mkdir_parents (fs : gmap path node) (p : path) : option (gmap path node) :=
  if forallb (λ q, negb (is_file fs q)) (prefixes p)
  then Some (foldl (λ acc q, <[q := Dir]> acc) fs (prefixes p))
  else None.

(** [open(p, 'w')] / [open(p, 'wb')]: creates or truncates; raises when
    [p] is a directory or its parent is not one. *)
Definition open_w (fs : gmap path node) (p : path) : option (gmap path node) :=
  match p with
  | [] => None
  | _ => if is_dir fs (parent p) && negb (is_dir fs p)
         then Some (<[p := File []]> fs)
         else None
  end.

(** [f.write(chunk)] on the file opened at [p]. *)
Definition append (fs : gmap path node) (p : path) (chunk : list byte) : gmap path node :=
  match fs !! p with
  | Some (File c) => <[p := File (c ++ chunk)]> fs
  | _ => fs
  end.

(** [open(p, 'r')] followed by reading everything. *)
Definition read (fs : gmap path node) (p : path) : option (list byte) :=
  match node_at fs p with
  | Some (File c) => Some c
  | _ => None
  end.

(** [Path.unlink()]: raises on a directory or a missing path. *)
Definition unlink (fs : gmap path node) (p : path) : option (gmap path node) :=
  match node_at fs p with
  | Some (File _) => Some (delete p fs)
  | _ => None
  end.

End FS.

(** ** Observable effects *)

Inductive level : Type := INFO | SUCCESS | WARNING | ERROR | FOUND.

(** One constructor per message template of [MasterEngine]; the text of a
    caught exception, which some templates interpolate, is left out. *)
Inductive message : Type :=
  | MsgSkip (filename : string)
  | MsgDownload (filename : string) (downloaded : Z)
  | MsgRetry (n : Z) (filename : string) (backoff : Z)
  | MsgFailed (filename : string)
  | MsgRule
  | MsgVersionFound (version : string)
  | MsgSavedVersions
  | MsgSaveVersionsFailed
  | MsgSavedStats
  | MsgSaveStatsFailed
  | MsgGenerated (n : Z)
  | MsgFoundVersion (version : string)
  | MsgFoundInScan (n : Z)
  | MsgStopRequested
  | MsgProcessing (i n : Z) (version : string)
  | MsgRssDiscovered (version : string)
  | MsgRssFailed
  | MsgOther (text : string).

Inductive method : Type := GET | HEAD.

Inductive event : Type :=
  | Log (lvl : level) (msg : message)
  | Sleep (seconds : Z)
  | Request (m : method) (url : string).

(** What the server does with one request: the connection fails before a
    status line arrives, or a status arrives and the body is streamed in
    chunks, after which the stream either ends ([complete = true]) or
    breaks. *)
Inductive response : Type :=
  | TransportError
  | Reply (status : Z) (body : list (list byte)) (complete : bool).

(** ** The environment and the engine *)

Record Env : Type := {
  output_dir : path;
  max_retries : Z;
  (** the answer to the [n]-th request of the run *)
  net : nat → method → string → response;
  (** [st_size] of a directory *)
  dir_st_size : Z;
  (** [datetime.utcnow().isoformat()] after [n] events *)
  utcnow : nat → string;
  (** completion order of the tasks of a download pool *)
  download_order : list (string * string * string) → list (string * string * string);
  (** completion order of the tasks of a probe pool *)
  probe_order : list string → list string;
  (** iteration order of a Python [set] of strings *)
  set_order : gset string → list string;
  (** [gui.stop_requested] as read after [n] events; [None] when the
      attached sink has no such attribute (the wrapper of the headless
      controller has none) and the read raises [AttributeError] *)
  stop_requested : nat → option bool;
  (** [r.text] of the response to request [n], whose body has these
      bytes: [requests] decodes them with the charset of the response
      headers, or with one it guesses *)
  response_text : nat → list byte → string;
  (** [int(s)]; [None] when it raises *)
  parse_int : string → option Z;
  (** the strings that [for v in json.load(f).get('versions', [])] yields
      on a file with this content, up to the first exception if any *)
  json_load_versions : list byte → list string;
  (** [json.dump] of the found-versions record *)
  json_dump_versions : list string → string → list byte;
  (** [json.dump] of the stats record *)
  json_dump_stats : gmap string Z → option string → list string → string → list byte
}.

(** The stats sink of the attached GUI object. The counters are the integer
    entries of [gui.stats]; ['current_version'], its only string entry, is
    written by [update_stat] alone and kept apart. *)
Record gui_state : Type := {
  stats : gmap string Z;
  current_version : option string
}.

Record engine : Type := {
  fs : gmap path node;
  version_exists_cache : gmap string bool;
  found_versions : gset string;
  gui : option gui_state;
  trace : list event;
  requests : nat
}.

Definition with_fs (f : gmap path node) (s : engine) : engine :=
  {| fs := f; version_exists_cache := version_exists_cache s;
     found_versions := found_versions s; gui := gui s;
     trace := trace s; requests := requests s |}.

Definition with_cache (c : gmap string bool) (s : engine) : engine :=
  {| fs := fs s; version_exists_cache := c;
     found_versions := found_versions s; gui := gui s;
     trace := trace s; requests := requests s |}.

Definition with_found (X : gset string) (s : engine) : engine :=
  {| fs := fs s; version_exists_cache := version_exists_cache s;
     found_versions := X; gui := gui s;
     trace := trace s; requests := requests s |}.

Definition with_gui (g : option gui_state) (s : engine) : engine :=
  {| fs := fs s; version_exists_cache := version_exists_cache s;
     found_versions := found_versions s; gui := g;
     trace := trace s; requests := requests s |}.

Definition emit (e : event) (s : engine) : engine :=
  {| fs := fs s; version_exists_cache := version_exists_cache s;
     found_versions := found_versions s; gui := gui s;
     trace := trace s ++ [e]; requests := requests s |}.

(** [self.log(message, level)] *)
Definition log (msg : message) (lvl : level) (s : engine) : engine :=
  emit (Log lvl msg) s.

(** [time.sleep(seconds)] *)
Definition sleep (seconds : Z) (s : engine) : engine :=
  emit (Sleep seconds) s.

(** [self.session.get] / [self.session.head] *)
Definition session_request (E : Env) (m : method) (url : string) (s : engine)
  : response * engine :=
  (net E (requests s) m url,
   {| fs := fs s; version_exists_cache := version_exists_cache s;
      found_versions := found_versions s; gui := gui s;
      trace := trace s ++ [Request m url]; requests := S (requests s) |}).

(** [increment_stat]: nothing without a GUI. *)
Definition increment_stat (key : string) (amount : Z) (s : engine) : engine :=
  match gui s with
  | Some g =>
      with_gui (Some {| stats := <[key := default 0 (stats g !! key) + amount]> (stats g);
                        current_version := current_version g |}) s
  | None => s
  end.

(** [update_stat('current_version', value)] *)
Definition update_stat_current_version (value : string) (s : engine) : engine :=
  match gui s with
  | Some g => with_gui (Some {| stats := stats g; current_version := Some value |}) s
  | None => s
  end.

(** ** Version Space Generator *)

(** Python's [range(lo, hi)]. *)
Definition range (lo hi : Z) : list Z := seqZ lo (hi - lo).

(** [generate_all_version_numbers]: the four nested loops, each appending
    to [versions]. *)
Definition generate_all_version_numbers
    (start_major start_minor end_major end_minor : Z) : list string :=
  foldl (λ versions major,
    let min_minor := if major =? start_major then start_minor else 0 in
    let max_minor := if major =? end_major then end_minor else 99 in
    foldl (λ versions minor,
      let base := pretty major +:+ "." +:+ pretty minor in
      let versions := versions ++ [base] in
      foldl (λ versions patch,
        let versions := versions ++ [base +:+ "." +:+ pretty patch] in
        let versions :=
          foldl (λ versions rc,
                   versions ++ [base +:+ "." +:+ pretty patch +:+ "rc" +:+ pretty rc])
                versions (range 1 6) in
        foldl (λ versions beta,
                 versions ++ [base +:+ "." +:+ pretty patch +:+ "beta" +:+ pretty beta])
              versions (range 1 6))
        versions (range 1 21))
      versions (range min_minor (max_minor + 1)))
    [] (range start_major (end_major + 1)).

(** ** Existence Probe *)

Definition cache_put (version : string) (b : bool) (s : engine) : engine :=
  with_cache (<[version := b]> (version_exists_cache s)) s.

(** [status_code in (200, 301, 302, 403)] *)
Definition status_exists (status : Z) : bool :=
  bool_decide (status ∈ [200; 301; 302; 403]).

Definition check_version_exists (E : Env) (version : string) (s : engine)
  : bool * engine :=
  match version_exists_cache s !! version with
  | Some b => (b, s)
  | None =>
      let test_url := BASE_CDN_URL +:+ "/" +:+ version +:+ "/" in
      let '(resp, s1) := session_request E HEAD test_url s in
      match resp with
      | TransportError => (false, cache_put version false s1)
      | Reply status _ _ =>
          if status_exists status then (true, cache_put version true s1)
          else
            let changelog := BASE_CDN_URL +:+ "/" +:+ version +:+ "/CHANGELOG" in
            let '(resp2, s2) := session_request E HEAD changelog s1 in
            match resp2 with
            | TransportError => (false, cache_put version false s2)
            | Reply status2 _ _ =>
                let exists_ := status2 =? 200 in
                (exists_, cache_put version exists_ s2)
            end
      end
  end.

(** ** Download Target Builder *)

(** [pattern.format(arch=arch, version=version)] on the patterns above. *)
Definition format_pattern (pattern arch version : string) : string :=
  Str.replace "{version}" version (Str.replace "{arch}" arch pattern).

Definition build_download_urls (version : string)
  : list (string * string * string) :=
  foldl (λ urls arch,
    foldl (λ urls pattern,
      if negb (Str.contains "{arch}" pattern) && negb (String.eqb arch "x86")
      then urls
      else if negb (String.eqb arch "x86")
              && existsb (λ x, Str.contains x pattern) ["chr-"; "mikrotik-"; "cd-"]%string
      then urls
      else
        let filename := format_pattern pattern arch version in
        let url := BASE_CDN_URL +:+ "/" +:+ version +:+ "/" +:+ filename in
        urls ++ [(url, arch, filename)])
      urls FILE_PATTERNS)
    [] ARCHITECTURES.

(** ** Download Manager *)

(** A string that [/] appends to a path as one component: not empty, not
    [.] or [..], and without a slash. *)
Definition plain_component (c : string) : bool :=
  negb (String.eqb c "") && negb (String.eqb c ".") && negb (String.eqb c "..")
  && negb (Str.contains "/" c).

(** [p / c] of [pathlib] on POSIX, for a string [c]: the components of [c]
    are what stands between its slashes, without the empty ones and the
    dots; a [c] that starts with a slash replaces [p] by its root, which
    is [//] when [c] starts with exactly two slashes. Components [..] are
    kept. *)
Definition joinpath (p : path) (c : string) : path :=
  let parts := filter (λ x, x ≠ EmptyString ∧ x ≠ "."%string) (Str.split "/" c) in
  if String.prefix "/" c
  then (if String.prefix "//" c && negb (String.prefix "///" c)
        then "//"%string else "/"%string) :: parts
  else p ++ parts.

(** [self.output_dir / version / arch / filename], for plain components:
    on these it is [joinpath] three times, and the path names the place
    below the output directory that its components spell out. *)
Definition out_path (E : Env) (version arch filename : string) : path :=
  output_dir E ++ [version; arch; filename].

(** [out_path.stat().st_size] of an existing path. *)
Definition st_size (E : Env) (n : node) : Z :=
  match n with
  | File c => Z.of_nat (length c)
  | Dir => dir_st_size E
  end.

(** [out_path.exists() and out_path.stat().st_size > 0] *)
Definition present_nonempty (E : Env) (f : gmap path node) (p : path) : bool :=
  match FS.node_at f p with
  | Some n => 0 <? st_size E n
  | None => false
  end.

(** [resp.raise_for_status()] raises on 4xx and 5xx. *)
Definition raise_for_status (status : Z) : bool :=
  (400 <=? status) && (status <? 600).

(** A fetch that fails and is retried: the transport raises, or the status
    is a 4xx or 5xx other than 404. *)
Definition fetch_fails (r : response) : bool :=
  match r with
  | TransportError => true
  | Reply status _ _ => negb (status =? 404) && raise_for_status status
  end.

(** How a [try] block ends. *)
Inductive outcome : Type :=
  | Returned (b : bool)
  | Raised.

(** The loop over [resp.iter_content]: empty chunks are skipped, the others
    written and counted. *)
Definition write_chunks (p : path) (body : list (list byte)) (f : gmap path node)
  : gmap path node * Z :=
  foldl (λ '(f, downloaded) chunk,
           match chunk with
           | [] => (f, downloaded)
           | _ => (FS.append f p chunk, downloaded + Z.of_nat (length chunk))
           end)
        (f, 0) body.

(** The [try] block of [download_file]. *)
Definition download_attempt (E : Env) (url version arch filename : string)
    (s : engine) : outcome * engine :=
  let p := out_path E version arch filename in
  if present_nonempty E (fs s) p then
    let s := log (MsgSkip filename) INFO s in
    let s := increment_stat "files_skipped" 1 s in
    (Returned true, s)
  else
    let '(resp, s) := session_request E GET url s in
    match resp with
    | TransportError => (Raised, s)
    | Reply status body complete =>
        if status =? 404 then (Returned false, s)
        else if raise_for_status status then (Raised, s)
        else
          match FS.mkdir_parents (fs s) (FS.parent p) with
          | None => (Raised, s)
          | Some f1 =>
              match FS.open_w f1 p with
              | None => (Raised, with_fs f1 s)
              | Some f2 =>
                  let '(f3, downloaded) := write_chunks p body f2 in
                  let s := with_fs f3 s in
                  if complete then
                    let s := increment_stat "files_downloaded" 1 s in
                    let s := increment_stat "bytes_downloaded" downloaded s in
                    let s := log (MsgDownload filename downloaded) SUCCESS s in
                    (Returned true, s)
                  else (Raised, s)
              end
          end
    end.

(** The clean-up at the end of the [except] branch. *)
Definition remove_partial (p : path) (s : engine) : engine :=
  if FS.exists_ (fs s) p then
    match FS.unlink (fs s) p with
    | Some f => with_fs f s
    | None => s
    end
  else s.

(** [download_file] with its recursion depth bounded by [fuel]; [None]
    means the bound was too small. *)
Fixpoint download_file_rec (fuel : nat) (E : Env)
    (url version arch filename : string) (retry_count : Z) (s : engine)
  : option (bool * engine) :=
  match download_attempt E url version arch filename s with
  | (Returned b, s) => Some (b, s)
  | (Raised, s) =>
      if retry_count <? max_retries E then
        let backoff := 2 ^ retry_count in
        let s := log (MsgRetry (retry_count + 1) filename backoff) WARNING s in
        let s := sleep backoff s in
        match fuel with
        | O => None
        | S fuel' =>
            download_file_rec fuel' E url version arch filename (retry_count + 1) s
        end
      else
        let s := log (MsgFailed filename) ERROR s in
        let s := increment_stat "files_failed" 1 s in
        let s := remove_partial (out_path E version arch filename) s in
        Some (false, s)
  end.

(** [download_file(url, version, arch, filename, retry_count)], for
    [retry_count >= 0] (every call in the program starts it at [0]). *)
Definition download_file (E : Env) (url version arch filename : string)
    (retry_count : Z) (s : engine) : option (bool * engine) :=
  download_file_rec (Z.to_nat (max_retries E - retry_count))
                    E url version arch filename retry_count s.

(** ** Reading a trace *)

Definition is_request (e : event) : bool :=
  match e with Request _ _ => true | _ => false end.

(** The URLs fetched with GET, in order: one per download attempt that
    reached the network. *)
Definition fetches (t : list event) : list string :=
  omap (λ e, match e with Request GET url => Some url | _ => None end) t.

(** The waits, in order. *)
Definition sleeps (t : list event) : list Z :=
  omap (λ e, match e with Sleep n => Some n | _ => None end) t.

(** The log lines of a given level. *)
Definition logged (lvl : level) (t : list event) : list message :=
  omap (λ e, match e with
             | Log l m => match lvl, l with
                          | INFO, INFO | SUCCESS, SUCCESS | WARNING, WARNING
                          | ERROR, ERROR | FOUND, FOUND => Some m
                          | _, _ => None
                          end
             | _ => None
             end) t.

(** ** Processing one version *)

(** [process_version]: probe, record, then download every target in the
    download pool. *)
Definition process_version (E : Env) (version : string) (s : engine)
  : Z * engine :=
  let '(exists_, s) := check_version_exists E version s in
  if negb exists_ then (0, s)
  else
    let s := log MsgRule INFO s in
    let s := log (MsgVersionFound version) FOUND s in
    let s := log MsgRule INFO s in
    let s := with_found ({[version]} ∪ found_versions s) s in
    let s := increment_stat "versions_found" 1 s in
    let s := update_stat_current_version version s in
    let urls := build_download_urls version in
    let s :=
      foldl (λ s '(url, arch, fname),
               match download_file E url version arch fname 0 s with
               | Some (_, s') => s'
               | None => s
               end)
            s (download_order E urls) in
    (1, s).

(** ** Persistent State Store *)

Definition versions_file (E : Env) : path := output_dir E ++ ["found_versions.json"%string].
Definition stats_file (E : Env) : path := output_dir E ++ ["download_stats.json"%string].

Definition string_le (a b : string) : Prop := String.leb a b = true.

#[global] Instance string_le_dec : RelDecision string_le :=
  λ a b, decide (String.leb a b = true).

(** [sorted] on strings. *)
Definition sorted (l : list string) : list string := merge_sort string_le l.

(** [_load_persisted]: the versions of the persisted record are added to
    the found set; an unreadable record is ignored. *)
Definition _load_persisted (E : Env) (s : engine) : engine :=
  if FS.exists_ (fs s) (versions_file E) then
    match FS.read (fs s) (versions_file E) with
    | Some content =>
        foldl (λ s v, with_found ({[v]} ∪ found_versions s) s)
              s (json_load_versions E content)
    | None => s
    end
  else s.

(** [MasterEngine.__init__] on a disk [disk] with the stats sink [g];
    [None] when the output directory cannot be created. *)
Definition __init__ (E : Env) (disk : gmap path node) (g : option gui_state)
  : option engine :=
  match FS.mkdir_parents disk (output_dir E) with
  | None => None
  | Some f =>
      Some (_load_persisted E
              {| fs := f; version_exists_cache := ∅; found_versions := ∅;
                 gui := g; trace := []; requests := 0 |})
  end.

Definition save_found_versions (E : Env) (s : engine) : engine :=
  match FS.open_w (fs s) (versions_file E) with
  | Some f =>
      let content :=
        json_dump_versions E (sorted (elements (found_versions s)))
                           (utcnow E (length (trace s))) in
      let s := with_fs (FS.append f (versions_file E) content) s in
      log MsgSavedVersions INFO s
  | None => log MsgSaveVersionsFailed WARNING s
  end.

Definition save_stats (E : Env) (s : engine) : engine :=
  let '(counters, current) :=
    match gui s with
    | Some g => (stats g, current_version g)
    | None => (∅, None)
    end in
  match FS.open_w (fs s) (stats_file E) with
  | Some f =>
      let content :=
        json_dump_stats E counters current
                        (sorted (elements (found_versions s)))
                        (utcnow E (length (trace s))) in
      let s := with_fs (FS.append f (stats_file E) content) s in
      log MsgSavedStats INFO s
  | None => log MsgSaveStatsFailed WARNING s
  end.

(** ** Full-range scan *)

(** How a method without a result ends. *)
Inductive completion : Type := Done | Exception.

(** One completed probe: the main thread counts it and collects the
    version when it was found. *)
Definition probe_step (E : Env) (acc : list string * engine) (v : string)
  : list string * engine :=
  let '(existing, s) := acc in
  let '(found, s) := check_version_exists E v s in
  let s := increment_stat "versions_tested" 1 s in
  if found then (existing ++ [v], log (MsgFoundVersion v) FOUND s)
  else (existing, s).

(** The probe phase: every candidate is probed in the probe pool; the
    versions found are collected in completion order. *)
Definition probe_all (E : Env) (all_versions : list string) (s : engine)
  : list string * engine :=
  foldl (probe_step E) ([], s) (probe_order E all_versions).

(** [self.gui and self.gui.stop_requested]: without a sink the attribute
    is not read; [None] when the read raises. *)
Definition stop_check (E : Env) (s : engine) : option bool :=
  match gui s with
  | Some _ => stop_requested E (length (trace s))
  | None => Some false
  end.

(** The download loop over [enumerate(sorted(existing), 1)], with its
    [break] on a stop request. *)
Fixpoint download_each (E : Env) (total i : Z) (vs : list string) (s : engine)
  : completion * engine :=
  match vs with
  | [] => (Done, s)
  | v :: vs' =>
      match stop_check E s with
      | None => (Exception, s)
      | Some true => (Done, log MsgStopRequested WARNING s)
      | Some false =>
          let s := log (MsgProcessing i total v) INFO s in
          let s := (process_version E v s).2 in
          download_each E total (i + 1) vs' s
      end
  end.

Definition parse_minor (E : Env) (parts : list string) (default_ : Z) : option Z :=
  if decide (1 < length parts)%nat then parse_int E (nth 1 parts EmptyString)
  else Some default_.

(** [scan_versions_range_and_download]; [ThreadPoolExecutor] raises
    [ValueError] when [test_workers] is not positive. *)
Definition scan_versions_range_and_download (E : Env)
    (start_version end_version : string) (test_workers : Z) (s : engine)
  : completion * engine :=
  let start_parts := Str.split "." start_version in
  let end_parts := Str.split "." end_version in
  match parse_int E (nth 0 start_parts EmptyString),
        parse_minor E start_parts 0,
        parse_int E (nth 0 end_parts EmptyString),
        parse_minor E end_parts 50 with
  | Some start_major, Some start_minor, Some end_major, Some end_minor =>
      let all_versions :=
        generate_all_version_numbers start_major start_minor end_major end_minor in
      let s := log (MsgGenerated (Z.of_nat (length all_versions))) INFO s in
      if test_workers <=? 0 then (Exception, s)
      else
        let '(existing, s) := probe_all E all_versions s in
        let s := log (MsgFoundInScan (Z.of_nat (length existing))) SUCCESS s in
        let s := with_found (found_versions s ∪ list_to_set existing) s in
        let s := save_found_versions E s in
        match download_each E (Z.of_nat (length existing)) 1 (sorted existing) s with
        | (Done, s) => (Done, save_stats E s)
        | (Exception, s) => (Exception, s)
        end
  | _, _, _, _ => (Exception, s)
  end.

(** ** RSS Delta Discovery *)

Module Unicode.

(** The code points that [\d] matches in a [str] pattern, which are those
    that [str.isdecimal] accepts: the ranges of the decimal digits
    (general category Nd) of Unicode 14.0, first and last code point. *)
Definition DECIMAL_DIGITS : list (N * N) :=
  [ (48, 57); (1632, 1641); (1776, 1785); (1984, 1993); (2406, 2415);
    (2534, 2543); (2662, 2671); (2790, 2799); (2918, 2927); (3046, 3055);
    (3174, 3183); (3302, 3311); (3430, 3439); (3558, 3567); (3664, 3673);
    (3792, 3801); (3872, 3881); (4160, 4169); (4240, 4249); (6112, 6121);
    (6160, 6169); (6470, 6479); (6608, 6617); (6784, 6793); (6800, 6809);
    (6992, 7001); (7088, 7097); (7232, 7241); (7248, 7257); (42528, 42537);
    (43216, 43225); (43264, 43273); (43472, 43481); (43504, 43513);
    (43600, 43609); (44016, 44025); (65296, 65305); (66720, 66729);
    (68912, 68921); (69734, 69743); (69872, 69881); (69942, 69951);
    (70096, 70105); (70384, 70393); (70736, 70745); (70864, 70873);
    (71248, 71257); (71360, 71369); (71472, 71481); (71904, 71913);
    (72016, 72025); (72784, 72793); (73040, 73049); (73120, 73129);
    (92768, 92777); (92864, 92873); (93008, 93017); (120782, 120831);
    (123200, 123209); (123632, 123641); (125264, 125273);
    (130032, 130041) ]%N.

Definition is_decimal (cp : N) : bool :=
  existsb (λ r : N * N, (r.1 <=? cp)%N && (cp <=? r.2)%N) DECIMAL_DIGITS.

(** A continuation byte [10xxxxxx] at the start of [s]: its six bits and
    what follows it. *)
Definition continuation (s : string) : option (N * string) :=
  match s with
  | String c s' =>
      let b := N_of_ascii c in
      if (128 <=? b)%N && (b <? 192)%N then Some ((b - 128)%N, s') else None
  | EmptyString => None
  end.

(** A code point is encoded in the shortest way only. *)
Definition shortest (least cp : N) (rest : string) : option (N * string) :=
  if (least <=? cp)%N then Some (cp, rest) else None.

(** The first character of a UTF-8 text: its code point and the text
    after it. *)
Definition decode_char (s : string) : option (N * string) :=
  match s with
  | EmptyString => None
  | String c s1 =>
      let b := N_of_ascii c in
      if (b <? 128)%N then Some (b, s1)
      else if (b <? 192)%N then None
      else if (b <? 224)%N then
        '(x1, s2) ← continuation s1;
        shortest 128 ((b - 192) * 64 + x1) s2
      else if (b <? 240)%N then
        '(x1, s2) ← continuation s1;
        '(x2, s3) ← continuation s2;
        shortest 2048 (((b - 224) * 64 + x1) * 64 + x2) s3
      else if (b <? 248)%N then
        '(x1, s2) ← continuation s1;
        '(x2, s3) ← continuation s2;
        '(x3, s4) ← continuation s3;
        shortest 65536 ((((b - 240) * 64 + x1) * 64 + x2) * 64 + x3) s4
      else None
  end.

End Unicode.

Module Re.

(** The fragment of regular expressions that the version pattern uses;
    [Digits] is [\d+]. Repetition and option are greedy and backtrack. *)
Inductive t : Type :=
  | Lit (s : string)
  | Digits
  | Seq (a b : t)
  | Opt (a : t).

(** [\d] at the start of [s]: one decimal digit of any script; the result
    is what follows it. *)
Definition digit (s : string) : option string :=
  '(cp, rest) ← Unicode.decode_char s;
  if Unicode.is_decimal cp then Some rest else None.

(** [\d+], greedy: as many digits as there are, then one less, and so on.
    [fuel] bounds the number of digits taken; the length of [s] is
    enough. *)
Fixpoint plus_digit {A} (fuel : nat) (s : string) (k : string → option A)
  : option A :=
  match fuel with
  | O => None
  | S fuel' =>
      match digit s with
      | Some s' =>
          match plus_digit fuel' s' k with
          | Some r => Some r
          | None => k s'
          end
      | None => None
      end
  end.

(** [exec r s k]: match [r] at the start of [s], then continue with [k]
    on the rest; the first success in backtracking order wins. *)
Fixpoint exec {A} (r : t) (s : string) (k : string → option A) : option A :=
  match r with
  | Lit l => if String.prefix l s then k (Str.drop (String.length l) s) else None
  | Digits => plus_digit (String.length s) s k
  | Seq a b => exec a s (λ s', exec b s' k)
  | Opt a => match exec a s k with
             | Some res => Some res
             | None => k s
             end
  end.

End Re.

Fixpoint str_take (n : nat) (s : string) : string :=
  match n, s with
  | S n', String c s' => String c (str_take n' s')
  | _, _ => EmptyString
  end.

(** [RouterOS v?] *)
Definition VERSION_PREFIX : Re.t :=
  Re.Seq (Re.Lit "RouterOS ") (Re.Opt (Re.Lit "v")).

(** The capturing group [(\d+\.\d+(?:\.\d+)?(?:rc\d+)?(?:beta\d+)?)]. *)
Definition VERSION_GROUP : Re.t :=
  Re.Seq Re.Digits
 (Re.Seq (Re.Lit ".")
 (Re.Seq Re.Digits
 (Re.Seq (Re.Opt (Re.Seq (Re.Lit ".") Re.Digits))
 (Re.Seq (Re.Opt (Re.Seq (Re.Lit "rc") Re.Digits))
         (Re.Opt (Re.Seq (Re.Lit "beta") Re.Digits)))))).

(** One match of the pattern at the start of [s]: the text of the group and
    what follows the match. *)
Definition match_version (s : string) : option (string * string) :=
  Re.exec VERSION_PREFIX s (λ s1,
    Re.exec VERSION_GROUP s1 (λ rest,
      Some (str_take (String.length s1 - String.length rest) s1, rest))).

(** [re.findall]: leftmost non-overlapping matches; [skip] counts the
    characters still covered by the previous match. *)
Fixpoint findall_go (skip : nat) (s : string) : list string :=
  match s with
  | EmptyString => []
  | String _ s' =>
      match skip with
      | S k => findall_go k s'
      | O =>
          match match_version s with
          | Some (v, rest) =>
              v :: findall_go (String.length s - String.length rest - 1) s'
          | None => findall_go O s'
          end
      end
  end.

Definition findall_versions (text : string) : list string := findall_go O text.

(** [r.text] of the response to request [n]. *)
Definition text_of (E : Env) (n : nat) (body : list (list byte)) : string :=
  response_text E n (concat body).

Definition scan_rss_for_versions (E : Env) (s : engine) : list string * engine :=
  let n := requests s in
  let '(resp, s) := session_request E GET RSS_URL s in
  match resp with
  | Reply _ body true =>
      let vers : gset string := list_to_set (findall_versions (text_of E n body)) in
      let new := filter (λ v, v ∉ found_versions s) (set_order E vers) in
      let s := foldl (λ s v, log (MsgRssDiscovered v) FOUND s) s new in
      (new, s)
  | _ => ([], log MsgRssFailed WARNING s)
  end.

(** ** The headless controller's cycles *)

(** [HeadlessController.scan_version] *)
Definition scan_version (E : Env) (version : string) (s : engine) : engine :=
  let s := log (MsgOther "Scanning version") INFO s in
  let s := (process_version E version s).2 in
  let s := save_found_versions E s in
  let s := save_stats E s in
  log (MsgOther "Successfully processed version") INFO s.

(** [HeadlessController.check_rss] *)
Definition check_rss (E : Env) (s : engine) : engine :=
  let s := log (MsgOther "Checking RSS for new versions...") INFO s in
  let '(new_versions, s) := scan_rss_for_versions E s in
  match new_versions with
  | [] => log (MsgOther "No new versions found in RSS") INFO s
  | _ =>
      let s := log (MsgOther "Found new versions") INFO s in
      let s := foldl (λ s version,
                        let s := log (MsgOther "Downloading version") INFO s in
                        (process_version E version s).2)
                     s new_versions in
      let s := save_found_versions E s in
      let s := save_stats E s in
      log (MsgOther "RSS check completed successfully") INFO s
  end.

(** ** Engine operations as data *)

Inductive operation : Type :=
  | OpLoadPersisted
  | OpCheckVersionExists (version : string)
  | OpDownloadFile (url version arch filename : string)
  | OpProcessVersion (version : string)
  | OpSaveFoundVersions
  | OpSaveStats
  | OpScanRange (start_version end_version : string) (test_workers : Z)
  | OpScanRss
  | OpScanVersion (version : string)
  | OpCheckRss.

Definition exec (E : Env) (o : operation) (s : engine) : engine :=
  match o with
  | OpLoadPersisted => _load_persisted E s
  | OpCheckVersionExists v => (check_version_exists E v s).2
  | OpDownloadFile url v a f =>
      match download_file E url v a f 0 s with
      | Some (_, s') => s'
      | None => s
      end
  | OpProcessVersion v => (process_version E v s).2
  | OpSaveFoundVersions => save_found_versions E s
  | OpSaveStats => save_stats E s
  | OpScanRange a b w => (scan_versions_range_and_download E a b w s).2
  | OpScanRss => (scan_rss_for_versions E s).2
  | OpScanVersion v => scan_version E v s
  | OpCheckRss => check_rss E s
  end.

(** A run of the process: operations one after the other. *)
Definition run (E : Env) (ops : list operation) (s : engine) : engine :=
  foldl (λ s o, exec E o s) s ops.

(** ** The candidate space as the specification words it

    A second description of the generator's output, written from the data
    model of the specification (structured version identifiers rendered to
    text), against which [generate_all_version_numbers] is compared. *)

Module Spec.

Inductive prerelease : Type :=
  | Rc (index : Z)
  | Beta (index : Z).

Record VersionId : Type := {
  major : Z;
  minor : Z;
  patch : option Z;
  tag : option prerelease
}.

Definition render_tag (t : prerelease) : string :=
  match t with
  | Rc i => "rc" +:+ pretty i
  | Beta i => "beta" +:+ pretty i
  end.

Definition render (v : VersionId) : string :=
  pretty (major v) +:+ "." +:+ pretty (minor v)
  +:+ match patch v with
      | Some p => "." +:+ pretty p
                  +:+ match tag v with Some t => render_tag t | None => "" end
      | None => ""
      end.

(** [lo, lo+1, ..., hi] *)
Definition closed (lo hi : Z) : list Z := seqZ lo (hi - lo + 1).

(** The minors of one major: bounded below by [start_minor] on the start
    major, above by [end_minor] on the end major, and by 0 and 99
    otherwise. *)
Definition minors (start_major start_minor end_major end_minor m : Z) : list Z :=
  closed (if decide (m = start_major) then start_minor else 0)
         (if decide (m = end_major) then end_minor else 99).

(** Every [major.minor] pair of the range, in order. *)
Definition pairs (start_major start_minor end_major end_minor : Z) : list (Z * Z) :=
  m ← closed start_major end_major;
  (λ n, (m, n)) <$> minors start_major start_minor end_major end_minor m.

Definition base (mn : Z * Z) : VersionId :=
  {| major := mn.1; minor := mn.2; patch := None; tag := None |}.
Definition patched (mn : Z * Z) (p : Z) : VersionId :=
  {| major := mn.1; minor := mn.2; patch := Some p; tag := None |}.
Definition tagged (mn : Z * Z) (p : Z) (t : prerelease) : VersionId :=
  {| major := mn.1; minor := mn.2; patch := Some p; tag := Some t |}.

(** One patch with its five [rc] and five [beta] variants. *)
Definition patch_block (mn : Z * Z) (p : Z) : list VersionId :=
  patched mn p
    :: ((λ i, tagged mn p (Rc i)) <$> closed 1 5)
    ++ ((λ i, tagged mn p (Beta i)) <$> closed 1 5).

(** One [major.minor]: the base, then patches 1 to 20. *)
Definition block (mn : Z * Z) : list VersionId :=
  base mn :: (closed 1 20 ≫= patch_block mn).

Definition candidates (start_major start_minor end_major end_minor : Z)
  : list VersionId :=
  pairs start_major start_minor end_major end_minor ≫= block.

(** The number of [major.minor] pairs, in closed form. *)
Definition pair_count (start_major start_minor end_major end_minor : Z) : Z :=
  if decide (start_major = end_major)
  then Z.max 0 (end_minor - start_minor + 1)
  else Z.max 0 (100 - start_minor)
       + 100 * (end_major - start_major - 1)
       + Z.max 0 (end_minor + 1).

(** What kind of entry a version identifier is. *)
Inductive kind : Type := Base | Patch | RcVariant | BetaVariant.

#[global] Instance kind_eq_dec : EqDecision kind.
Proof. solve_decision. Defined.

#[global] Instance prerelease_eq_dec : EqDecision prerelease.
Proof. solve_decision. Defined.

Definition kind_of (v : VersionId) : kind :=
match patch v, tag v with
| None, _ => Base
| Some _, None => Patch
| Some _, Some (Rc _) => RcVariant
| Some _, Some (Beta _) => BetaVariant
end.

(** The [major.minor] an entry belongs to. *)
Definition pair_of (v : VersionId) : Z * Z := (major v, minor v).

(** How many entries of kind [k] the list holds for the pair [mn]. *)
Definition count (mn : Z * Z) (k : kind) (l : list VersionId) : nat :=
length (filter (λ v, pair_of v = mn ∧ kind_of v = k) l).

(** How many entries of kind [k] the list holds for patch [p] of [mn]. *)
Definition count_of_patch (mn : Z * Z) (p : Z) (k : kind) (l : list VersionId) : nat :=
length (filter (λ v, pair_of v = mn ∧ patch v = Some p ∧ kind_of v = k) l).

(** The identifiers in which a tag comes with a patch number, as in all
    candidates. *)
Definition tag_needs_patch (v : VersionId) : Prop :=
patch v = None → tag v = None.

(** The patch and tag fields of the entries of one block. *)
Definition shapes : list (option Z * option prerelease) :=
(λ v, (patch v, tag v)) <$> block (0, 0).

Definition with_shape (mn : Z * Z) (sh : option Z * option prerelease) : VersionId :=
{| major := mn.1; minor := mn.2; patch := sh.1; tag := sh.2 |}.

End Spec.

(** ** Characters of a rendered number *)

(** One of the characters [0] to [9]. *)
Definition ascii_digit (c : ascii) : bool :=
  let n := nat_of_ascii c in (48 <=? n)%nat && (n <=? 57)%nat.

(** A character that [str] of an integer can produce. *)
Definition numeric_char (c : ascii) : bool :=
  ascii_digit c || Ascii.eqb c "-".

Fixpoint str_all (P : ascii → bool) (s : string) : bool :=
  match s with
  | EmptyString => true
  | String c s' => P c && str_all P s'
  end.

(** The string is empty or starts with a character that no number contains. *)
Definition ends_number (s : string) : bool :=
  match s with
  | EmptyString => true
  | String c _ => negb (numeric_char c)
  end.

(** ** A concrete world for examples *)

Module Demo.

(** An engine configuration with output directory [archive], the given
    retry budget and the given server, whose texts are UTF-8 and declared
    as such. *)
Definition env (retries : Z) (server : nat → method → string → response) : Env :=
  {| output_dir := ["archive"%string];
     max_retries := retries;
     net := server;
     dir_st_size := 4096;
     utcnow := λ _, "2025-01-01T00:00:00"%string;
     download_order := λ l, l;
     probe_order := λ l, l;
     set_order := elements;
     stop_requested := λ _, Some false;
     response_text := λ _ body, string_of_list_byte body;
     parse_int := λ _, None;
     json_load_versions := λ _, [];
     json_dump_versions := λ _ _, [];
     json_dump_stats := λ _ _ _ _, [] |}.

Definition no_stats : gui_state := {| stats := ∅; current_version := None |}.

(** A freshly constructed engine on an empty disk, with a stats sink. *)
Definition fresh : engine :=
  {| fs := ∅; version_exists_cache := ∅; found_versions := ∅;
     gui := Some no_stats; trace := []; requests := 0 |}.

Definition url : string :=
  "https://download.mikrotik.com/routeros/7.1/routeros-arm-7.1.npk".
Definition version : string := "7.1".
Definition arch : string := "arm".
Definition filename : string := "routeros-arm-7.1.npk".
Definition dest : path := ["archive"; "7.1"; "arm"; "routeros-arm-7.1.npk"]%string.

(** A server on which every fetch breaks after one byte of the body. *)
Definition breaks_after_one_byte : nat → method → string → response :=
  λ _ _ _, Reply 200 [[x41]] false.

(** A server that refuses every connection. *)
Definition unreachable : nat → method → string → response :=
  λ _ _ _, TransportError.

(** A server that answers every request with the given status and an
    empty body. *)
Definition always (status : Z) : nat → method → string → response :=
  λ _ _ _, Reply status [] true.

(** A server that serves the two-byte file once. *)
Definition serves_file : nat → method → string → response :=
  λ _ _ _, Reply 200 [[x41]; []; [x42]] true.

(** The engine once the demo file is on disk. *)
Definition downloaded : engine :=
  {| fs := {[ dest := File [x41; x42] ]};
     version_exists_cache := ∅; found_versions := ∅;
     gui := Some no_stats; trace := []; requests := 0 |}.

(** A feed that announces 7.16.2 once and 7.15.1 twice. *)
Definition feed : string :=
  "<item><title>RouterOS 7.16.2 [stable]</title></item><item><title>RouterOS 7.15.1 [stable]</title></item><item><title>RouterOS v7.15.1 [long-term]</title></item>".

Definition serves_feed : nat → method → string → response :=
  λ _ _ _, Reply 200 [list_byte_of_string feed] true.

(** A body that holds the three version numbers and nothing else. *)
Definition bare_feed : string := "7.16.2 7.15.1 7.15.1".

Definition serves_bare_feed : nat → method → string → response :=
  λ _ _ _, Reply 200 [list_byte_of_string bare_feed] true.

(** A server that sends the feed with the status of an internal error. *)
Definition serves_feed_with_status_500 : nat → method → string → response :=
  λ _ _ _, Reply 500 [list_byte_of_string feed] true.

(** An engine that already knows 7.15.1. *)
Definition knows_7_15_1 : engine :=
  {| fs := ∅; version_exists_cache := ∅; found_versions := {["7.15.1"%string]};
     gui := Some no_stats; trace := []; requests := 0 |}.

End Demo.

(** ** Growth of the engine state *)

(** [grows s s']: going from [s] to [s'] no found version and no cache
    entry was dropped or changed, and the trace was only extended. *)
Definition grows (s s' : engine) : Prop :=
  found_versions s ⊆ found_versions s'
  ∧ version_exists_cache s ⊆ version_exists_cache s'
  ∧ trace s `prefix_of` trace s'.

(** ** Reading the state *)

(** The value of a counter as the GUI shows it: [stats.get(key, 0)], and 0
    when no stats sink is attached. *)
Definition counter (s : engine) (key : string) : Z :=
  match gui s with
  | Some g => default 0 (stats g !! key)
  | None => 0
  end.

(** The seconds slept in a trace. *)
Definition total_wait (t : list event) : Z := foldr Z.add 0 (sleeps t).

(** The URLs probed with HEAD, in order. *)
Definition probes (t : list event) : list string :=
  omap (λ e, match e with Request HEAD url => Some url | _ => None end) t.

(** What the events of one download may be: GETs of the target's URL, at
    most one more than the retry budget, and no probe. *)
Definition one_target (E : Env) (target : string * string * string)
    (seg : list event) : Prop :=
  probes seg = []
  ∧ ∃ n : nat, fetches seg = replicate n target.1.1
               ∧ Z.of_nat n ≤ Z.max 0 (max_retries E) + 1.

(** ** Footprints on the file system *)

(** From [f] to [f'] nothing changed except possibly [dest] itself and
    missing ancestors of [dest], which were created as directories. *)
Definition touches_only (dest : path) (f f' : gmap path node) : Prop :=
  ∀ q, q ≠ dest →
       f' !! q = f !! q
       ∨ (q `prefix_of` dest ∧ f !! q = None ∧ f' !! q = Some Dir).

(** From [f] to [f'] nothing changed except at paths that lie below
    [root] and whose components below it all satisfy [ok], and except that
    missing ancestors of [root] may have been created as directories. *)
Definition confined (ok : string → Prop) (root : path) (f f' : gmap path node)
  : Prop :=
  ∀ q, f' !! q = f !! q
       ∨ (∃ l, q = root ++ l ∧ Forall ok l)
       ∨ (q `prefix_of` root ∧ f !! q = None ∧ f' !! q = Some Dir).

Definition plain (c : string) : Prop := plain_component c = true.

Definition not_slash (a : ascii) : bool := negb (Ascii.eqb a "/").

(** The strings of its arguments that an operation joins into paths. *)
Definition operation_components (o : operation) : list string :=
  match o with
  | OpDownloadFile _ version arch filename => [version; arch; filename]
  | OpProcessVersion version | OpScanVersion version => [version]
  | _ => []
  end.

(** ** Reading a target list *)

(** The filenames that a target list holds for one architecture, in
    order. *)
Definition files_for (arch : string) (targets : list (string * string * string))
  : list string :=
  (λ t, t.2) <$> filter (λ t, t.1.2 = arch) targets.

(** ** Three ways in which the state only moves forward *)

(** The stats sink stays attached (or absent), no counter goes down and
    the number of requests does not either. *)
Definition counts_up (s s' : engine) : Prop :=
  (is_Some (gui s) ↔ is_Some (gui s'))
  ∧ (∀ key, counter s key ≤ counter s' key)
  ∧ (requests s ≤ requests s')%nat.

(** The probe cache keeps its entries, and every found version of [s'] was
    already found in [s] or is cached as existing. *)
Definition confirmed_growth (s s' : engine) : Prop :=
  version_exists_cache s ⊆ version_exists_cache s'
  ∧ ∀ v, v ∈ found_versions s' →
         v ∈ found_versions s ∨ version_exists_cache s' !! v = Some true.

(** The disk changed only at paths below the output directory that are
    made of plain components (or by creating the directories that lead to
    the output directory). *)
Definition stays_inside (E : Env) (s s' : engine) : Prop :=
  confined plain (output_dir E) (fs s) (fs s').

(** ** A world with a working codec, for examples *)

Module Restart.

(** One version per line. *)
Definition dump (versions : list string) : list byte :=
  concat ((λ v, list_byte_of_string v ++ [x0a]) <$> versions).

Fixpoint load_go (cur : list byte) (bs : list byte) : list string :=
  match bs with
  | [] => []
  | b :: bs' =>
      if Byte.eqb b x0a then string_of_list_byte (rev cur) :: load_go [] bs'
      else load_go (b :: cur) bs'
  end.

Definition load (bs : list byte) : list string := load_go [] bs.

(** Unsigned decimal numbers, the part of [int] that version strings
    need. *)
Fixpoint parse_digits (acc : Z) (s : string) : option Z :=
  match s with
  | EmptyString => Some acc
  | String c s' =>
      if ascii_digit c
      then parse_digits (10 * acc + Z.of_nat (nat_of_ascii c - 48)) s'
      else None
  end.

Definition parse_decimal (s : string) : option Z :=
  match s with
  | EmptyString => None
  | _ => parse_digits 0 s
  end.

(** The demo configuration with this codec for the found-versions record
    and this parser. *)
Definition env : Env :=
  {| output_dir := ["archive"%string];
     max_retries := 3;
     net := Demo.always 200;
     dir_st_size := 4096;
     utcnow := λ _, "2025-01-01T00:00:00"%string;
     download_order := λ l, l;
     probe_order := λ l, l;
     set_order := elements;
     stop_requested := λ _, Some false;
     response_text := λ _ body, string_of_list_byte body;
     parse_int := parse_decimal;
     json_load_versions := load;
     json_dump_versions := λ versions _, dump versions;
     json_dump_stats := λ _ _ _ _, [] |}.

(** The same with the sink of the headless controller, which has no
    [stop_requested]. *)
Definition headless_env : Env :=
  {| output_dir := ["archive"%string];
     max_retries := 3;
     net := Demo.always 200;
     dir_st_size := 4096;
     utcnow := λ _, "2025-01-01T00:00:00"%string;
     download_order := λ l, l;
     probe_order := λ l, l;
     set_order := elements;
     stop_requested := λ _, None;
     response_text := λ _ body, string_of_list_byte body;
     parse_int := parse_decimal;
     json_load_versions := load;
     json_dump_versions := λ versions _, dump versions;
     json_dump_stats := λ _ _ _ _, [] |}.

(** An engine that has found two versions, on a disk that holds the output
    directory. *)
Definition engine : engine :=
  {| fs := {[ ["archive"%string] := Dir ]};
     version_exists_cache := ∅;
     found_versions := {[ "7.1"%string; "6.51"%string ]};
     gui := None; trace := []; requests := 0 |}.

End Restart.

(** ** The language of the version pattern *)

(** A text that is one decimal digit of some script: the UTF-8 encoding of
    one code point of [Unicode.DECIMAL_DIGITS]. *)
Definition digit_char (d : string) : Prop :=
  ∃ cp, Unicode.decode_char d = Some (cp, EmptyString)
        ∧ Unicode.is_decimal cp = true.

(** One or more decimal digits. *)
Inductive digits : string → Prop :=
  | digits_one d : digit_char d → digits d
  | digits_more d w : digit_char d → digits w → digits (d +:+ w).

(** The strings that a regular expression of the fragment denotes. *)
Inductive in_lang : Re.t → string → Prop :=
  | in_lit l : in_lang (Re.Lit l) l
  | in_digits w : digits w → in_lang Re.Digits w
  | in_seq a b w1 w2 :
      in_lang a w1 → in_lang b w2 → in_lang (Re.Seq a b) (w1 +:+ w2)
  | in_opt_skip a : in_lang (Re.Opt a) EmptyString
  | in_opt_take a w : in_lang a w → in_lang (Re.Opt a) w.

(** Nothing, or [mark] followed by digits. *)
Definition optional_part (mark : string) (p : string) : Prop :=
  p = EmptyString ∨ ∃ d, digits d ∧ p = mark +:+ d.

(** The shape [digits.digits], then an optional [.digits], an optional
    [rc digits] and an optional [beta digits]. *)
Definition version_token (v : string) : Prop :=
  ∃ major minor patch rc beta,
    v = major +:+ "." +:+ minor +:+ patch +:+ rc +:+ beta
    ∧ digits major ∧ digits minor
    ∧ optional_part "." patch
    ∧ optional_part "rc" rc
    ∧ optional_part "beta" beta.

(** The keys that a download counts under. *)
Definition file_counters : list string :=
  ["files_skipped"; "files_downloaded"; "bytes_downloaded"; "files_failed"]%string.

(** ** Projection lemmas *)

Section Projections.
Context (s : engine).

Lemma fs_with_fs f : fs (with_fs f s) = f.
Proof. reflexivity. Qed.
Lemma fs_log m l : fs (log m l s) = fs s.
Proof. reflexivity. Qed.
Lemma fs_sleep n : fs (sleep n s) = fs s.
Proof. reflexivity. Qed.
Lemma fs_increment_stat k a : fs (increment_stat k a s) = fs s.
Proof. unfold increment_stat. by destruct (gui s). Qed.
Lemma fs_update_stat v : fs (update_stat_current_version v s) = fs s.
Proof. unfold update_stat_current_version. by destruct (gui s). Qed.
Lemma fs_cache_put v b : fs (cache_put v b s) = fs s.
Proof. reflexivity. Qed.
Lemma fs_with_found X : fs (with_found X s) = fs s.
Proof. reflexivity. Qed.

Lemma trace_with_fs f : trace (with_fs f s) = trace s.
Proof. reflexivity. Qed.
Lemma trace_log m l : trace (log m l s) = trace s ++ [Log l m].
Proof. reflexivity. Qed.
Lemma trace_sleep n : trace (sleep n s) = trace s ++ [Sleep n].
Proof. reflexivity. Qed.
Lemma trace_increment_stat k a : trace (increment_stat k a s) = trace s.
Proof. unfold increment_stat. by destruct (gui s). Qed.
Lemma trace_update_stat v : trace (update_stat_current_version v s) = trace s.
Proof. unfold update_stat_current_version. by destruct (gui s). Qed.
Lemma trace_cache_put v b : trace (cache_put v b s) = trace s.
Proof. reflexivity. Qed.
Lemma trace_with_found X : trace (with_found X s) = trace s.
Proof. reflexivity. Qed.

Lemma found_with_fs f : found_versions (with_fs f s) = found_versions s.
Proof. reflexivity. Qed.
Lemma found_log m l : found_versions (log m l s) = found_versions s.
Proof. reflexivity. Qed.
Lemma found_sleep n : found_versions (sleep n s) = found_versions s.
Proof. reflexivity. Qed.
Lemma found_increment_stat k a :
  found_versions (increment_stat k a s) = found_versions s.
Proof. unfold increment_stat. by destruct (gui s). Qed.
Lemma found_update_stat v :
  found_versions (update_stat_current_version v s) = found_versions s.
Proof. unfold update_stat_current_version. by destruct (gui s). Qed.
Lemma found_cache_put v b : found_versions (cache_put v b s) = found_versions s.
Proof. reflexivity. Qed.
Lemma found_with_found X : found_versions (with_found X s) = X.
Proof. reflexivity. Qed.

Lemma gui_with_fs f : gui (with_fs f s) = gui s.
Proof. reflexivity. Qed.
Lemma gui_log m l : gui (log m l s) = gui s.
Proof. reflexivity. Qed.
Lemma gui_sleep n : gui (sleep n s) = gui s.
Proof. reflexivity. Qed.
Lemma gui_cache_put v b : gui (cache_put v b s) = gui s.
Proof. reflexivity. Qed.
Lemma gui_with_found X : gui (with_found X s) = gui s.
Proof. reflexivity. Qed.

Lemma requests_with_fs f : requests (with_fs f s) = requests s.
Proof. reflexivity. Qed.
Lemma requests_log m l : requests (log m l s) = requests s.
Proof. reflexivity. Qed.
Lemma requests_sleep n : requests (sleep n s) = requests s.
Proof. reflexivity. Qed.
Lemma requests_increment_stat k a : requests (increment_stat k a s) = requests s.
Proof. unfold increment_stat. by destruct (gui s). Qed.
Lemma requests_cache_put v b : requests (cache_put v b s) = requests s.
Proof. reflexivity. Qed.

Lemma cache_with_fs f : version_exists_cache (with_fs f s) = version_exists_cache s.
Proof. reflexivity. Qed.
Lemma cache_log m l : version_exists_cache (log m l s) = version_exists_cache s.
Proof. reflexivity. Qed.
Lemma cache_sleep n : version_exists_cache (sleep n s) = version_exists_cache s.
Proof. reflexivity. Qed.
Lemma cache_increment_stat k a :
  version_exists_cache (increment_stat k a s) = version_exists_cache s.
Proof. unfold increment_stat. by destruct (gui s). Qed.
End Projections.

Create Rewrite HintDb engine.
#[global] Hint Rewrite
  fs_with_fs fs_log fs_sleep fs_increment_stat fs_update_stat fs_cache_put
  fs_with_found
  trace_with_fs trace_log trace_sleep trace_increment_stat trace_update_stat
  trace_cache_put trace_with_found
  found_with_fs found_log found_sleep found_increment_stat found_update_stat
  found_cache_put found_with_found
  gui_with_fs gui_log gui_sleep gui_cache_put gui_with_found
  requests_with_fs requests_log requests_sleep requests_increment_stat
  requests_cache_put
  cache_with_fs cache_log cache_sleep cache_increment_stat : engine.

Lemma session_request_spec E m url s :
  session_request E m url s
  = (net E (requests s) m url,
     {| fs := fs s; version_exists_cache := version_exists_cache s;
        found_versions := found_versions s; gui := gui s;
        trace := trace s ++ [Request m url]; requests := S (requests s) |}).
Proof. reflexivity. Qed.

(** ** The definitions at work *)

Example generate_7_16_head :
  take 13 (generate_all_version_numbers 7 16 7 16)
  = ["7.16"; "7.16.1"; "7.16.1rc1"; "7.16.1rc2"; "7.16.1rc3"; "7.16.1rc4";
     "7.16.1rc5"; "7.16.1beta1"; "7.16.1beta2"; "7.16.1beta3"; "7.16.1beta4";
     "7.16.1beta5"; "7.16.2"]%string.
Proof. vm_compute. reflexivity. Qed.

Example generate_empty_when_minors_cross :
  generate_all_version_numbers 7 20 7 16 = [].
Proof. vm_compute. reflexivity. Qed.

(** Four architecture-qualified patterns for each of the eight
    architectures, and the eleven others once, under [x86]. *)
Example build_download_urls_count : length (build_download_urls "7.1") = 43%nat.
Proof. vm_compute. reflexivity. Qed.

Example build_download_urls_arm :
  filter (λ t, t.1.2 = "arm"%string) (build_download_urls "7.1")
  = [("https://download.mikrotik.com/routeros/7.1/routeros-arm-7.1.npk",
      "arm", "routeros-arm-7.1.npk");
     ("https://download.mikrotik.com/routeros/7.1/all_packages-arm-7.1.zip",
      "arm", "all_packages-arm-7.1.zip");
     ("https://download.mikrotik.com/routeros/7.1/routeros-arm-7.1.zip",
      "arm", "routeros-arm-7.1.zip");
     ("https://download.mikrotik.com/routeros/7.1/routeros-arm-7.1.upgrade",
      "arm", "routeros-arm-7.1.upgrade")]%string.
Proof. vm_compute. reflexivity. Qed.

(** Digits of another script are digits to the pattern; a superscript is
    not a decimal digit. *)
Example findall_versions_other_script :
  findall_versions "RouterOS ٧.١٦ and RouterOS v7.1rc22beta3x RouterOS 1.²"
  = ["٧.١٦"; "7.1rc22beta3"]%string.
Proof. vm_compute. reflexivity. Qed.

(** The pattern needs the [RouterOS ] prefix, takes an optional [v], and
    stops where the version stops. *)
Example findall_versions_samples :
  findall_versions
    "RouterOS 7.16.2, 7.15 alone, RouterOS v7.15.1; RouterOS 7.17rc3 RouterOS 7.18beta2x RouterOS 7. RouterOS 6.49."
  = ["7.16.2"; "7.15.1"; "7.17rc3"; "7.18beta2"; "6.49"]%string.
Proof. vm_compute. reflexivity. Qed.

Example split_version : Str.split "." "3.30.1" = ["3"; "30"; "1"]%string.
Proof. vm_compute. reflexivity. Qed.

Example sorted_is_lexicographic :
  sorted ["7.16.2"; "7.15.1"; "10.1"; "7.2"]%string
  = ["10.1"; "7.15.1"; "7.16.2"; "7.2"]%string.
Proof. vm_compute. reflexivity. Qed.

(** A directory that answers 200 exists; 6.51 is then found, recorded and
    its 43 targets are tried. *)
Example process_version_found :
  let r := process_version
             (Demo.env 3 (λ _ m _, match m with
                                   | HEAD => Reply 200 [] true
                                   | GET => Reply 404 [] true
                                   end))
             "6.51" Demo.fresh in
  r.1 = 1
  ∧ elements (found_versions r.2) = ["6.51"%string]
  ∧ version_exists_cache r.2 !! "6.51"%string = Some true
  ∧ length (fetches (trace r.2)) = 43%nat.
Proof. vm_compute. done. Qed.

(** A first invocation downloads the two bytes that the server sends (the
    empty chunk is skipped); a second one finds them and asks nothing. *)
Example download_file_twice :
  ∃ s1 s2,
    download_file (Demo.env 3 Demo.serves_file)
                  Demo.url Demo.version Demo.arch Demo.filename 0 Demo.fresh
    = Some (true, s1)
    ∧ fs s1 !! Demo.dest = Some (File [x41; x42])
    ∧ (stats <$> gui s1)
      = Some {[ "files_downloaded"%string := 1; "bytes_downloaded"%string := 2 ]}
    ∧ download_file (Demo.env 3 Demo.serves_file)
                    Demo.url Demo.version Demo.arch Demo.filename 0 s1
      = Some (true, s2)
    ∧ fs s2 = fs s1
    ∧ fetches (trace s2) = [Demo.url].
Proof.
  eexists _, _. split; [vm_compute; reflexivity|].
  split; [vm_compute; reflexivity|]. split; [vm_compute; reflexivity|].
  split; [vm_compute; reflexivity|]. split; vm_compute; reflexivity.
Qed.

(** A budget of 2 against a server that answers 500: three fetches, waits
    of 1 and 2 seconds, one failure counted, nothing on disk. *)
Example download_file_gives_up :
  ∃ s',
    download_file (Demo.env 2 (Demo.always 500))
                  Demo.url Demo.version Demo.arch Demo.filename 0 Demo.fresh
    = Some (false, s')
    ∧ trace s'
      = [Request GET Demo.url; Log WARNING (MsgRetry 1 Demo.filename 1); Sleep 1;
         Request GET Demo.url; Log WARNING (MsgRetry 2 Demo.filename 2); Sleep 2;
         Request GET Demo.url; Log ERROR (MsgFailed Demo.filename)]
    ∧ fs s' = ∅
    ∧ (stats <$> gui s') = Some {[ "files_failed"%string := 1 ]}.
Proof.
  eexists. split; [vm_compute; reflexivity|].
  split; [vm_compute; reflexivity|]. split; vm_compute; reflexivity.
Qed.

(** ** Download Manager: properties *)

Section Download.
Context (E : Env) (url version arch filename : string).

Local Abbreviation dest := (out_path E version arch filename).
Local Abbreviation attempt_ := (download_attempt E url version arch filename).
Local Abbreviation retry_msg n := (MsgRetry (n + 1) filename (2 ^ n)).

Lemma fetches_app t1 t2 : fetches (t1 ++ t2) = fetches t1 ++ fetches t2.
Proof. apply omap_app. Qed.

Lemma sleeps_app t1 t2 : sleeps (t1 ++ t2) = sleeps t1 ++ sleeps t2.
Proof. apply omap_app. Qed.

(** The file is on disk with some bytes: the attempt is a skip. *)
Lemma download_attempt_skip s :
  present_nonempty E (fs s) dest = true →
  attempt_ s
  = (Returned true, increment_stat "files_skipped" 1 (log (MsgSkip filename) INFO s)).
Proof. intros H. unfold download_attempt. by rewrite H. Qed.

(** A failing fetch: the attempt raises having done nothing but the
    request. *)
Lemma download_attempt_fails s :
  present_nonempty E (fs s) dest = false →
  fetch_fails (net E (requests s) GET url) = true →
  attempt_ s = (Raised, (session_request E GET url s).2).
Proof.
  intros Hp Hf. unfold download_attempt. rewrite Hp, session_request_spec.
  cbn [snd]. destruct (net E (requests s) GET url) as [|status body complete];
    [done|].
  cbn in Hf. apply andb_prop in Hf as [H404 Hraise].
  destruct (status =? 404); [done|]. by rewrite Hraise.
Qed.

(** A 404: the attempt returns [False] having done nothing but the
    request. *)
Lemma download_attempt_404 s body complete :
  present_nonempty E (fs s) dest = false →
  net E (requests s) GET url = Reply 404 body complete →
  attempt_ s = (Returned false, (session_request E GET url s).2).
Proof.
  intros Hp Hn. unfold download_attempt.
  by rewrite Hp, session_request_spec, Hn.
Qed.

(** Whatever happens, one attempt adds no wait and at most one fetch. *)
Lemma download_attempt_trace s :
  ∃ evs, trace (attempt_ s).2 = trace s ++ evs
         ∧ sleeps evs = [] ∧ (length (fetches evs) ≤ 1)%nat.
Proof.
  unfold download_attempt.
  destruct (present_nonempty E (fs s) dest).
  { exists [Log INFO (MsgSkip filename)]. cbn [snd].
    autorewrite with engine. split; [done|]. split; [done|]. cbn. lia. }
  rewrite session_request_spec.
  set (s1 := {| fs := fs s; trace := trace s ++ [Request GET url] |}).
  assert (Hs1 : trace s1 = trace s ++ [Request GET url]) by done.
  assert (Hone : ∃ evs, trace s1 = trace s ++ evs ∧ sleeps evs = []
                        ∧ (length (fetches evs) ≤ 1)%nat).
  { exists [Request GET url]. split; [done|]. split; [done|]. cbn. lia. }
  destruct (net E (requests s) GET url) as [|status body complete]; [done|].
  destruct (status =? 404); [done|].
  destruct (raise_for_status status); [done|].
  destruct (FS.mkdir_parents (fs s1) (FS.parent dest)) as [f1|]; [|done].
  destruct (FS.open_w f1 dest) as [f2|]; [|done].
  destruct (write_chunks dest body f2) as [f3 downloaded].
  destruct complete; [|done].
  exists [Request GET url; Log SUCCESS (MsgDownload filename downloaded)].
  cbn [snd]. autorewrite with engine. rewrite Hs1, <-app_assoc.
  split; [done|]. split; [done|]. cbn. lia.
Qed.

(** The recursion bound chosen by [download_file] is enough. *)
Lemma download_file_rec_total fuel retry_count s :
  max_retries E - retry_count ≤ Z.of_nat fuel →
  is_Some (download_file_rec fuel E url version arch filename retry_count s).
Proof.
  revert retry_count s. induction fuel as [|fuel IH]; intros rc s Hfuel; cbn.
  - destruct (attempt_ s) as [[b|] s1]; [done|].
    destruct (Z.ltb_spec rc (max_retries E)); [lia|done].
  - destruct (attempt_ s) as [[b|] s1]; [done|].
    destruct (Z.ltb_spec rc (max_retries E)); [|done].
    apply IH. lia.
Qed.

Lemma download_file_total retry_count s :
  is_Some (download_file E url version arch filename retry_count s).
Proof. apply download_file_rec_total. lia. Qed.

(** With enough fuel the amount of fuel does not matter. *)
Lemma download_file_rec_enough fuel retry_count s :
  max_retries E - retry_count ≤ Z.of_nat fuel →
  download_file_rec fuel E url version arch filename retry_count s
  = download_file E url version arch filename retry_count s.
Proof.
  unfold download_file.
  revert retry_count s. induction fuel as [|fuel IH]; intros rc s Hfuel.
  - replace (Z.to_nat (max_retries E - rc)) with O by lia. done.
  - destruct (Z.to_nat (max_retries E - rc)) as [|n] eqn:Hn.
    + cbn. destruct (attempt_ s) as [[b|] s1]; [done|].
      destruct (Z.ltb_spec rc (max_retries E)); [lia|done].
    + cbn. destruct (attempt_ s) as [[b|] s1]; [done|].
      destruct (Z.ltb_spec rc (max_retries E)); [|done].
      rewrite IH by lia.
      replace n with (Z.to_nat (max_retries E - (rc + 1))) by lia. done.
Qed.

(** Unfolding [download_file] once. *)
Lemma download_file_unfold retry_count s :
  download_file E url version arch filename retry_count s
  = match attempt_ s with
    | (Returned b, s1) => Some (b, s1)
    | (Raised, s1) =>
        if retry_count <? max_retries E then
          download_file E url version arch filename (retry_count + 1)
            (sleep (2 ^ retry_count) (log (retry_msg retry_count) WARNING s1))
        else
          Some (false,
                remove_partial dest
                  (increment_stat "files_failed" 1
                     (log (MsgFailed filename) ERROR s1)))
    end.
Proof.
  unfold download_file at 1.
  destruct (Z.to_nat (max_retries E - retry_count)) as [|n] eqn:Hn; cbn.
  - destruct (attempt_ s) as [[b|] s1]; [done|].
    destruct (Z.ltb_spec retry_count (max_retries E)); [lia|done].
  - destruct (attempt_ s) as [[b|] s1]; [done|].
    destruct (Z.ltb_spec retry_count (max_retries E)); [|done].
    apply download_file_rec_enough. lia.
Qed.

Lemma trace_remove_partial p s : trace (remove_partial p s) = trace s.
Proof.
  unfold remove_partial. destruct (FS.exists_ (fs s) p); [|done].
  by destruct (FS.unlink (fs s) p).
Qed.

(** The schedule of a download: the waits are [2^retry_count],
    [2^(retry_count+1)], ... and there are at most as many of them as
    retries remain; each wait is preceded by at most one fetch, and one
    more fetch may follow the last. *)
Lemma download_file_schedule retry_count s :
  0 ≤ retry_count →
  ∃ b s' evs (k : nat),
    download_file E url version arch filename retry_count s = Some (b, s')
    ∧ trace s' = trace s ++ evs
    ∧ Z.of_nat k ≤ Z.max 0 (max_retries E - retry_count)
    ∧ sleeps evs = (λ a, 2 ^ a) <$> seqZ retry_count (Z.of_nat k)
    ∧ (length (fetches evs) ≤ k + 1)%nat.
Proof.
  remember (Z.to_nat (max_retries E - retry_count)) as n eqn:Hn.
  revert retry_count s Hn. induction n as [|n IH]; intros rc s Hn Hrc.
  - rewrite download_file_unfold.
    destruct (download_attempt_trace s) as (evs & Ht & Hsl & Hf).
    destruct (attempt_ s) as [[b|] s1]; cbn [snd] in Ht.
    + exists b, s1, evs, O. rewrite Hsl. split_and!; [done|done|lia|done|lia].
    + destruct (Z.ltb_spec rc (max_retries E)); [lia|].
      eexists _, _, (evs ++ [Log ERROR (MsgFailed filename)]), O.
      split; [done|]. rewrite trace_remove_partial.
      autorewrite with engine. rewrite Ht, <-app_assoc.
      rewrite sleeps_app, fetches_app, Hsl, length_app. cbn.
      split_and!; [done|lia|done|lia].
  - rewrite download_file_unfold.
    destruct (download_attempt_trace s) as (evs & Ht & Hsl & Hf).
    destruct (attempt_ s) as [[b|] s1]; cbn [snd] in Ht.
    + exists b, s1, evs, O. rewrite Hsl. split_and!; [done|done|lia|done|lia].
    + destruct (Z.ltb_spec rc (max_retries E)); [|lia].
      edestruct (IH (rc + 1)) as (b & s' & evs' & k & Hd & Ht' & Hk & Hsl' & Hf');
        [lia|lia|].
      rewrite Hd.
      exists b, s', (evs ++ [Log WARNING (retry_msg rc); Sleep (2 ^ rc)] ++ evs'), (S k).
      split; [done|]. split.
      { rewrite Ht'. autorewrite with engine. rewrite Ht.
        by rewrite <-!app_assoc. }
      split; [lia|]. split.
      { rewrite !sleeps_app, Hsl, Hsl'.
        rewrite (seqZ_cons rc (Z.of_nat (S k))) by lia.
        replace (Z.pred (Z.of_nat (S k))) with (Z.of_nat k) by lia.
        replace (Z.succ rc) with (rc + 1) by lia. done. }
      rewrite !fetches_app, !length_app. cbn. lia.
Qed.
End Download.

(** The clean-up of the give-up branch does remove a regular file. *)
Lemma remove_partial_no_file p s : FS.is_file (fs (remove_partial p s)) p = false.
Proof.
  unfold remove_partial, FS.exists_, FS.unlink, FS.is_file.
  destruct p as [|c p]; [done|]. unfold FS.node_at.
  destruct (fs s !! (c :: p)) as [[content|]|] eqn:Hp.
  - rewrite fs_with_fs. by rewrite lookup_delete_eq.
  - by rewrite Hp.
  - by rewrite Hp.
Qed.

(** When the attempt that raises is the last one of the budget, the
    download ends in failure and no regular file is left at the
    destination. *)
Lemma download_file_last_attempt_cleans E url version arch filename retry_count s :
  max_retries E ≤ retry_count →
  (download_attempt E url version arch filename s).1 = Raised →
  ∃ s',
    download_file E url version arch filename retry_count s = Some (false, s')
    ∧ FS.is_file (fs s') (out_path E version arch filename) = false.
Proof.
  intros Hlast Hraise. rewrite download_file_unfold.
  destruct (download_attempt E url version arch filename s) as [[b|] s1];
    [done|].
  destruct (Z.ltb_spec retry_count (max_retries E)); [lia|].
  eexists. split; [done|]. apply remove_partial_no_file.
Qed.

(** When an attempt that may be retried raises after it wrote bytes to the
    destination, the retry is a skip: the download ends in success with the
    partial file in place. *)
Lemma download_file_retry_skips_partial E url version arch filename retry_count s s1 :
  retry_count < max_retries E →
  download_attempt E url version arch filename s = (Raised, s1) →
  present_nonempty E (fs s1) (out_path E version arch filename) = true →
  ∃ s',
    download_file E url version arch filename retry_count s = Some (true, s')
    ∧ fs s' = fs s1.
Proof.
  intros Hretry Hraise Hpartial.
  rewrite download_file_unfold, Hraise.
  destruct (Z.ltb_spec retry_count (max_retries E)); [|lia].
  rewrite download_file_unfold, download_attempt_skip by done.
  eexists. split; [done|]. by autorewrite with engine.
Qed.

(** C1. The server breaks every fetch of the target after one byte of the
    body, and the retry budget is 3. The first attempt leaves the one-byte
    partial file; the first retry finds it, takes it for a finished
    download and returns success: a single fetch was made, the partial file
    is still at the destination, and nothing was logged as a failure. *)
Theorem download_file_partial_file_survives_retry :
  ∃ s',
    download_file (Demo.env 3 Demo.breaks_after_one_byte)
                  Demo.url Demo.version Demo.arch Demo.filename 0 Demo.fresh
    = Some (true, s')
    ∧ out_path (Demo.env 3 Demo.breaks_after_one_byte)
               Demo.version Demo.arch Demo.filename = Demo.dest
    ∧ fs s' !! Demo.dest = Some (File [x41])
    ∧ fetches (trace s') = [Demo.url]
    ∧ sleeps (trace s') = [1]
    ∧ logged INFO (trace s') = [MsgSkip Demo.filename]
    ∧ logged ERROR (trace s') = [].
Proof.
  eexists. split; [vm_compute; reflexivity|].
  split_and!; vm_compute; reflexivity.
Qed.




(** C4. When the destination holds a file with at least one byte,
    [download_file] returns success after logging the skip and counting it
    under ['files_skipped']: it issues no request and leaves the disk as it
    is. Invoked again on the resulting state it does the same, so the file
    stays byte-identical and still no request is issued. *)
Theorem download_file_skips_existing E url version arch filename retry_count s content :
  fs s !! out_path E version arch filename = Some (File content) →
  content ≠ [] →
  ∃ s',
    download_file E url version arch filename retry_count s = Some (true, s')
    ∧ fs s' = fs s
    ∧ requests s' = requests s
    ∧ trace s' = trace s ++ [Log INFO (MsgSkip filename)]
    ∧ gui s' = (λ g, {| stats := <["files_skipped" :=
                                     default 0 (stats g !! "files_skipped") + 1]> (stats g);
                         current_version := current_version g |}) <$> gui s
    ∧ ∃ s'',
        download_file E url version arch filename retry_count s' = Some (true, s'')
        ∧ fs s'' !! out_path E version arch filename = Some (File content)
        ∧ fs s'' = fs s
        ∧ requests s'' = requests s
        ∧ filter (λ e, is_request e = true) (trace s'')
          = filter (λ e, is_request e = true) (trace s).
Proof.
  intros Hfile Hne.
  assert (Hskip : ∀ t, fs t = fs s → present_nonempty E (fs t)
                                       (out_path E version arch filename) = true).
  { intros t ->. unfold present_nonempty, FS.node_at, out_path in *.
    destruct (output_dir E ++ [version; arch; filename]) eqn:Hp.
    { by destruct (output_dir E). }
    rewrite Hfile. unfold st_size. apply Z.ltb_lt.
    destruct content; [done|]. rewrite length_cons. lia. }
  set (s1 := increment_stat "files_skipped" 1 (log (MsgSkip filename) INFO s)).
  assert (Hfs1 : fs s1 = fs s) by (unfold s1; by autorewrite with engine).
  exists s1. split.
  { by rewrite download_file_unfold, download_attempt_skip by auto. }
  split; [done|]. split; [unfold s1; by autorewrite with engine|].
  split; [unfold s1; by autorewrite with engine|]. split.
  { unfold s1, increment_stat, log, emit. cbn [gui].
    destruct (gui s) as [g|]; done. }
  exists (increment_stat "files_skipped" 1 (log (MsgSkip filename) INFO s1)).
  split.
  { by rewrite download_file_unfold, download_attempt_skip by auto. }
  autorewrite with engine. rewrite Hfs1. split; [done|]. split; [done|].
  split; [unfold s1; by autorewrite with engine|].
  unfold s1. autorewrite with engine.
  rewrite !filter_app. cbn. by rewrite !app_nil_r.
Qed.

(** The theorem at work on the demo file. *)
Lemma download_file_skips_existing_witness :
  ∃ s',
    download_file (Demo.env 3 Demo.unreachable)
                  Demo.url Demo.version Demo.arch Demo.filename 0 Demo.downloaded
    = Some (true, s')
    ∧ fs s' = fs Demo.downloaded
    ∧ requests s' = requests Demo.downloaded.
Proof.
  destruct (download_file_skips_existing (Demo.env 3 Demo.unreachable)
              Demo.url Demo.version Demo.arch Demo.filename 0 Demo.downloaded
              [x41; x42])
    as (s' & H1 & H2 & H3 & _).
  - vm_compute. reflexivity.
  - discriminate.
  - exists s'. auto.
Defined.

(** C6. A 404 answer makes [download_file] return failure at once,
    whatever the attempt number and the retry budget: the request is the
    only event it adds, so there is no wait, no retry and no log line of
    any level. *)
Theorem download_file_404_returns_immediately
    E url version arch filename retry_count s body complete :
  present_nonempty E (fs s) (out_path E version arch filename) = false →
  net E (requests s) GET url = Reply 404 body complete →
  ∃ s',
    download_file E url version arch filename retry_count s = Some (false, s')
    ∧ trace s' = trace s ++ [Request GET url]
    ∧ requests s' = S (requests s)
    ∧ sleeps (trace s') = sleeps (trace s)
    ∧ logged ERROR (trace s') = logged ERROR (trace s).
Proof.
  intros Hp Hn. exists (session_request E GET url s).2. split.
  { by rewrite download_file_unfold, (download_attempt_404 _ _ _ _ _ _ body complete). }
  cbn. split; [done|]. split; [done|].
  unfold sleeps, logged. rewrite !omap_app. cbn. by rewrite !app_nil_r.
Qed.

(** The theorem at work: a server that answers 404 to everything. *)
Lemma download_file_404_returns_immediately_witness :
  ∃ s',
    download_file (Demo.env 3 (Demo.always 404))
                  Demo.url Demo.version Demo.arch Demo.filename 0 Demo.fresh
    = Some (false, s')
    ∧ trace s' = trace Demo.fresh ++ [Request GET Demo.url].
Proof.
  destruct (download_file_404_returns_immediately (Demo.env 3 (Demo.always 404))
              Demo.url Demo.version Demo.arch Demo.filename 0 Demo.fresh [] true)
    as (s' & H1 & H2 & _).
  - vm_compute. reflexivity.
  - vm_compute. reflexivity.
  - exists s'. auto.
Defined.

(** C9. With nothing at the destination and a 404 answer, [download_file]
    returns failure and changes neither the stats sink nor the disk: every
    counter keeps its value, and no file or directory is created. *)
Theorem download_file_404_leaves_no_mark
    E url version arch filename s body complete :
  FS.node_at (fs s) (out_path E version arch filename) = None →
  net E (requests s) GET url = Reply 404 body complete →
  ∃ s',
    download_file E url version arch filename 0 s = Some (false, s')
    ∧ gui s' = gui s
    ∧ fs s' = fs s
    ∧ FS.node_at (fs s') (out_path E version arch filename) = None.
Proof.
  intros Hnone Hn. exists (session_request E GET url s).2. split.
  { rewrite download_file_unfold, (download_attempt_404 _ _ _ _ _ _ body complete);
      [done| |done].
    unfold present_nonempty. by rewrite Hnone. }
  cbn. auto.
Qed.

(** The theorem at work on a fresh engine. *)
Lemma download_file_404_leaves_no_mark_witness :
  ∃ s',
    download_file (Demo.env 3 (Demo.always 404))
                  Demo.url Demo.version Demo.arch Demo.filename 0 Demo.fresh
    = Some (false, s')
    ∧ gui s' = gui Demo.fresh
    ∧ fs s' = fs Demo.fresh.
Proof.
  destruct (download_file_404_leaves_no_mark (Demo.env 3 (Demo.always 404))
              Demo.url Demo.version Demo.arch Demo.filename Demo.fresh [] true)
    as (s' & H1 & H2 & H3 & _).
  - vm_compute. reflexivity.
  - vm_compute. reflexivity.
  - exists s'. auto.
Defined.

(** ** Growth: every operation only extends the state *)

#[global] Instance grows_preorder : PreOrder grows.
Proof.
  split.
  - intros s. by repeat split.
  - intros s1 s2 s3 (Hf1 & Hc1 & Ht1) (Hf2 & Hc2 & Ht2).
    repeat split; by etrans.
Qed.

Section Growth.
Context (E : Env).

Lemma grows_log m l s : grows s (log m l s).
Proof. repeat split; [done..|]. by apply prefix_app_r. Qed.

Lemma grows_sleep n s : grows s (sleep n s).
Proof. repeat split; [done..|]. by apply prefix_app_r. Qed.

Lemma grows_with_fs f s : grows s (with_fs f s).
Proof. by repeat split. Qed.

Lemma grows_increment_stat k a s : grows s (increment_stat k a s).
Proof. unfold increment_stat. destruct (gui s); by repeat split. Qed.

Lemma grows_update_stat v s : grows s (update_stat_current_version v s).
Proof. unfold update_stat_current_version. destruct (gui s); by repeat split. Qed.

Lemma grows_add_found X s : grows s (with_found (X ∪ found_versions s) s).
Proof. repeat split; [|done..]. cbn. set_solver. Qed.

Lemma grows_union_found X s : grows s (with_found (found_versions s ∪ X) s).
Proof. repeat split; [|done..]. cbn. set_solver. Qed.

Lemma grows_session_request m url s : grows s (session_request E m url s).2.
Proof. repeat split; [done..|]. by apply prefix_app_r. Qed.

Lemma grows_cache_put v b s :
  version_exists_cache s !! v = None → grows s (cache_put v b s).
Proof. intros Hv. repeat split; [done| |done]. cbn. by apply insert_subseteq. Qed.

Lemma grows_foldl {A} (f : engine → A → engine) l s :
  (∀ s x, grows s (f s x)) → grows s (foldl f s l).
Proof.
  intros Hf. revert s. induction l as [|x l IH]; intros s; cbn; [done|].
  etrans; [apply Hf|apply IH].
Qed.

Lemma grows_check_version_exists v s : grows s (check_version_exists E v s).2.
Proof.
  unfold check_version_exists.
  destruct (version_exists_cache s !! v) as [b|] eqn:Hv; [done|].
  rewrite session_request_spec.
  set (s1 := {| fs := fs s; trace := trace s ++ [Request HEAD _] |}).
  assert (H1 : grows s s1) by apply (grows_session_request HEAD _ s).
  assert (Hv1 : version_exists_cache s1 !! v = None) by done.
  destruct (net E (requests s) HEAD _) as [|status body complete]; cbn [snd].
  { etrans; [done|]. by apply grows_cache_put. }
  destruct (status_exists status); cbn [snd].
  { etrans; [done|]. by apply grows_cache_put. }
  rewrite session_request_spec.
  set (s2 := {| fs := fs s1; trace := trace s1 ++ [Request HEAD _] |}).
  assert (H2 : grows s1 s2) by apply (grows_session_request HEAD _ s1).
  assert (Hv2 : version_exists_cache s2 !! v = None) by done.
  destruct (net E (requests s1) HEAD _) as [|status2 body2 complete2]; cbn [snd];
    (etrans; [done|]); (etrans; [done|]); by apply grows_cache_put.
Qed.

Lemma grows_download_attempt url v a f s :
  grows s (download_attempt E url v a f s).2.
Proof.
  unfold download_attempt.
  destruct (present_nonempty E (fs s) (out_path E v a f)); cbn [snd].
  { etrans; [apply grows_log|apply grows_increment_stat]. }
  rewrite session_request_spec.
  set (s1 := {| fs := fs s; trace := trace s ++ [Request GET url] |}).
  assert (H1 : grows s s1) by apply (grows_session_request GET url s).
  destruct (net E (requests s) GET url) as [|status body complete]; [done|].
  destruct (status =? 404); [done|].
  destruct (raise_for_status status); [done|].
  destruct (FS.mkdir_parents (fs s1) _) as [f1|]; [|done].
  destruct (FS.open_w f1 _) as [f2|]; cbn [snd].
  2:{ etrans; [done|]. apply grows_with_fs. }
  destruct (write_chunks _ body f2) as [f3 downloaded].
  destruct complete; cbn [snd].
  - etrans; [done|]. etrans; [apply (grows_with_fs f3)|].
    etrans; [apply grows_increment_stat|].
    etrans; [apply grows_increment_stat|]. apply grows_log.
  - etrans; [done|]. apply grows_with_fs.
Qed.

Lemma grows_remove_partial p s : grows s (remove_partial p s).
Proof.
  unfold remove_partial. destruct (FS.exists_ (fs s) p); [|done].
  destruct (FS.unlink (fs s) p); [apply grows_with_fs|done].
Qed.

Lemma grows_download_file url v a f retry_count s b s' :
  download_file E url v a f retry_count s = Some (b, s') → grows s s'.
Proof.
  unfold download_file.
  generalize (Z.to_nat (max_retries E - retry_count)) as fuel.
  intros fuel. revert retry_count s.
  induction fuel as [|fuel IH]; intros rc s; cbn;
    pose proof (grows_download_attempt url v a f s) as Ha;
    destruct (download_attempt E url v a f s) as [[r|] s1]; cbn [snd] in Ha.
  - by intros [= <- <-].
  - destruct (rc <? max_retries E); [done|]. intros [= <- <-].
    etrans; [done|]. etrans; [apply grows_log|].
    etrans; [apply grows_increment_stat|]. apply grows_remove_partial.
  - by intros [= <- <-].
  - destruct (rc <? max_retries E).
    + intros Hd. apply IH in Hd. etrans; [done|].
      etrans; [apply grows_log|]. etrans; [apply grows_sleep|]. done.
    + intros [= <- <-].
      etrans; [done|]. etrans; [apply grows_log|].
      etrans; [apply grows_increment_stat|]. apply grows_remove_partial.
Qed.

Lemma grows_process_version v s : grows s (process_version E v s).2.
Proof.
  unfold process_version.
  pose proof (grows_check_version_exists v s) as Hc.
  destruct (check_version_exists E v s) as [b s1]; cbn [snd] in Hc.
  destruct b; cbn [negb snd]; [|done].
  etrans; [done|].
  etrans; [|apply grows_foldl].
  - etrans; [apply grows_log|]. etrans; [apply grows_log|].
    etrans; [apply grows_log|]. etrans; [apply (grows_add_found {[v]})|].
    etrans; [apply grows_increment_stat|]. apply grows_update_stat.
  - intros t [[url a] f].
    destruct (download_file E url v a f 0 t) as [[b t']|] eqn:Hd; [|done].
    by eapply grows_download_file.
Qed.

Lemma grows_load_persisted s : grows s (_load_persisted E s).
Proof.
  unfold _load_persisted. destruct (FS.exists_ _ _); [|done].
  destruct (FS.read _ _); [|done].
  apply grows_foldl. intros t v. apply grows_add_found.
Qed.

Lemma grows_save_found_versions s : grows s (save_found_versions E s).
Proof.
  unfold save_found_versions. destruct (FS.open_w _ _).
  - etrans; [apply grows_with_fs|apply grows_log].
  - apply grows_log.
Qed.

Lemma grows_save_stats s : grows s (save_stats E s).
Proof.
  unfold save_stats.
  destruct (match gui s with Some g => _ | None => _ end) as [counters current].
  destruct (FS.open_w _ _).
  - etrans; [apply grows_with_fs|apply grows_log].
  - apply grows_log.
Qed.

Lemma grows_probe_step existing s v : grows s (probe_step E (existing, s) v).2.
Proof.
  unfold probe_step.
  pose proof (grows_check_version_exists v s) as Hc.
  destruct (check_version_exists E v s) as [b s1]; cbn [snd] in Hc.
  destruct b; cbn [snd].
  - etrans; [done|]. etrans; [apply grows_increment_stat|apply grows_log].
  - etrans; [done|]. apply grows_increment_stat.
Qed.

Lemma grows_probe_all vs s : grows s (probe_all E vs s).2.
Proof.
  unfold probe_all. generalize (probe_order E vs) as l.
  generalize (@nil string) as existing. intros existing l. revert existing s.
  induction l as [|v l IH]; intros existing s; cbn [foldl]; [done|].
  pose proof (grows_probe_step existing s v) as Hs.
  destruct (probe_step E (existing, s) v) as [existing' s1]; cbn [snd] in Hs.
  etrans; [done|apply IH].
Qed.

Lemma grows_download_each total i vs s : grows s (download_each E total i vs s).2.
Proof.
  revert i s. induction vs as [|v vs IH]; intros i s; cbn; [done|].
  destruct (stop_check E s) as [[|]|]; cbn [snd].
  - apply grows_log.
  - etrans; [apply grows_log|]. etrans; [apply grows_process_version|]. apply IH.
  - done.
Qed.

Lemma grows_scan_versions_range_and_download a b w s :
  grows s (scan_versions_range_and_download E a b w s).2.
Proof.
  unfold scan_versions_range_and_download.
  destruct (parse_int E _) as [start_major|]; [|done].
  destruct (parse_minor E _ 0) as [start_minor|]; [|done].
  destruct (parse_int E _) as [end_major|]; [|done].
  destruct (parse_minor E _ 50) as [end_minor|]; [|done].
  set (all := generate_all_version_numbers _ _ _ _).
  destruct (w <=? 0); [apply grows_log|].
  pose proof (grows_probe_all all (log (MsgGenerated (Z.of_nat (length all))) INFO s)) as Hp.
  destruct (probe_all E all _) as [existing s1]; cbn [snd] in *.
  match goal with |- context [download_each E ?n ?i ?l ?t] =>
    pose proof (grows_download_each n i l t) as Hd;
    destruct (download_each E n i l t) as [c s2] end.
  cbn [snd] in Hd.
  assert (Hs2 : grows s s2).
  { etrans; [apply grows_log|]. etrans; [exact Hp|].
    etrans; [apply grows_log|]. etrans; [apply grows_union_found|].
    etrans; [apply grows_save_found_versions|]. exact Hd. }
  destruct c; cbn [snd]; [|done].
  etrans; [exact Hs2|]. apply grows_save_stats.
Qed.

Lemma grows_scan_rss_for_versions s : grows s (scan_rss_for_versions E s).2.
Proof.
  unfold scan_rss_for_versions. rewrite session_request_spec.
  set (s1 := {| fs := fs s; trace := trace s ++ [Request GET RSS_URL] |}).
  assert (H1 : grows s s1) by apply (grows_session_request GET RSS_URL s).
  destruct (net E (requests s) GET RSS_URL) as [|status body [|]]; cbn [snd].
  - etrans; [done|apply grows_log].
  - etrans; [done|]. apply grows_foldl. intros t v. apply grows_log.
  - etrans; [done|apply grows_log].
Qed.

Lemma grows_scan_version v s : grows s (scan_version E v s).
Proof.
  unfold scan_version.
  etrans; [apply grows_log|]. etrans; [apply grows_process_version|].
  etrans; [apply grows_save_found_versions|].
  etrans; [apply grows_save_stats|]. apply grows_log.
Qed.

Lemma grows_check_rss s : grows s (check_rss E s).
Proof.
  unfold check_rss.
  pose proof (grows_scan_rss_for_versions (log (MsgOther "Checking RSS for new versions...") INFO s)) as Hr.
  destruct (scan_rss_for_versions E _) as [new s1]; cbn [snd] in Hr.
  etrans; [apply grows_log|]. etrans; [done|].
  destruct new as [|v new]; [apply grows_log|].
  etrans; [apply grows_log|].
  etrans;
    [apply (grows_foldl
              (λ t w, (process_version E w
                         (log (MsgOther "Downloading version") INFO t)).2)
              (v :: new));
     intros t w; etrans; [apply grows_log|apply grows_process_version]|].
  etrans; [apply grows_save_found_versions|].
  etrans; [apply grows_save_stats|]. apply grows_log.
Qed.

Lemma grows_exec o s : grows s (exec E o s).
Proof.
  destruct o; cbn.
  - apply grows_load_persisted.
  - apply grows_check_version_exists.
  - destruct (download_file _ _ _ _ _ _ _) as [[b s']|] eqn:Hd; [|done].
    by eapply grows_download_file.
  - apply grows_process_version.
  - apply grows_save_found_versions.
  - apply grows_save_stats.
  - apply grows_scan_versions_range_and_download.
  - apply grows_scan_rss_for_versions.
  - apply grows_scan_version.
  - apply grows_check_rss.
Qed.

Lemma grows_run ops s : grows s (run E ops s).
Proof. apply grows_foldl. intros t o. apply grows_exec. Qed.

Lemma run_app ops1 ops2 s : run E (ops1 ++ ops2) s = run E ops2 (run E ops1 s).
Proof. apply foldl_app. Qed.
End Growth.

(** ** Existence Probe and [process_version]: properties *)

(** A probe touches neither the disk, nor the stats, nor the found set. *)
Lemma check_version_exists_frame E v s :
  fs (check_version_exists E v s).2 = fs s
  ∧ gui (check_version_exists E v s).2 = gui s
  ∧ found_versions (check_version_exists E v s).2 = found_versions s.
Proof.
  unfold check_version_exists.
  destruct (version_exists_cache s !! v); [done|].
  rewrite session_request_spec.
  destruct (net E (requests s) HEAD _) as [|status body complete]; [done|].
  destruct (status_exists status); [done|].
  rewrite session_request_spec. cbn [requests].
  by destruct (net E (S (requests s)) HEAD _).
Qed.

(** A cached version is answered from the cache and the state stays as it
    is. *)
Lemma check_version_exists_cached E v s b :
  version_exists_cache s !! v = Some b → check_version_exists E v s = (b, s).
Proof. intros H. unfold check_version_exists. by rewrite H. Qed.

(** C5. On a version that is not cached yet, the probe answers "exists"
    exactly when the HEAD request for the version's directory is answered
    with 200, 301, 302 or 403, or it is answered with another status and
    the HEAD request for the CHANGELOG inside it is answered with 200; a
    transport error on either request gives "does not exist". The answer is
    stored in the cache, and after any further operations of the run a
    probe of the same version returns it and leaves the state, hence the
    list of requests, as it is. *)
Theorem check_version_exists_correct E version s :
  version_exists_cache s !! version = None →
  ∃ b s',
    check_version_exists E version s = (b, s')
    ∧ (b = true ↔
       match net E (requests s) HEAD (BASE_CDN_URL +:+ "/" +:+ version +:+ "/") with
       | TransportError => False
       | Reply status _ _ =>
           (status ∈ [200; 301; 302; 403])
           ∨ ((status ∉ [200; 301; 302; 403])
              ∧ match net E (S (requests s)) HEAD
                        (BASE_CDN_URL +:+ "/" +:+ version +:+ "/CHANGELOG") with
                | TransportError => False
                | Reply status2 _ _ => status2 = 200
                end)
       end)
    ∧ version_exists_cache s' !! version = Some b
    ∧ ∀ ops, check_version_exists E version (run E ops s') = (b, run E ops s').
Proof.
  intros Hmiss.
  assert (Hlater : ∀ b s', version_exists_cache s' !! version = Some b →
            ∀ ops, check_version_exists E version (run E ops s') = (b, run E ops s')).
  { intros b s' Hb ops. apply check_version_exists_cached.
    destruct (grows_run E ops s') as (_ & Hc & _).
    by eapply lookup_weaken. }
  unfold check_version_exists. rewrite Hmiss, session_request_spec.
  destruct (net E (requests s) HEAD _) as [|status body complete].
  { eexists _, _. split; [done|]. split; [done|].
    assert (Hb : version_exists_cache
                   (cache_put version false
                      {| fs := fs s; version_exists_cache := version_exists_cache s;
                         found_versions := found_versions s; gui := gui s;
                         trace := trace s ++ [Request HEAD
                                    (BASE_CDN_URL +:+ "/" +:+ version +:+ "/")];
                         requests := S (requests s) |}) !! version = Some false)
      by apply lookup_insert_eq.
    split; [done|]. by apply Hlater. }
  unfold status_exists. case_bool_decide as Hst.
  { eexists _, _. split; [done|]. split; [by split; [left|]|].
    match goal with |- ?t !! _ = _ ∧ _ =>
      assert (Hb : t !! version = Some true) by apply lookup_insert_eq end.
    split; [done|]. by apply Hlater. }
  rewrite session_request_spec. cbn [requests].
  destruct (net E (S (requests s)) HEAD _) as [|status2 body2 complete2].
  { eexists _, _. split; [done|]. split.
    { split; [done|]. by intros [?|[_ []]]. }
    match goal with |- ?t !! _ = _ ∧ _ =>
      assert (Hb : t !! version = Some false) by apply lookup_insert_eq end.
    split; [done|]. by apply Hlater. }
  eexists _, _. split; [done|]. split.
  { rewrite Z.eqb_eq. split; [by right|]. by intros [?|[_ ?]]. }
  match goal with |- ?t !! _ = _ ∧ _ =>
    assert (Hb : t !! version = Some (status2 =? 200)) by apply lookup_insert_eq end.
  split; [done|]. by apply Hlater.
Qed.

(** The theorem at work: neither the directory nor the CHANGELOG of 99.99
    is there. *)
Lemma check_version_exists_correct_witness :
  ∃ s',
    check_version_exists (Demo.env 3 (Demo.always 404)) "99.99" Demo.fresh = (false, s')
    ∧ version_exists_cache s' !! "99.99"%string = Some false
    ∧ check_version_exists (Demo.env 3 (Demo.always 404)) "99.99" s' = (false, s').
Proof.
  destruct (check_version_exists_correct (Demo.env 3 (Demo.always 404)) "99.99" Demo.fresh)
    as (b & s' & H1 & H2 & H3 & H4).
  - vm_compute. reflexivity.
  - assert (b = false) as ->.
    { destruct b; [|done]. exfalso. apply proj1 in H2. specialize (H2 eq_refl).
      vm_compute in H2. destruct H2 as [H2|[_ H2]]; [|discriminate].
      repeat (apply elem_of_cons in H2 as [H2|H2]; [discriminate|]).
      by apply elem_of_nil in H2. }
    exists s'. split; [done|]. split; [done|]. apply (H4 []).
Defined.

(** C7. No engine operation removes a found version: each of loading the
    persisted record, probing, downloading, [process_version], the two
    save operations, the range scan, the RSS scan and the controller's two
    cycles leaves [found_versions] a superset of what it was; hence in a
    run the set after any prefix of the operations is included in the set
    after any longer prefix. *)
Theorem found_versions_monotone E :
  (∀ o s, found_versions s ⊆ found_versions (exec E o s))
  ∧ (∀ ops1 ops2 s,
       found_versions (run E ops1 s) ⊆ found_versions (run E (ops1 ++ ops2) s)).
Proof.
  split.
  - intros o s. apply (grows_exec E o s).
  - intros ops1 ops2 s. rewrite run_app. apply (grows_run E ops2).
Qed.

(** A probe logs nothing. *)
Lemma check_version_exists_silent E v s lvl :
  logged lvl (trace (check_version_exists E v s).2) = logged lvl (trace s).
Proof.
  unfold check_version_exists.
  destruct (version_exists_cache s !! v); [done|].
  rewrite session_request_spec.
  assert (Hone : ∀ t url, logged lvl (t ++ [Request HEAD url]) = logged lvl t).
  { intros t url. unfold logged. rewrite omap_app. cbn. by rewrite app_nil_r. }
  destruct (net E (requests s) HEAD _) as [|status body complete]; cbn [snd].
  { rewrite trace_cache_put. apply Hone. }
  destruct (status_exists status); cbn [snd].
  { rewrite trace_cache_put. apply Hone. }
  rewrite session_request_spec. cbn [requests trace].
  destruct (net E (S (requests s)) HEAD _); cbn [snd];
    rewrite trace_cache_put; cbn [trace]; by rewrite !Hone.
Qed.

(** C10. When the probe of a version answers "does not exist",
    [process_version] returns 0 in the state the probe left: the found set,
    the stats sink and the disk are what they were, and no line was
    logged. *)
Theorem process_version_absent E version s :
  (check_version_exists E version s).1 = false →
  ∃ s',
    process_version E version s = (0, s')
    ∧ s' = (check_version_exists E version s).2
    ∧ found_versions s' = found_versions s
    ∧ gui s' = gui s
    ∧ fs s' = fs s
    ∧ ∀ lvl, logged lvl (trace s') = logged lvl (trace s).
Proof.
  intros Hprobe. unfold process_version.
  destruct (check_version_exists_frame E version s) as (Hfs & Hgui & Hfound).
  pose proof (check_version_exists_silent E version s) as Hlog.
  destruct (check_version_exists E version s) as [b s1]; cbn [fst snd] in *.
  subst b. by exists s1.
Qed.

(** The theorem at work: 99.99 on a server that answers 404. *)
Lemma process_version_absent_witness :
  ∃ s',
    process_version (Demo.env 3 (Demo.always 404)) "99.99" Demo.fresh = (0, s')
    ∧ found_versions s' = found_versions Demo.fresh
    ∧ gui s' = gui Demo.fresh
    ∧ fs s' = fs Demo.fresh.
Proof.
  destruct (process_version_absent (Demo.env 3 (Demo.always 404)) "99.99" Demo.fresh)
    as (s' & H1 & _ & H2 & H3 & H4 & _).
  - vm_compute. reflexivity.
  - by exists s'.
Defined.

(** ** Version Space Generator: properties *)

(** A loop that appends [h x] for each [x] builds the concatenation. *)
Lemma foldl_append_bind {A B} (f : list A → B → list A) (h : B → list A) l acc :
  (∀ acc x, f acc x = acc ++ h x) → foldl f acc l = acc ++ (l ≫= h).
Proof.
  intros Hf. revert acc. induction l as [|x l IH]; intros acc; cbn.
  - by rewrite app_nil_r.
  - by rewrite IH, Hf, <-app_assoc.
Qed.

Lemma range_closed lo hi : range lo (hi + 1) = Spec.closed lo hi.
Proof. unfold range, Spec.closed. f_equal. lia. Qed.

Lemma fmap_as_bind {A B} (f : A → B) (l : list A) : f <$> l = l ≫= λ x, [f x].
Proof. induction l as [|x l IH]; [done|]. cbn. by rewrite IH. Qed.

(** Appending strings. *)
Lemma str_app_nil_l (b : string) : "" +:+ b = b.
Proof. reflexivity. Qed.

Lemma str_app_cons c (a b : string) : String c a +:+ b = String c (a +:+ b).
Proof. reflexivity. Qed.

Lemma str_app_nil_r (a : string) : a +:+ "" = a.
Proof.
  induction a as [|c a IH]; [done|]. by rewrite str_app_cons, IH.
Qed.

Lemma str_app_assoc (a b c : string) : (a +:+ b) +:+ c = a +:+ b +:+ c.
Proof.
  induction a as [|ch a IH]; [done|]. by rewrite !str_app_cons, IH.
Qed.

(** The body of the [patch] loop appends the rendering of one patch
    block. *)
Lemma patch_loop_renders mn p versions :
  let base := pretty mn.1 +:+ "." +:+ pretty mn.2 in
  foldl (λ versions beta,
           versions ++ [base +:+ "." +:+ pretty p +:+ "beta" +:+ pretty beta])
    (foldl (λ versions rc,
              versions ++ [base +:+ "." +:+ pretty p +:+ "rc" +:+ pretty rc])
       (versions ++ [base +:+ "." +:+ pretty p]) (range 1 6))
    (range 1 6)
  = versions ++ (Spec.render <$> Spec.patch_block mn p).
Proof.
  intros base.
  rewrite (foldl_append_bind _ (λ beta, [base +:+ "." +:+ pretty p +:+ "beta" +:+ pretty beta]))
    by done.
  rewrite (foldl_append_bind _ (λ rc, [base +:+ "." +:+ pretty p +:+ "rc" +:+ pretty rc]))
    by done.
  rewrite <-!app_assoc. f_equal.
  unfold Spec.patch_block. rewrite fmap_cons, fmap_app, <-!list_fmap_compose.
  rewrite <-!fmap_as_bind. cbn [app].
  f_equal; [|f_equal].
  - unfold Spec.render, Spec.patched, base. cbn [Spec.major Spec.minor Spec.patch Spec.tag].
    by rewrite !str_app_assoc, str_app_nil_r.
  - apply list_fmap_ext. intros _ i _.
    unfold Spec.render, Spec.tagged, base, compose.
    cbn [Spec.major Spec.minor Spec.patch Spec.tag Spec.render_tag].
    by rewrite !str_app_assoc.
  - apply list_fmap_ext. intros _ i _.
    unfold Spec.render, Spec.tagged, base, compose.
    cbn [Spec.major Spec.minor Spec.patch Spec.tag Spec.render_tag].
    by rewrite !str_app_assoc.
Qed.

(** The body of the [minor] loop appends the rendering of one block. *)
Lemma minor_loop_renders mn versions :
  let base := pretty mn.1 +:+ "." +:+ pretty mn.2 in
  foldl (λ versions patch,
           foldl (λ versions beta,
                    versions ++ [base +:+ "." +:+ pretty patch +:+ "beta" +:+ pretty beta])
             (foldl (λ versions rc,
                       versions ++ [base +:+ "." +:+ pretty patch +:+ "rc" +:+ pretty rc])
                (versions ++ [base +:+ "." +:+ pretty patch]) (range 1 6))
             (range 1 6))
    (versions ++ [base]) (range 1 21)
  = versions ++ (Spec.render <$> Spec.block mn).
Proof.
  intros base.
  rewrite (foldl_append_bind _ (λ p, Spec.render <$> Spec.patch_block mn p)).
  2:{ intros acc p. apply (patch_loop_renders mn p acc). }
  rewrite <-app_assoc. f_equal.
  unfold Spec.block. rewrite fmap_cons. cbn [app]. f_equal.
  unfold Spec.render, Spec.base, base. cbn [Spec.major Spec.minor Spec.patch Spec.tag].
  by rewrite str_app_nil_r.
Qed.

(** The generator emits the rendering of the candidates of the
    specification, in the same order. *)
Lemma generate_renders_candidates start_major start_minor end_major end_minor :
  generate_all_version_numbers start_major start_minor end_major end_minor
  = Spec.render <$> Spec.candidates start_major start_minor end_major end_minor.
Proof.
  unfold generate_all_version_numbers, Spec.candidates, Spec.pairs.
  rewrite (foldl_append_bind _
             (λ m, Spec.render <$>
                     (((λ n, (m, n)) <$> Spec.minors start_major start_minor
                                           end_major end_minor m) ≫= Spec.block))).
  - rewrite range_closed. cbn [app].
    generalize (Spec.closed start_major end_major) as majors. intros majors.
    induction majors as [|m majors IH]; [done|].
    rewrite !bind_cons, bind_app, fmap_app. by f_equal.
  - intros acc m.
    rewrite (foldl_append_bind _ (λ n, Spec.render <$> Spec.block (m, n))).
    2:{ intros acc' n. apply (minor_loop_renders (m, n) acc'). }
    f_equal. rewrite range_closed. unfold Spec.minors.
    replace (if m =? start_major then start_minor else 0)
      with (if decide (m = start_major) then start_minor else 0)
      by (destruct (Z.eqb_spec m start_major); by case_decide).
    replace (if m =? end_major then end_minor else 99)
      with (if decide (m = end_major) then end_minor else 99)
      by (destruct (Z.eqb_spec m end_major); by case_decide).
    generalize (Spec.closed (if decide (m = start_major) then start_minor else 0)
                  (if decide (m = end_major) then end_minor else 99)) as l.
    intros l. induction l as [|n l IH]; [done|].
    rewrite fmap_cons, !bind_cons, fmap_app. by f_equal.
Qed.

(** *** Counting *)

Lemma length_bind_const {A B} (f : A → list B) (n : nat) (l : list A) :
  (∀ x, x ∈ l → length (f x) = n) → length (l ≫= f) = (length l * n)%nat.
Proof.
  induction l as [|x l IH]; intros Hf; [done|].
  rewrite bind_cons, length_app, Hf, IH; [cbn; lia| |left].
  intros y Hy. apply Hf. by right.
Qed.

Lemma length_block mn : length (Spec.block mn) = 221%nat.
Proof. reflexivity. Qed.

Lemma length_closed lo hi : Z.of_nat (length (Spec.closed lo hi)) = Z.max 0 (hi - lo + 1).
Proof. unfold Spec.closed. rewrite length_seqZ. lia. Qed.

Lemma length_minor_pairs start_major start_minor end_major end_minor m :
  Z.of_nat (length ((λ n, (m, n)) <$> Spec.minors start_major start_minor end_major end_minor m))
  = Z.max 0 ((if decide (m = end_major) then end_minor else 99)
             - (if decide (m = start_major) then start_minor else 0) + 1).
Proof. rewrite length_fmap. apply length_closed. Qed.

Lemma seqZ_singleton m : seqZ m 1 = [m].
Proof. rewrite seqZ_cons by lia. by rewrite seqZ_nil by lia. Qed.

(** The number of pairs is the closed form of the specification. *)
Lemma length_pairs start_major start_minor end_major end_minor :
  start_major ≤ end_major →
  Z.of_nat (length (Spec.pairs start_major start_minor end_major end_minor))
  = Spec.pair_count start_major start_minor end_major end_minor.
Proof.
  intros Hle. unfold Spec.pairs, Spec.pair_count.
  destruct (decide (start_major = end_major)) as [<-|Hne].
  - unfold Spec.closed at 1.
    replace (start_major - start_major + 1) with 1 by lia.
    rewrite seqZ_singleton.
    rewrite bind_singleton, length_minor_pairs.
    rewrite !decide_True by done. lia.
  - unfold Spec.closed at 1.
    replace (end_major - start_major + 1)
      with (1 + ((end_major - start_major - 1) + 1)) by lia.
    rewrite seqZ_app, seqZ_app by lia.
    rewrite !seqZ_singleton.
    rewrite !bind_app, !bind_singleton, !length_app, !Nat2Z.inj_add.
    rewrite !length_minor_pairs.
    rewrite (length_bind_const _ 100).
    + rewrite length_seqZ.
      rewrite (decide_True (P := start_major = start_major)) by done.
      rewrite (decide_False (P := start_major = end_major)) by done.
      rewrite (decide_False (P := start_major + 1 + (end_major - start_major - 1) = start_major)) by lia.
      rewrite (decide_True (P := start_major + 1 + (end_major - start_major - 1) = end_major)) by lia.
      lia.
    + intros m Hm. apply elem_of_seqZ in Hm.
      apply Nat2Z.inj. rewrite length_minor_pairs.
      rewrite !decide_False by lia. done.
Qed.

Lemma length_candidates start_major start_minor end_major end_minor :
  start_major ≤ end_major →
  Z.of_nat (length (Spec.candidates start_major start_minor end_major end_minor))
  = 221 * Spec.pair_count start_major start_minor end_major end_minor.
Proof.
  intros Hle. unfold Spec.candidates.
  rewrite (length_bind_const _ 221) by (intros; apply length_block).
  rewrite Nat2Z.inj_mul, length_pairs by done. lia.
Qed.

(** *** Rendering is injective *)

Lemma pretty_N_char_numeric n : numeric_char (pretty_N_char n) = true.
Proof. unfold pretty_N_char. by repeat case_match. Qed.

Lemma pretty_N_go_numeric x s :
  str_all numeric_char s = true → str_all numeric_char (pretty_N_go x s) = true.
Proof.
  revert s. induction (N.lt_wf_0 x) as [x _ IH]; intros s Hs.
  destruct (decide (x = 0)%N) as [->|Hx]; [by rewrite pretty_N_go_0|].
  rewrite pretty_N_go_step by lia. apply IH.
  - apply N.div_lt; lia.
  - cbn. by rewrite pretty_N_char_numeric.
Qed.

Lemma pretty_N_numeric (x : N) : str_all numeric_char (pretty x) = true.
Proof.
  unfold pretty, pretty_N. case_decide; [done|]. by apply pretty_N_go_numeric.
Qed.

Lemma pretty_Z_numeric (x : Z) : str_all numeric_char (pretty x) = true.
Proof.
  destruct x as [|p|p]; [done|apply pretty_N_numeric|].
  change (pretty (Z.neg p)) with ("-" +:+ pretty (N.pos p)).
  rewrite str_app_cons, str_app_nil_l. cbn. apply pretty_N_numeric.
Qed.

(** A number followed by something that cannot continue it splits in one
    way only. *)
Lemma number_split_unique (a b x y : string) :
  str_all numeric_char a = true → str_all numeric_char b = true →
  ends_number x = true → ends_number y = true →
  a +:+ x = b +:+ y → a = b ∧ x = y.
Proof.
  revert b. induction a as [|c a IH]; intros [|d b] Ha Hb Hx Hy Heq.
  - done.
  - rewrite str_app_nil_l, str_app_cons in Heq. subst x. cbn in Hx, Hb.
    apply andb_prop in Hb as [Hd _]. by rewrite Hd in Hx.
  - rewrite str_app_nil_l, str_app_cons in Heq. subst y. cbn in Hy, Ha.
    apply andb_prop in Ha as [Hc _]. by rewrite Hc in Hy.
  - rewrite !str_app_cons in Heq. injection Heq as -> Heq.
    cbn in Ha, Hb. apply andb_prop in Ha as [_ Ha]. apply andb_prop in Hb as [_ Hb].
    destruct (IH b Ha Hb Hx Hy Heq) as [-> ->]. done.
Qed.

Lemma pretty_split_unique (m n : Z) (x y : string) :
  ends_number x = true → ends_number y = true →
  pretty m +:+ x = pretty n +:+ y → m = n ∧ x = y.
Proof.
  intros Hx Hy Heq.
  destruct (number_split_unique _ _ _ _ (pretty_Z_numeric m) (pretty_Z_numeric n) Hx Hy Heq)
    as [Hmn ->].
  split; [|done]. by apply (inj pretty).
Qed.

Lemma render_tag_inj t1 t2 : Spec.render_tag t1 = Spec.render_tag t2 → t1 = t2.
Proof.
  destruct t1 as [i|i], t2 as [j|j]; unfold Spec.render_tag;
    rewrite ?str_app_cons, ?str_app_nil_l; intros Heq; try discriminate.
  - injection Heq as Heq. f_equal. by apply (inj pretty).
  - injection Heq as Heq. f_equal. by apply (inj pretty).
Qed.

Lemma render_inj v1 v2 :
  Spec.tag_needs_patch v1 → Spec.tag_needs_patch v2 →
  Spec.render v1 = Spec.render v2 → v1 = v2.
Proof.
  destruct v1 as [M1 m1 p1 t1], v2 as [M2 m2 p2 t2].
  unfold Spec.tag_needs_patch, Spec.render. cbn. intros H1 H2 Heq.
  apply pretty_split_unique in Heq as [-> Heq]; [|done..].
  rewrite !str_app_cons, !str_app_nil_l in Heq. injection Heq as Heq.
  apply pretty_split_unique in Heq as [-> Heq];
    [|by destruct p1|by destruct p2].
  destruct p1 as [p1|], p2 as [p2|]; try discriminate.
  - rewrite !str_app_cons, !str_app_nil_l in Heq. injection Heq as Heq.
    apply pretty_split_unique in Heq as [-> Heq];
      [|by destruct t1 as [[]|]|by destruct t2 as [[]|]].
    destruct t1 as [t1|], t2 as [t2|].
    + by rewrite (render_tag_inj t1 t2 Heq).
    + by destruct t1.
    + by destruct t2.
    + done.
  - by rewrite H1, H2.
Qed.

(** *** No candidate is emitted twice *)

Lemma block_with_shape mn : Spec.block mn = Spec.with_shape mn <$> Spec.shapes.
Proof. reflexivity. Qed.

Lemma NoDup_shapes : NoDup Spec.shapes.
Proof. compute_done. Qed.

Lemma block_pair_of mn v : v ∈ Spec.block mn → Spec.pair_of v = mn.
Proof.
  rewrite block_with_shape. intros (sh & -> & _)%list_elem_of_fmap.
  by destruct mn.
Qed.

Lemma block_tag_needs_patch mn v : v ∈ Spec.block mn → Spec.tag_needs_patch v.
Proof.
  rewrite block_with_shape. intros (sh & -> & Hsh)%list_elem_of_fmap.
  unfold Spec.tag_needs_patch, Spec.with_shape. cbn.
  revert sh Hsh.
  apply (Forall_forall (λ sh : option Z * option Spec.prerelease,
                          sh.1 = None → sh.2 = None) Spec.shapes).
  compute_done.
Qed.

Lemma NoDup_block mn : NoDup (Spec.block mn).
Proof.
  rewrite block_with_shape. apply NoDup_fmap_2_strong; [|apply NoDup_shapes].
  intros [p1 t1] [p2 t2] _ _ Heq. by injection Heq as -> ->.
Qed.

Lemma elem_of_closed lo hi k : k ∈ Spec.closed lo hi ↔ lo ≤ k ≤ hi.
Proof. unfold Spec.closed. rewrite elem_of_seqZ. lia. Qed.

(** The pairs are those of the range. *)
Lemma elem_of_pairs start_major start_minor end_major end_minor M m :
  (M, m) ∈ Spec.pairs start_major start_minor end_major end_minor
  ↔ start_major ≤ M ≤ end_major
    ∧ (if decide (M = start_major) then start_minor else 0) ≤ m
    ∧ m ≤ (if decide (M = end_major) then end_minor else 99).
Proof.
  unfold Spec.pairs, Spec.minors. rewrite list_elem_of_bind. split.
  - intros (M' & (m' & [= -> ->] & Hm)%list_elem_of_fmap & HM).
    apply elem_of_closed in Hm, HM. lia.
  - intros (HM & Hlo & Hhi). exists M. split.
    + apply list_elem_of_fmap. exists m. split; [done|]. apply elem_of_closed. lia.
    + by apply elem_of_closed.
Qed.

Lemma NoDup_pairs start_major start_minor end_major end_minor :
  NoDup (Spec.pairs start_major start_minor end_major end_minor).
Proof.
  unfold Spec.pairs. apply NoDup_bind.
  - intros M1 M2 [M m] _ _ (m1 & [= -> ->] & _)%list_elem_of_fmap
      (m2 & [= -> _] & _)%list_elem_of_fmap. done.
  - intros M _. apply NoDup_fmap_2_strong; [|apply NoDup_seqZ].
    by intros m1 m2 _ _ [= ->].
  - apply NoDup_seqZ.
Qed.

Lemma NoDup_candidates start_major start_minor end_major end_minor :
  NoDup (Spec.candidates start_major start_minor end_major end_minor).
Proof.
  unfold Spec.candidates. apply NoDup_bind.
  - intros mn1 mn2 v _ _ H1 H2.
    by rewrite <-(block_pair_of mn1 v H1), <-(block_pair_of mn2 v H2).
  - intros mn _. apply NoDup_block.
  - apply NoDup_pairs.
Qed.

Lemma candidates_tag_needs_patch start_major start_minor end_major end_minor v :
  v ∈ Spec.candidates start_major start_minor end_major end_minor →
  Spec.tag_needs_patch v.
Proof.
  unfold Spec.candidates. intros (mn & Hv & _)%list_elem_of_bind.
  by eapply block_tag_needs_patch.
Qed.

Lemma NoDup_generate start_major start_minor end_major end_minor :
  NoDup (generate_all_version_numbers start_major start_minor end_major end_minor).
Proof.
  rewrite generate_renders_candidates.
  apply NoDup_fmap_2_strong; [|apply NoDup_candidates].
  intros v1 v2 H1 H2. apply render_inj; by eapply candidates_tag_needs_patch.
Qed.

(** *** Entries per pair *)

Section Filter.
Context {A : Type} (P Q : A → Prop).
Context `{!∀ x, Decision (P x)} `{!∀ x, Decision (Q x)}.

Lemma filter_none (l : list A) : (∀ x, x ∈ l → ¬ P x) → filter P l = [].
Proof.
  induction l as [|x l IH]; intros Hl; [done|].
  rewrite filter_cons_False by (apply Hl; left).
  apply IH. intros y Hy. apply Hl. by right.
Qed.

Lemma filter_iff_in (l : list A) :
  (∀ x, x ∈ l → P x ↔ Q x) → filter P l = filter Q l.
Proof.
  induction l as [|x l IH]; intros Hl; [done|].
  assert (Htl : filter P l = filter Q l).
  { apply IH. intros y Hy. apply Hl. by right. }
  destruct (decide (P x)) as [HP|HP].
  - rewrite filter_cons_True, (filter_cons_True Q) by (by apply Hl; [left|]) || done.
    by rewrite Htl.
  - rewrite filter_cons_False, (filter_cons_False Q); [done| |done].
    intros HQ. apply HP. apply Hl; [left|done].
Qed.
End Filter.

Section PerPair.
Context (Q : Spec.VersionId → Prop) `{!∀ v, Decision (Q v)}.
Context (mn : Z * Z).
Context `{!∀ v, Decision (Spec.pair_of v = mn ∧ Q v)}.

(** Among the blocks of distinct pairs, the entries of the pair [mn] are
    those of its own block. *)
Lemma filter_pair_blocks (l : list (Z * Z)) :
  NoDup l → mn ∈ l →
  filter (λ v, Spec.pair_of v = mn ∧ Q v) (l ≫= Spec.block) = filter Q (Spec.block mn).
Proof.
  assert (Hother : ∀ l', mn ∉ l' →
            filter (λ v, Spec.pair_of v = mn ∧ Q v) (l' ≫= Spec.block) = []).
  { intros l' Hl'. apply filter_none.
    intros v (x & Hv & Hx)%list_elem_of_bind [Hp _].
    apply block_pair_of in Hv. congruence. }
  induction 1 as [|x l Hx Hnd IH]; intros Hin; [by apply elem_of_nil in Hin|].
  rewrite bind_cons, filter_app.
  destruct (decide (x = mn)) as [->|Hne].
  - rewrite (Hother l Hx), app_nil_r.
    apply filter_iff_in. intros v Hv. apply block_pair_of in Hv. tauto.
  - apply elem_of_cons in Hin as [?|Hin]; [congruence|].
    rewrite IH by done.
    rewrite filter_none; [done|].
    intros v Hv [Hp _]. apply block_pair_of in Hv. congruence.
Qed.
End PerPair.

Lemma count_candidates start_major start_minor end_major end_minor mn k :
  mn ∈ Spec.pairs start_major start_minor end_major end_minor →
  Spec.count mn k (Spec.candidates start_major start_minor end_major end_minor)
  = length (filter (λ v, Spec.kind_of v = k) (Spec.block mn)).
Proof.
  intros Hmn. unfold Spec.count, Spec.candidates.
  by rewrite (filter_pair_blocks (λ v, Spec.kind_of v = k) mn) by (apply NoDup_pairs || done).
Qed.

Lemma count_of_patch_candidates start_major start_minor end_major end_minor mn p k :
  mn ∈ Spec.pairs start_major start_minor end_major end_minor →
  Spec.count_of_patch mn p k (Spec.candidates start_major start_minor end_major end_minor)
  = length (filter (λ v, Spec.patch v = Some p ∧ Spec.kind_of v = k) (Spec.block mn)).
Proof.
  intros Hmn. unfold Spec.count_of_patch, Spec.candidates.
  by rewrite (filter_pair_blocks (λ v, Spec.patch v = Some p ∧ Spec.kind_of v = k) mn)
    by (apply NoDup_pairs || done).
Qed.

(** In one block every patch from 1 to 20 has one plain entry, five [rc]
    and five [beta] variants. *)
Lemma block_patch_counts mn p :
  1 ≤ p ≤ 20 →
  length (filter (λ v, Spec.patch v = Some p ∧ Spec.kind_of v = Spec.Patch) (Spec.block mn)) = 1%nat
  ∧ length (filter (λ v, Spec.patch v = Some p ∧ Spec.kind_of v = Spec.RcVariant) (Spec.block mn)) = 5%nat
  ∧ length (filter (λ v, Spec.patch v = Some p ∧ Spec.kind_of v = Spec.BetaVariant) (Spec.block mn)) = 5%nat.
Proof.
  intros Hp.
  assert (Hin : p ∈ seqZ 1 20) by (apply elem_of_seqZ; lia).
  clear Hp. revert p Hin.
  apply (Forall_forall
           (λ p, length (filter (λ v, Spec.patch v = Some p ∧ Spec.kind_of v = Spec.Patch)
                           (Spec.block mn)) = 1%nat
                 ∧ length (filter (λ v, Spec.patch v = Some p ∧ Spec.kind_of v = Spec.RcVariant)
                             (Spec.block mn)) = 5%nat
                 ∧ length (filter (λ v, Spec.patch v = Some p ∧ Spec.kind_of v = Spec.BetaVariant)
                             (Spec.block mn)) = 5%nat)
           (seqZ 1 20)).
  repeat (rewrite (seqZ_cons _ _) by lia; cbn [Z.succ Z.pred Z.add Z.sub Pos.add Pos.pred_double
                                            Pos.succ Z.pos_sub Z.opp Z.pred_double Z.succ_double Z.double]).
  rewrite seqZ_nil by lia.
  repeat (apply Forall_cons; split; [by vm_compute|]). apply Forall_nil_2.
Qed.

(** C3. For [start_major <= end_major] the generator's output is, entry by
    entry, the rendering of the candidates of the specification: for each
    [major.minor] pair of the range, in order, the base, then for the
    patches 1 to 20 the patch followed by its [rc1..rc5] and
    [beta1..beta5]. The pairs are the [(M, m)] with [M] between the two
    majors and [m] between [start_minor] (0 off the start major) and
    [end_minor] (99 off the end major). No string is emitted twice; each
    pair of the range has exactly 1 base entry and 20 patch entries, each
    patch exactly 5 [rc] and 5 [beta] variants; and the length of the output
    is 221 times the number of pairs, a closed expression in the four
    arguments. *)
Theorem generate_all_version_numbers_spec start_major start_minor end_major end_minor :
  start_major ≤ end_major →
  generate_all_version_numbers start_major start_minor end_major end_minor
  = Spec.render <$> Spec.candidates start_major start_minor end_major end_minor
  ∧ NoDup (generate_all_version_numbers start_major start_minor end_major end_minor)
  ∧ (∀ M m,
       (M, m) ∈ Spec.pairs start_major start_minor end_major end_minor
       ↔ start_major ≤ M ≤ end_major
         ∧ (if decide (M = start_major) then start_minor else 0) ≤ m
         ∧ m ≤ (if decide (M = end_major) then end_minor else 99))
  ∧ (∀ mn,
       mn ∈ Spec.pairs start_major start_minor end_major end_minor →
       let all := Spec.candidates start_major start_minor end_major end_minor in
       Spec.count mn Spec.Base all = 1%nat
       ∧ Spec.count mn Spec.Patch all = 20%nat
       ∧ ∀ p, 1 ≤ p ≤ 20 →
              Spec.count_of_patch mn p Spec.Patch all = 1%nat
              ∧ Spec.count_of_patch mn p Spec.RcVariant all = 5%nat
              ∧ Spec.count_of_patch mn p Spec.BetaVariant all = 5%nat)
  ∧ (∀ v, v ∈ Spec.candidates start_major start_minor end_major end_minor →
          Spec.pair_of v ∈ Spec.pairs start_major start_minor end_major end_minor)
  ∧ Z.of_nat (length (generate_all_version_numbers
                        start_major start_minor end_major end_minor))
    = 221 * Spec.pair_count start_major start_minor end_major end_minor.
Proof.
  intros Hle. split_and!.
  - apply generate_renders_candidates.
  - apply NoDup_generate.
  - apply elem_of_pairs.
  - intros mn Hmn all. unfold all. split_and!.
    + by rewrite count_candidates.
    + by rewrite count_candidates.
    + intros p Hp. rewrite !count_of_patch_candidates by done.
      by apply block_patch_counts.
  - unfold Spec.candidates. intros v (mn & Hv & Hmn)%list_elem_of_bind.
    by rewrite (block_pair_of mn v Hv).
  - rewrite generate_renders_candidates, length_fmap. by apply length_candidates.
Qed.

(** The theorem at work on the range 6.98 to 7.1: four pairs, 884
    candidates. *)
Lemma generate_all_version_numbers_spec_witness :
  Z.of_nat (length (generate_all_version_numbers 6 98 7 1)) = 221 * 4
  ∧ NoDup (generate_all_version_numbers 6 98 7 1).
Proof.
  destruct (generate_all_version_numbers_spec 6 98 7 1) as (_ & Hnd & _ & _ & _ & Hlen).
  - lia.
  - split; [exact Hlen|exact Hnd].
Defined.

(** ** The version pattern: what the matcher accepts *)

Lemma str_length_app (a b : string) :
  String.length (a +:+ b) = (String.length a + String.length b)%nat.
Proof. induction a as [|c a IH]; [done|]. rewrite str_app_cons. cbn. by rewrite IH. Qed.

Lemma str_take_app (a b : string) : str_take (String.length a) (a +:+ b) = a.
Proof.
  induction a as [|c a IH]; [by destruct b|].
  rewrite str_app_cons. cbn. by rewrite IH.
Qed.

Lemma prefix_drop (l s : string) :
  String.prefix l s = true → s = l +:+ Str.drop (String.length l) s.
Proof.
  revert s. induction l as [|c l IH]; intros s Hp; [done|].
  destruct s as [|d s]; [done|]. cbn in Hp.
  destruct (ascii_dec c d) as [->|]; [|done].
  rewrite str_app_cons. cbn. f_equal. by apply IH.
Qed.

(** A continuation byte is read the same whatever follows it. *)
Lemma continuation_inv (s rest : string) (x : N) :
  Unicode.continuation s = Some (x, rest) →
  ∃ c, s = String c rest
       ∧ ∀ r, Unicode.continuation (String c r) = Some (x, r).
Proof.
  destruct s as [|c s]; [done|]. cbn.
  destruct (_ && _) eqn:Hb; [|done]. intros [= <- <-].
  exists c. split; [done|]. intros r. cbn. by rewrite Hb.
Qed.

(** Decoding takes a non-empty prefix off the text and does not look
    further. *)
Lemma decode_char_inv (s rest : string) (cp : N) :
  Unicode.decode_char s = Some (cp, rest) →
  ∃ d, s = d +:+ rest ∧ d ≠ EmptyString
       ∧ Unicode.decode_char d = Some (cp, EmptyString).
Proof.
  destruct s as [|c s1]; [done|]. cbn [Unicode.decode_char].
  destruct (N_of_ascii c <? 128)%N eqn:H1.
  { intros [= <- <-]. exists (String c ""). cbn. by rewrite H1. }
  destruct (N_of_ascii c <? 192)%N eqn:H2; [done|].
  destruct (Unicode.continuation s1) as [[x1 s2]|] eqn:Hc1;
    [|by repeat destruct (_ <? _)%N].
  apply continuation_inv in Hc1 as (c1 & -> & Hr1).
  cbn [mbind option_bind].
  destruct (N_of_ascii c <? 224)%N eqn:H3.
  { unfold Unicode.shortest. destruct (_ <=? _)%N eqn:Hs; [|done].
    intros [= <- <-].
    exists (String c (String c1 "")). split; [done|]. split; [done|].
    cbn [Unicode.decode_char]. rewrite H1, H2, H3, Hr1. cbn [mbind option_bind].
    unfold Unicode.shortest. by rewrite Hs. }
  destruct (Unicode.continuation s2) as [[x2 s3]|] eqn:Hc2;
    [|by repeat destruct (_ <? _)%N].
  apply continuation_inv in Hc2 as (c2 & -> & Hr2).
  cbn [mbind option_bind].
  destruct (N_of_ascii c <? 240)%N eqn:H4.
  { unfold Unicode.shortest. destruct (_ <=? _)%N eqn:Hs; [|done].
    intros [= <- <-].
    exists (String c (String c1 (String c2 ""))). split; [done|]. split; [done|].
    cbn [Unicode.decode_char]. rewrite H1, H2, H3, H4, Hr1. cbn [mbind option_bind].
    rewrite Hr2. cbn [mbind option_bind].
    unfold Unicode.shortest. by rewrite Hs. }
  destruct (Unicode.continuation s3) as [[x3 s4]|] eqn:Hc3;
    [|by repeat destruct (_ <? _)%N].
  apply continuation_inv in Hc3 as (c3 & -> & Hr3).
  cbn [mbind option_bind].
  destruct (N_of_ascii c <? 248)%N eqn:H5; [|done].
  unfold Unicode.shortest. destruct (_ <=? _)%N eqn:Hs; [|done].
  intros [= <- <-].
  exists (String c (String c1 (String c2 (String c3 "")))).
  split; [done|]. split; [done|].
  cbn [Unicode.decode_char]. rewrite H1, H2, H3, H4, H5, Hr1. cbn [mbind option_bind].
  rewrite Hr2. cbn [mbind option_bind]. rewrite Hr3. cbn [mbind option_bind].
  unfold Unicode.shortest. by rewrite Hs.
Qed.

Lemma digit_inv (s rest : string) :
  Re.digit s = Some rest →
  ∃ d, s = d +:+ rest ∧ d ≠ EmptyString ∧ digit_char d.
Proof.
  unfold Re.digit.
  destruct (Unicode.decode_char s) as [[cp r]|] eqn:Hd; [|done].
  cbn -[Unicode.is_decimal].
  destruct (Unicode.is_decimal cp) eqn:Hcp; [|done]. intros [= ->].
  apply decode_char_inv in Hd as (d & -> & Hne & Hd).
  exists d. split; [done|]. split; [done|]. by exists cp.
Qed.

(** A digit takes at least one byte. *)
Lemma digit_shorter (s rest : string) :
  Re.digit s = Some rest → (String.length rest < String.length s)%nat.
Proof.
  intros (d & -> & Hne & _)%digit_inv. rewrite str_length_app.
  destruct d; [done|]. cbn. lia.
Qed.

(** The bound on the number of digits does not matter once it reaches the
    length of the text. *)
Lemma plus_digit_enough_fuel {A} (n m : nat) (s : string) (k : string → option A) :
  (String.length s ≤ n)%nat → (String.length s ≤ m)%nat →
  Re.plus_digit n s k = Re.plus_digit m s k.
Proof.
  revert m s. induction n as [|n IH]; intros m s Hn Hm.
  - destruct s; [|cbn in Hn; lia]. by destruct m.
  - destruct m as [|m].
    + destruct s; [done|cbn in Hm; lia].
    + cbn. destruct (Re.digit s) as [s'|] eqn:Hd; [|done].
      apply digit_shorter in Hd. rewrite (IH m s') by lia. done.
Qed.

Lemma plus_digit_sound {A} (fuel : nat) (s : string) (k : string → option A) (res : A) :
  Re.plus_digit fuel s k = Some res →
  ∃ w rest, s = w +:+ rest ∧ digits w ∧ k rest = Some res.
Proof.
  revert s res. induction fuel as [|fuel IH]; intros s res; [done|]. cbn.
  destruct (Re.digit s) as [s'|] eqn:Hd; [|done].
  apply digit_inv in Hd as (d & -> & _ & Hd).
  destruct (Re.plus_digit fuel s' k) as [r|] eqn:Hmore.
  - intros [= ->]. destruct (IH s' res Hmore) as (w & rest & -> & Hw & Hk).
    exists (d +:+ w), rest. rewrite str_app_assoc. split; [done|].
    split; [by constructor|done].
  - intros Hk. exists d, s'. split; [done|]. split; [by constructor|done].
Qed.

(** The matcher only accepts what the expression denotes. *)
Lemma exec_sound {A} (r : Re.t) (s : string) (k : string → option A) (res : A) :
  Re.exec r s k = Some res →
  ∃ w rest, s = w +:+ rest ∧ in_lang r w ∧ k rest = Some res.
Proof.
  revert s k res. induction r as [l| |a IHa b IHb|a IHa]; intros s k res; cbn.
  - destruct (String.prefix l s) eqn:Hp; [|done]. intros Hk.
    exists l, (Str.drop (String.length l) s). split; [by apply prefix_drop|].
    split; [constructor|done].
  - intros (w & rest & -> & Hw & Hk)%plus_digit_sound.
    exists w, rest. split; [done|]. split; [by constructor|done].
  - intros (w1 & rest1 & -> & H1 & Hk1)%IHa.
    apply IHb in Hk1 as (w2 & rest2 & -> & H2 & Hk2).
    exists (w1 +:+ w2), rest2. rewrite str_app_assoc. split; [done|].
    split; [by constructor|done].
  - destruct (Re.exec a s k) as [r|] eqn:Ha.
    + intros [= ->]. apply IHa in Ha as (w & rest & -> & H1 & Hk).
      exists w, rest. split; [done|]. split; [by apply in_opt_take|done].
    + intros Hk. exists "", s. split; [done|]. split; [apply in_opt_skip|done].
Qed.

Lemma in_lang_lit (l w : string) : in_lang (Re.Lit l) w → w = l.
Proof. by inversion 1. Qed.

Lemma in_lang_digits_inv (w : string) : in_lang Re.Digits w → digits w.
Proof. by inversion 1. Qed.

Lemma in_lang_seq (a b : Re.t) (w : string) :
  in_lang (Re.Seq a b) w → ∃ w1 w2, w = w1 +:+ w2 ∧ in_lang a w1 ∧ in_lang b w2.
Proof. inversion 1; subst. eauto. Qed.

Lemma in_lang_opt (a : Re.t) (w : string) :
  in_lang (Re.Opt a) w → w = EmptyString ∨ in_lang a w.
Proof. inversion 1; subst; eauto. Qed.

Lemma in_lang_prefix (pre : string) :
  in_lang VERSION_PREFIX pre → pre = "RouterOS "%string ∨ pre = "RouterOS v"%string.
Proof.
  unfold VERSION_PREFIX.
  intros (w1 & w2 & -> & ->%in_lang_lit & [->| ->%in_lang_lit]%in_lang_opt)%in_lang_seq.
  - by left.
  - by right.
Qed.

Lemma in_lang_optional (mark : string) (p : string) :
  in_lang (Re.Opt (Re.Seq (Re.Lit mark) Re.Digits)) p → optional_part mark p.
Proof.
  intros [->|(w1 & w2 & -> & ->%in_lang_lit & Hd%in_lang_digits_inv)%in_lang_seq]%in_lang_opt.
  - by left.
  - right. by exists w2.
Qed.

Lemma in_lang_group (v : string) : in_lang VERSION_GROUP v → version_token v.
Proof.
  unfold VERSION_GROUP.
  intros (major & r1 & -> & Hmajor%in_lang_digits_inv & H1)%in_lang_seq.
  apply in_lang_seq in H1 as (dot & r2 & -> & ->%in_lang_lit & H2).
  apply in_lang_seq in H2 as (minor & r3 & -> & Hminor%in_lang_digits_inv & H3).
  apply in_lang_seq in H3 as (patch & r4 & -> & Hpatch%in_lang_optional & H4).
  apply in_lang_seq in H4 as (rc & beta & -> & Hrc%in_lang_optional & Hbeta%in_lang_optional).
  by exists major, minor, patch, rc, beta.
Qed.

Lemma match_version_sound (s v rest : string) :
  match_version s = Some (v, rest) →
  ∃ pre, s = pre +:+ v +:+ rest
         ∧ (pre = "RouterOS "%string ∨ pre = "RouterOS v"%string)
         ∧ version_token v.
Proof.
  unfold match_version.
  intros (pre & s1 & -> & Hpre & Hk)%exec_sound.
  apply exec_sound in Hk as (w & rest' & -> & Hw & [= <- <-]).
  exists pre. rewrite str_length_app, Nat.add_sub, str_take_app.
  split; [done|]. split; [by apply in_lang_prefix|by apply in_lang_group].
Qed.

Lemma findall_go_sound (skip : nat) (s v : string) :
  v ∈ findall_go skip s →
  ∃ before pre after,
    s = before +:+ pre +:+ v +:+ after
    ∧ (pre = "RouterOS "%string ∨ pre = "RouterOS v"%string)
    ∧ version_token v.
Proof.
  revert skip. induction s as [|c s IH]; intros skip; cbn [findall_go].
  { intros H. by apply elem_of_nil in H. }
  assert (Hshift : ∀ n, v ∈ findall_go n s →
            ∃ before pre after,
              String c s = before +:+ pre +:+ v +:+ after
              ∧ (pre = "RouterOS "%string ∨ pre = "RouterOS v"%string)
              ∧ version_token v).
  { intros n (before & pre & after & -> & Hpre & Hv)%IH.
    exists (String c before), pre, after. by rewrite str_app_cons. }
  destruct skip as [|n]; [|apply Hshift].
  destruct (match_version (String c s)) as [[v0 rest]|] eqn:Hm; [|apply Hshift].
  intros [->|Hin]%elem_of_cons; [|by eapply Hshift].
  apply match_version_sound in Hm as (pre & Heq & Hpre & Hv).
  exists "", pre, rest. by rewrite str_app_nil_l.
Qed.

(** ** RSS Delta Discovery: properties *)

Lemma found_foldl_log {A} (msg : A → message) lvl (l : list A) s :
  found_versions (foldl (λ s v, log (msg v) lvl s) s l) = found_versions s.
Proof. revert s. induction l as [|x l IH]; intros s; cbn; [done|]. by rewrite IH. Qed.

(** C8, as stated, fails. A body that holds the tokens 7.16.2, 7.15.1 and
    7.15.1 and nothing else gives an engine that knows 7.15.1 the empty
    delta, not 7.16.2: the pattern takes a version only where [RouterOS ]
    or [RouterOS v] stands before it. And a fetch that fails with status
    500 does not give the empty delta when its body carries the feed: the
    status is not looked at. *)
Lemma scan_rss_for_versions_needs_prefix :
  (scan_rss_for_versions (Demo.env 3 Demo.serves_bare_feed) Demo.knows_7_15_1).1 = []
  ∧ ¬ (scan_rss_for_versions (Demo.env 3 Demo.serves_bare_feed) Demo.knows_7_15_1).1
      = ["7.16.2"%string]
  ∧ ¬ (scan_rss_for_versions (Demo.env 3 Demo.serves_feed_with_status_500)
                             Demo.knows_7_15_1).1
      = [].
Proof.
  split; [vm_compute; reflexivity|]. split; vm_compute; discriminate.
Qed.

(** C8, amended. Provided the iteration order of a set is an enumeration
    of its elements, [scan_rss_for_versions] on a feed that was received
    completely returns a list without repetition whose members are exactly
    the strings that the pattern [RouterOS v?(...)] extracts from the text
    and that are not in [found_versions]; each of them stands in the text
    right after [RouterOS ] or [RouterOS v] and has the shape of a version.
    When the fetch raises (no connection, or the body breaks off) it
    returns the empty list. It never changes [found_versions]. On the demo
    feed, in which the pattern finds 7.16.2, 7.15.1 and 7.15.1, an engine
    that knows 7.15.1 gets exactly 7.16.2. *)
Theorem scan_rss_for_versions_delta E s :
  (∀ X, set_order E X ≡ₚ elements X) →
  (match net E (requests s) GET RSS_URL with
   | Reply _ body true =>
       NoDup (scan_rss_for_versions E s).1
       ∧ (∀ v, v ∈ (scan_rss_for_versions E s).1
               ↔ v ∈ findall_versions (text_of E (requests s) body)
                 ∧ v ∉ found_versions s)
       ∧ (∀ v, v ∈ (scan_rss_for_versions E s).1 →
               ∃ before pre after,
                 text_of E (requests s) body = before +:+ pre +:+ v +:+ after
                 ∧ (pre = "RouterOS "%string ∨ pre = "RouterOS v"%string)
                 ∧ version_token v)
   | _ => (scan_rss_for_versions E s).1 = []
   end)
  ∧ found_versions (scan_rss_for_versions E s).2 = found_versions s
  ∧ findall_versions Demo.feed = ["7.16.2"; "7.15.1"; "7.15.1"]%string
  ∧ (scan_rss_for_versions (Demo.env 3 Demo.serves_feed) Demo.knows_7_15_1).1
    = ["7.16.2"%string].
Proof.
  intros Horder. split_and!.
  - unfold scan_rss_for_versions. rewrite session_request_spec.
    destruct (net E (requests s) GET RSS_URL) as [|status body [|]]; [done| |done].
    cbn [fst found_versions].
    assert (Hmem : ∀ v, v ∈ filter (λ v, v ∉ found_versions s)
                              (set_order E (list_to_set
                                 (findall_versions (text_of E (requests s) body))))
                        ↔ v ∈ findall_versions (text_of E (requests s) body)
                          ∧ v ∉ found_versions s).
    { intros v. rewrite list_elem_of_filter, Horder, elem_of_elements,
        elem_of_list_to_set. tauto. }
    split; [|split].
    + apply NoDup_filter. rewrite Horder. apply NoDup_elements.
    + exact Hmem.
    + intros v [Hv _]%Hmem. by apply (findall_go_sound 0).
  - unfold scan_rss_for_versions. rewrite session_request_spec.
    destruct (net E (requests s) GET RSS_URL) as [|status body [|]]; [done| |done].
    cbn [snd]. by rewrite found_foldl_log.
  - vm_compute. reflexivity.
  - vm_compute. reflexivity.
Qed.

(** The theorem at work on the demo feed. *)
Lemma scan_rss_for_versions_delta_witness :
  NoDup (scan_rss_for_versions (Demo.env 3 Demo.serves_feed) Demo.knows_7_15_1).1
  ∧ ∀ v, v ∈ (scan_rss_for_versions (Demo.env 3 Demo.serves_feed) Demo.knows_7_15_1).1
         ↔ v ∈ findall_versions
                 (text_of (Demo.env 3 Demo.serves_feed) 0 [list_byte_of_string Demo.feed])
           ∧ v ∉ found_versions Demo.knows_7_15_1.
Proof.
  destruct (scan_rss_for_versions_delta (Demo.env 3 Demo.serves_feed) Demo.knows_7_15_1)
    as (H & _).
  - intros X. reflexivity.
  - destruct H as (H1 & H2 & _). split; [exact H1|exact H2].
Defined.

(** ** The file system: lemmas *)

Lemma elem_of_prefixes (p q : path) :
  q ∈ FS.prefixes p ↔ q ≠ [] ∧ q `prefix_of` p.
Proof.
  unfold FS.prefixes. rewrite list_elem_of_fmap. split.
  - intros (n & -> & Hn). apply elem_of_seq in Hn. split.
    + intros Hnil. apply (f_equal length) in Hnil.
      rewrite length_take in Hnil. cbn in Hnil. lia.
    + exists (drop n p). by rewrite take_drop.
  - intros (Hne & k & ->). exists (length q). split.
    + by rewrite take_app_length.
    + apply elem_of_seq. rewrite length_app. destruct q; [done|]. cbn. lia.
Qed.

Lemma lookup_mkdir_foldl (l : list path) (f : gmap path node) (q : path) :
  foldl (λ acc q, <[q := Dir]> acc) f l !! q
  = if decide (q ∈ l) then Some Dir else f !! q.
Proof.
  revert f. induction l as [|x l IH]; intros f; cbn; [done|].
  rewrite IH. destruct (decide (q ∈ l)) as [Hin|Hnin].
  - rewrite decide_True; [done|by right].
  - destruct (decide (q = x)) as [->|Hne].
    + rewrite lookup_insert_eq, decide_True; [done|by left].
    + rewrite lookup_insert_ne by done. rewrite decide_False; [done|].
      intros [?|?]%elem_of_cons; done.
Qed.

Lemma forallb_false_witness {A} (P : A → bool) (l : list A) :
  forallb P l = false → ∃ x, x ∈ l ∧ P x = false.
Proof.
  induction l as [|x l IH]; cbn; [done|].
  destruct (P x) eqn:Hx; cbn.
  - intros (y & Hy & HP)%IH. exists y. split; [by right|done].
  - intros _. exists x. split; [by left|done].
Qed.

(** What [mkdir -p] does: it succeeds when no component on the way is a
    file, and then every component is a directory and nothing else
    changed. *)
Lemma mkdir_parents_spec (f : gmap path node) (p : path) :
  match FS.mkdir_parents f p with
  | Some f' =>
      (∀ q, q ∈ FS.prefixes p → FS.is_file f q = false)
      ∧ ∀ q, f' !! q = if decide (q ∈ FS.prefixes p) then Some Dir else f !! q
  | None => ∃ q, q ∈ FS.prefixes p ∧ FS.is_file f q = true
  end.
Proof.
  unfold FS.mkdir_parents.
  destruct (forallb _ _) eqn:Hall.
  - split; [|apply lookup_mkdir_foldl].
    intros q Hq. rewrite forallb_forall in Hall.
    apply list_elem_of_In, Hall in Hq. by apply negb_true_iff.
  - apply forallb_false_witness in Hall as (q & Hq & HP).
    exists q. split; [done|]. by apply negb_false_iff.
Qed.

Lemma touches_only_refl dest f : touches_only dest f f.
Proof. intros q _. by left. Qed.

Lemma touches_only_trans dest f1 f2 f3 :
  touches_only dest f1 f2 → touches_only dest f2 f3 → touches_only dest f1 f3.
Proof.
  intros H12 H23 q Hq.
  destruct (H12 q Hq) as [E12|(Hp & Hn & Hd)], (H23 q Hq) as [E23|(Hp' & Hn' & Hd')].
  - left. congruence.
  - right. split; [done|]. split; congruence.
  - right. split; [done|]. split; congruence.
  - congruence.
Qed.

Lemma parent_out_path E version arch filename :
  FS.parent (out_path E version arch filename) = output_dir E ++ [version; arch].
Proof.
  unfold FS.parent, out_path. rewrite removelast_app by done. done.
Qed.

Lemma out_path_not_nil E version arch filename : out_path E version arch filename ≠ [].
Proof. unfold out_path. by destruct (output_dir E). Qed.

(** The ancestors of a destination are proper prefixes of it. *)
Lemma ancestor_of_out_path (E : Env) (version arch filename : string) (q : path) :
  q ∈ FS.prefixes (FS.parent (out_path E version arch filename)) →
  q `prefix_of` out_path E version arch filename
  ∧ q ≠ out_path E version arch filename.
Proof.
  rewrite parent_out_path. intros [_ [k Hk]]%elem_of_prefixes. split.
  - exists (k ++ [filename]). unfold out_path.
    rewrite app_assoc, <-Hk, <-app_assoc. done.
  - intros ->. apply (f_equal length) in Hk. unfold out_path in Hk.
    rewrite !length_app in Hk. cbn in Hk. lia.
Qed.

Lemma open_w_spec (f f' : gmap path node) (p : path) :
  FS.open_w f p = Some f' →
  f' = <[p := File []]> f ∧ p ≠ [] ∧ FS.is_dir f (FS.parent p) = true
  ∧ FS.is_dir f p = false.
Proof.
  unfold FS.open_w. destruct p as [|c p]; [done|].
  destruct (FS.is_dir f (FS.parent (c :: p))) eqn:Hd; [|done].
  destruct (FS.is_dir f (c :: p)) eqn:Hd'; [done|].
  cbn. by intros [= <-].
Qed.

(** The streaming loop appends the non-empty chunks, so the file ends up
    with the concatenation of the body, and [downloaded] is its length. *)
Lemma write_chunks_go (p : path) (body : list (list byte))
    (f0 : gmap path node) (n0 : Z) (c0 : list byte) :
  f0 !! p = Some (File c0) →
  ∃ f3,
    foldl (λ '(f, downloaded) chunk,
             match chunk with
             | [] => (f, downloaded)
             | _ => (FS.append f p chunk, downloaded + Z.of_nat (length chunk))
             end)
          (f0, n0) body
    = (f3, n0 + Z.of_nat (length (concat body)))
    ∧ f3 !! p = Some (File (c0 ++ concat body))
    ∧ ∀ q, q ≠ p → f3 !! q = f0 !! q.
Proof.
  revert f0 n0 c0. induction body as [|chunk body IH]; intros f0 n0 c0 Hp.
  - exists f0. cbn. rewrite Z.add_0_r, app_nil_r. done.
  - cbn [foldl]. destruct chunk as [|b chunk].
    + destruct (IH f0 n0 c0 Hp) as (f3 & Hf & Hl & Hfr). exists f3. done.
    + assert (Ha : FS.append f0 p (b :: chunk) !! p = Some (File (c0 ++ b :: chunk))).
      { unfold FS.append. rewrite Hp. apply lookup_insert_eq. }
      destruct (IH _ (n0 + Z.of_nat (length (b :: chunk))) _ Ha)
        as (f3 & Hf & Hl & Hfr).
      exists f3. split_and!.
      * rewrite Hf. f_equal. cbn [concat]. rewrite length_app. lia.
      * rewrite Hl. cbn [concat]. by rewrite <-app_assoc.
      * intros q Hq. rewrite Hfr by done. unfold FS.append. rewrite Hp.
        by rewrite lookup_insert_ne.
Qed.

Lemma write_chunks_spec (p : path) (body : list (list byte))
    (f0 : gmap path node) (c0 : list byte) :
  f0 !! p = Some (File c0) →
  ∃ f3,
    write_chunks p body f0 = (f3, Z.of_nat (length (concat body)))
    ∧ f3 !! p = Some (File (c0 ++ concat body))
    ∧ ∀ q, q ≠ p → f3 !! q = f0 !! q.
Proof.
  intros Hp. destruct (write_chunks_go p body f0 0 c0 Hp) as (f3 & Hf & Hl & Hfr).
  exists f3. unfold write_chunks. by rewrite Hf.
Qed.

(** Creating the ancestors of a destination touches only them. *)
Lemma mkdir_parents_touches (E : Env) (version arch filename : string)
    (f f1 : gmap path node) :
  FS.mkdir_parents f (FS.parent (out_path E version arch filename)) = Some f1 →
  touches_only (out_path E version arch filename) f f1
  ∧ f1 !! out_path E version arch filename = f !! out_path E version arch filename.
Proof.
  intros Hm. pose proof (mkdir_parents_spec f (FS.parent (out_path E version arch filename))) as Hs.
  rewrite Hm in Hs. destruct Hs as [Hnf Hl]. split.
  - intros q Hq. rewrite Hl. case_decide as Hin; [|by left].
    destruct (ancestor_of_out_path _ _ _ _ _ Hin) as [Hpre _].
    specialize (Hnf q Hin). unfold FS.is_file, FS.node_at in Hnf.
    apply elem_of_prefixes in Hin as [Hne _].
    destruct q as [|c q]; [done|].
    destruct (f !! (c :: q)) as [[content|]|] eqn:Hfq; [done|by left|by right].
  - rewrite Hl. case_decide as Hin; [|done].
    by destruct (ancestor_of_out_path _ _ _ _ _ Hin).
Qed.

(** ** Download Manager: further properties *)

Lemma counter_increment_stat key amount s key' :
  counter (increment_stat key amount s) key'
  = match gui s with
    | Some _ => if decide (key = key') then counter s key' + amount else counter s key'
    | None => 0
    end.
Proof.
  unfold counter, increment_stat. destruct (gui s) as [g|] eqn:Hg; cbn; [|by rewrite Hg].
  case_decide as Hk.
  - subst. by rewrite lookup_insert_eq.
  - by rewrite lookup_insert_ne.
Qed.

Lemma counter_gui s s' key : gui s' = gui s → counter s' key = counter s key.
Proof. unfold counter. by intros ->. Qed.

Lemma gui_increment_stat_attached key amount s :
  is_Some (gui (increment_stat key amount s)) ↔ is_Some (gui s).
Proof.
  unfold increment_stat. destruct (gui s) as [g|] eqn:Hg; cbn; [|by rewrite Hg].
  split; eauto.
Qed.

Lemma gui_remove_partial p s : gui (remove_partial p s) = gui s.
Proof.
  unfold remove_partial. destruct (FS.exists_ _ _); [|done].
  by destruct (FS.unlink _ _).
Qed.

Lemma requests_remove_partial p s : requests (remove_partial p s) = requests s.
Proof.
  unfold remove_partial. destruct (FS.exists_ _ _); [|done].
  by destruct (FS.unlink _ _).
Qed.

Lemma fs_remove_partial_other p s q : q ≠ p → fs (remove_partial p s) !! q = fs s !! q.
Proof.
  intros Hq. unfold remove_partial, FS.unlink. destruct (FS.exists_ _ _); [|done].
  destruct (FS.node_at (fs s) p) as [[c|]|]; [|done..].
  cbn. by rewrite lookup_delete_ne.
Qed.

Section DownloadExtra.
Context (E : Env) (url version arch filename : string).

Local Abbreviation dest := (out_path E version arch filename).
Local Abbreviation attempt_ := (download_attempt E url version arch filename).

(** One attempt leaves the found set and the probe cache alone and, on
    disk, touches only the destination and its missing ancestors. *)
Lemma download_attempt_footprint s :
  touches_only dest (fs s) (fs (attempt_ s).2)
  ∧ found_versions (attempt_ s).2 = found_versions s
  ∧ version_exists_cache (attempt_ s).2 = version_exists_cache s.
Proof.
  unfold download_attempt.
  destruct (present_nonempty E (fs s) dest); cbn [snd].
  { autorewrite with engine. split; [apply touches_only_refl|done]. }
  rewrite session_request_spec.
  set (s1 := {| fs := fs s; trace := trace s ++ [Request GET url] |}).
  assert (Hsame : touches_only dest (fs s) (fs s1)
                  ∧ found_versions s1 = found_versions s
                  ∧ version_exists_cache s1 = version_exists_cache s).
  { split; [apply touches_only_refl|done]. }
  destruct (net E (requests s) GET url) as [|status body complete]; [done|].
  destruct (status =? 404); [done|].
  destruct (raise_for_status status); [done|].
  destruct (FS.mkdir_parents (fs s1) (FS.parent dest)) as [f1|] eqn:Hm; [|done].
  apply mkdir_parents_touches in Hm as [Hm Hd].
  destruct (FS.open_w f1 dest) as [f2|] eqn:Ho; cbn [snd].
  2:{ by autorewrite with engine. }
  apply open_w_spec in Ho as (-> & _ & _ & _).
  destruct (write_chunks_spec dest body (<[dest := File []]> f1) [])
    as (f3 & Hw & _ & Hfr); [apply lookup_insert_eq|].
  rewrite Hw.
  assert (Ht : touches_only dest (fs s) f3).
  { eapply touches_only_trans; [exact Hm|].
    intros q Hq. left. rewrite Hfr by done. by rewrite lookup_insert_ne. }
  destruct complete; cbn [snd]; by autorewrite with engine.
Qed.


(** X2. A first fetch that the server answers completely with a status
    that is neither 404 nor an error, at a destination that is empty or
    absent and whose ancestors can be created: [download_file] returns
    success after that single request; the destination then holds the
    concatenation of the body's chunks, ['files_downloaded'] went up by one
    and ['bytes_downloaded'] by the number of bytes written. *)
Theorem download_file_stores_body retry_count s status body :
  present_nonempty E (fs s) dest = false →
  net E (requests s) GET url = Reply status body true →
  status ≠ 404 →
  raise_for_status status = false →
  (∀ q, q ∈ FS.prefixes (FS.parent dest) → FS.is_file (fs s) q = false) →
  FS.is_dir (fs s) dest = false →
  ∃ s',
    download_file E url version arch filename retry_count s = Some (true, s')
    ∧ fs s' !! dest = Some (File (concat body))
    ∧ trace s'
      = trace s ++ [Request GET url;
                    Log SUCCESS (MsgDownload filename (Z.of_nat (length (concat body))))]
    ∧ requests s' = S (requests s)
    ∧ (is_Some (gui s) →
       counter s' "files_downloaded" = counter s "files_downloaded" + 1
       ∧ counter s' "bytes_downloaded"
         = counter s "bytes_downloaded" + Z.of_nat (length (concat body))
       ∧ ∀ key, key ≠ "files_downloaded"%string → key ≠ "bytes_downloaded"%string →
                counter s' key = counter s key).
Proof.
  intros Hp Hnet H404 Hraise Hanc Hdir.
  rewrite download_file_unfold. unfold download_attempt.
  rewrite Hp, session_request_spec, Hnet.
  destruct (Z.eqb_spec status 404) as [|_]; [done|]. rewrite Hraise. cbn [fs].
  pose proof (mkdir_parents_spec (fs s) (FS.parent dest)) as Hm.
  destruct (FS.mkdir_parents (fs s) (FS.parent dest)) as [f1|] eqn:Hmk.
  2:{ destruct Hm as (q & Hq & Hfile). by rewrite Hanc in Hfile. }
  destruct Hm as [_ Hl].
  assert (Hparent : FS.is_dir f1 (FS.parent dest) = true).
  { unfold FS.is_dir, FS.node_at.
    destruct (FS.parent dest) as [|c p] eqn:Hpar; [reflexivity|].
    rewrite Hl, decide_True; [done|].
    apply elem_of_prefixes. split; [done|reflexivity]. }
  assert (Hdest : f1 !! dest = fs s !! dest).
  { by apply (mkdir_parents_touches E version arch filename). }
  assert (Hdir1 : FS.is_dir f1 dest = false).
  { unfold FS.is_dir, FS.node_at in *. pose proof (out_path_not_nil E version arch filename).
    destruct dest; [done|]. by rewrite Hdest. }
  assert (Hopen : FS.open_w f1 dest = Some (<[dest := File []]> f1)).
  { unfold FS.open_w. pose proof (out_path_not_nil E version arch filename).
    destruct dest eqn:Hd; [done|]. by rewrite Hparent, Hdir1. }
  rewrite Hopen.
  destruct (write_chunks_spec dest body (<[dest := File []]> f1) [])
    as (f3 & Hw & Hcontent & _); [apply lookup_insert_eq|].
  rewrite Hw. eexists. split; [done|].
  split; [by autorewrite with engine|].
  split; [autorewrite with engine; cbn [trace]; by rewrite <-app_assoc|].
  split; [by autorewrite with engine|].
  intros [g Hg].
  unfold counter, log, emit, increment_stat, with_gui, with_fs. cbn [gui].
  rewrite Hg. cbn [gui stats]. split_and!.
  - by rewrite lookup_insert_ne, lookup_insert_eq by done.
  - rewrite lookup_insert_eq, lookup_insert_ne by done. done.
  - intros key Hk1 Hk2. by rewrite !lookup_insert_ne by done.
Qed.
End DownloadExtra.

(** The theorem at work: the demo server and a fresh engine. *)
Lemma download_file_stores_body_witness :
  ∃ s',
    download_file (Demo.env 3 Demo.serves_file)
                  Demo.url Demo.version Demo.arch Demo.filename 0 Demo.fresh
    = Some (true, s')
    ∧ fs s' !! out_path (Demo.env 3 Demo.serves_file) Demo.version Demo.arch Demo.filename
      = Some (File (concat [[x41]; []; [x42]]))
    ∧ requests s' = S (requests Demo.fresh).
Proof.
  destruct (download_file_stores_body (Demo.env 3 Demo.serves_file)
              Demo.url Demo.version Demo.arch Demo.filename 0 Demo.fresh
              200 [[x41]; []; [x42]])
    as (s' & H1 & H2 & _ & H3 & _).
  - vm_compute. reflexivity.
  - vm_compute. reflexivity.
  - discriminate.
  - vm_compute. reflexivity.
  - intros q _. unfold FS.is_file, FS.node_at. destruct q; [reflexivity|].
    cbn [fs Demo.fresh]. rewrite lookup_empty. reflexivity.
  - vm_compute. reflexivity.
  - exists s'. auto.
Defined.

(** *** A target that cannot be fetched *)

Lemma sum_powers_of_two (from : Z) (k : nat) :
  0 ≤ from →
  foldr Z.add 0 ((λ a, 2 ^ a) <$> seqZ from (Z.of_nat k)) = 2 ^ (from + Z.of_nat k) - 2 ^ from.
Proof.
  revert from. induction k as [|k IH]; intros from Hfrom.
  - rewrite seqZ_nil by lia. cbn [fmap list_fmap foldr]. rewrite Z.add_0_r. lia.
  - rewrite seqZ_cons by lia. cbn [fmap list_fmap foldr].
    replace (Z.pred (Z.of_nat (S k))) with (Z.of_nat k) by lia.
    rewrite IH by lia.
    replace (Z.succ from + Z.of_nat k) with (from + Z.of_nat (S k)) by lia.
    replace (Z.succ from) with (from + 1) by lia.
    rewrite (Z.pow_add_r 2 from 1) by lia. lia.
Qed.

Lemma gui_increment_stat_congr key amount s1 s2 :
  gui s1 = gui s2 →
  gui (increment_stat key amount s1) = gui (increment_stat key amount s2).
Proof.
  unfold increment_stat. intros H. rewrite H.
  destruct (gui s2) as [g|] eqn:Hg; cbn; [done|congruence].
Qed.

Lemma fs_remove_partial_congr p s1 s2 :
  fs s1 = fs s2 → fs (remove_partial p s1) = fs (remove_partial p s2).
Proof.
  unfold remove_partial. intros H. rewrite H.
  destruct (FS.exists_ (fs s2) p); [|done].
  by destruct (FS.unlink (fs s2) p).
Qed.

Section Unfetchable.
Context (E : Env) (url version arch filename : string).

Local Abbreviation dest := (out_path E version arch filename).

(** From attempt [retry_count] on, against a server on which every fetch
    of the target fails: all remaining attempts are made. *)
Lemma download_file_all_fail_from (k : nat) retry_count s :
  0 ≤ retry_count →
  k = Z.to_nat (max_retries E - retry_count) →
  present_nonempty E (fs s) dest = false →
  (∀ n, fetch_fails (net E n GET url) = true) →
  ∃ s' evs,
    download_file E url version arch filename retry_count s = Some (false, s')
    ∧ trace s' = trace s ++ evs
    ∧ fetches evs = replicate (S k) url
    ∧ sleeps evs = (λ a, 2 ^ a) <$> seqZ retry_count (Z.of_nat k)
    ∧ logged ERROR evs = [MsgFailed filename]
    ∧ requests s' = (requests s + S k)%nat
    ∧ fs s' = fs (remove_partial dest s)
    ∧ gui s' = gui (increment_stat "files_failed" 1 s).
Proof.
  intros Hrc Hk Hp Hfail. revert retry_count s Hrc Hk Hp.
  induction k as [|k IH]; intros rc s Hrc Hk Hp;
    rewrite download_file_unfold, download_attempt_fails by done;
    rewrite session_request_spec; cbn [snd].
  - destruct (Z.ltb_spec rc (max_retries E)); [lia|].
    eexists _, [Request GET url; Log ERROR (MsgFailed filename)].
    split; [done|]. rewrite trace_remove_partial, requests_remove_partial,
      gui_remove_partial.
    autorewrite with engine. cbn [trace requests].
    split; [by rewrite <-app_assoc|]. split; [done|].
    split; [by rewrite seqZ_nil|]. split; [done|]. split; [lia|].
    split; [|by apply gui_increment_stat_congr].
    apply fs_remove_partial_congr. by autorewrite with engine.
  - destruct (Z.ltb_spec rc (max_retries E)); [|lia].
    match goal with |- context [download_file _ _ _ _ _ _ ?t] => set (s1 := t) end.
    destruct (IH (rc + 1) s1) as (s' & evs & Hd & Ht & Hf & Hsl & Herr & Hreq & Hfs & Hgui);
      [lia|lia|done|].
    exists s', ([Request GET url; Log WARNING (MsgRetry (rc + 1) filename (2 ^ rc));
                 Sleep (2 ^ rc)] ++ evs).
    split; [done|]. split_and!.
    + rewrite Ht. unfold s1. autorewrite with engine. cbn [trace].
      by rewrite <-!app_assoc.
    + rewrite fetches_app, Hf. done.
    + rewrite sleeps_app, Hsl. rewrite (seqZ_cons rc (Z.of_nat (S k))) by lia.
      replace (Z.pred (Z.of_nat (S k))) with (Z.of_nat k) by lia.
      replace (Z.succ rc) with (rc + 1) by lia. done.
    + unfold logged. rewrite omap_app. exact Herr.
    + rewrite Hreq. unfold s1. autorewrite with engine. cbn [requests]. lia.
    + rewrite Hfs. apply fs_remove_partial_congr. unfold s1.
      by autorewrite with engine.
    + rewrite Hgui. apply gui_increment_stat_congr. unfold s1.
      by autorewrite with engine.
Qed.

End Unfetchable.


(** ** Download Target Builder: properties *)

(** X4. For every version the builder yields 43 targets. Each of the seven
    architectures other than [x86] gets the four architecture-qualified
    files and nothing else; [x86] gets those four and, once, the eleven
    files that do not depend on the architecture. Every URL is the CDN
    root, the version and the filename joined by slashes. *)
Theorem build_download_urls_structure (version : string) :
  length (build_download_urls version) = 43%nat
  ∧ (∀ arch, arch ∈ ARCHITECTURES → arch ≠ "x86"%string →
       files_for arch (build_download_urls version)
       = [ "routeros-" +:+ arch +:+ "-" +:+ version +:+ ".npk";
           "all_packages-" +:+ arch +:+ "-" +:+ version +:+ ".zip";
           "routeros-" +:+ arch +:+ "-" +:+ version +:+ ".zip";
           "routeros-" +:+ arch +:+ "-" +:+ version +:+ ".upgrade" ])
  ∧ files_for "x86" (build_download_urls version)
    = [ "routeros-x86-" +:+ version +:+ ".npk";
        "all_packages-x86-" +:+ version +:+ ".zip";
        "routeros-x86-" +:+ version +:+ ".zip";
        "mikrotik-" +:+ version +:+ ".iso";
        "cd-" +:+ version +:+ ".iso";
        "chr-" +:+ version +:+ ".ova";
        "chr-" +:+ version +:+ ".vdi";
        "chr-" +:+ version +:+ ".vmdk";
        "chr-" +:+ version +:+ ".vhdx";
        "chr-" +:+ version +:+ ".img";
        "chr-" +:+ version +:+ ".zip";
        "routeros-x86-" +:+ version +:+ ".upgrade";
        "routeros-" +:+ version +:+ ".pdf";
        "CHANGELOG";
        "README" ]
  ∧ (∀ url arch filename,
       (url, arch, filename) ∈ build_download_urls version →
       arch ∈ ARCHITECTURES
       ∧ url = BASE_CDN_URL +:+ "/" +:+ version +:+ "/" +:+ filename).
Proof.
  split_and!.
  - reflexivity.
  - intros arch Harch Hx86. unfold ARCHITECTURES in Harch.
    repeat (apply elem_of_cons in Harch as [->|Harch]; [try done; reflexivity|]).
    by apply elem_of_nil in Harch.
  - reflexivity.
  - intros url arch filename Hin.
    assert (Hall : Forall (λ t : string * string * string,
                             t.1.2 ∈ ARCHITECTURES
                             ∧ t.1.1 = BASE_CDN_URL +:+ "/" +:+ version +:+ "/" +:+ t.2)
                          (build_download_urls version)).
    { set (l := build_download_urls version). vm_compute in l. subst l.
      repeat (apply Forall_cons; split;
              [split; [cbn [fst snd];
                       repeat first [apply list_elem_of_here|apply list_elem_of_further]
                      |reflexivity]|]).
      apply Forall_nil_2. }
    rewrite Forall_forall in Hall. apply (Hall (url, arch, filename)). done.
Qed.

(** ** Plain path components *)

Lemma str_all_app (P : ascii → bool) (a b : string) :
  str_all P (a +:+ b) = str_all P a && str_all P b.
Proof.
  induction a as [|c a IH]; [by rewrite str_app_nil_l|].
  rewrite str_app_cons. cbn. by rewrite IH, andb_assoc.
Qed.

Lemma str_all_impl (P Q : ascii → bool) (s : string) :
  (∀ c, P c = true → Q c = true) → str_all P s = true → str_all Q s = true.
Proof.
  intros HPQ. induction s as [|c s IH]; [done|]. cbn.
  intros [Hc Hs]%andb_prop. by rewrite (HPQ c Hc), IH.
Qed.

Lemma contains_slash (s : string) :
  str_all not_slash s = true → Str.contains "/" s = false.
Proof.
  induction s as [|c s IH]; [done|].
  cbn [str_all Str.contains String.prefix].
  intros [Hc Hs]%andb_prop. unfold not_slash in Hc.
  destruct (ascii_dec "/" c) as [<-|Hne]; [|by apply IH].
  by rewrite Ascii.eqb_refl in Hc.
Qed.

(** A text without a slash that starts with something else than a dot is
    a plain component. *)
Lemma plain_intro (c : ascii) (r : string) :
  c ≠ "."%char → str_all not_slash (String c r) = true → plain (String c r).
Proof.
  intros Hc Hall. unfold plain, plain_component.
  rewrite (contains_slash _ Hall). cbn [String.eqb negb andb].
  destruct (Ascii.eqb_spec c "."); [done|]. done.
Qed.

Lemma split_go_no_sep (sep : ascii) (cur s : string) :
  Str.contains (String sep EmptyString) s = false →
  Str.split_go sep cur s = [String.rev_app cur s].
Proof.
  revert cur. induction s as [|c s IH]; intros cur Hno; [done|].
  cbn in Hno. cbn [Str.split_go].
  destruct (ascii_dec sep c) as [->|Hne].
  { by destruct s. }
  destruct (Ascii.eqb_spec c sep) as [->|_]; [done|].
  rewrite IH; [done|]. by destruct s.
Qed.

(** A string without the separator is its own single part. *)
Lemma split_no_sep (sep : ascii) (s : string) :
  Str.contains (String sep EmptyString) s = false → Str.split sep s = [s].
Proof. intros Hno. unfold Str.split. by rewrite split_go_no_sep. Qed.

(** On a plain component [/] appends it. *)
Lemma joinpath_plain (p : path) (c : string) : plain c → joinpath p c = p ++ [c].
Proof.
  unfold plain, plain_component, joinpath.
  intros [[[Hne Hdot]%andb_prop _]%andb_prop Hslash%negb_true_iff]%andb_prop.
  rewrite (split_no_sep "/" c Hslash).
  assert (Hp : String.prefix "/" c = false).
  { destruct c as [|a c]; [done|]. cbn [Str.contains] in Hslash.
    by destruct (String.prefix "/" (String a c)). }
  rewrite Hp. rewrite filter_cons_True; [done|].
  split.
  - intros ->. done.
  - intros ->. done.
Qed.

(** The destination of a download is what [pathlib] makes of it, when its
    three components are plain. *)
Lemma out_path_joinpath (E : Env) (version arch filename : string) :
  plain version → plain arch → plain filename →
  joinpath (joinpath (joinpath (output_dir E) version) arch) filename
  = out_path E version arch filename.
Proof.
  intros Hv Ha Hf. rewrite !joinpath_plain by done.
  unfold out_path. by rewrite <-!app_assoc.
Qed.

Lemma plain_no_slash (v : string) : plain v → str_all not_slash v = true.
Proof.
  unfold plain, plain_component. intros [_ Hv%negb_true_iff]%andb_prop.
  induction v as [|c v IH]; [done|].
  cbn [str_all Str.contains String.prefix] in *.
  destruct (ascii_dec "/" c) as [<-|Hne].
  { assert (Hp : String.prefix "" v = true) by (by destruct v).
    by rewrite Hp in Hv. }
  rewrite IH by done. unfold not_slash.
  destruct (Ascii.eqb_spec c "/") as [->|]; [done|]. done.
Qed.

(** The files of a version with a plain name have plain names, and so
    have their architectures. *)
Lemma targets_plain (version url arch filename : string) :
  plain version → (url, arch, filename) ∈ build_download_urls version →
  plain arch ∧ plain filename.
Proof.
  intros Hv%plain_no_slash.
  set (l := build_download_urls version). vm_compute in l. subst l.
  intros Hin.
  repeat (apply elem_of_cons in Hin as [[= -> -> ->]|Hin];
          [split;
           [reflexivity
           |first [reflexivity
                  |apply plain_intro; [done|];
                   cbn [str_all not_slash Ascii.eqb Bool.eqb negb andb];
                   rewrite str_all_app, Hv; reflexivity]]|]).
  by apply elem_of_nil in Hin.
Qed.

Lemma high_byte_not_slash (c : ascii) :
  (N_of_ascii c <? 128)%N = false → not_slash c = true ∧ c ≠ "."%char.
Proof.
  destruct c as [[] [] [] [] [] [] [] []]; vm_compute; intros H;
    first [discriminate H|split; [reflexivity|discriminate]].
Qed.

(** Below 128 the decimal digits are [0] to [9]. *)
Lemma decimal_ascii (c : ascii) :
  (N_of_ascii c <? 128)%N = true → Unicode.is_decimal (N_of_ascii c) = true →
  ascii_digit c = true.
Proof.
  destruct c as [[] [] [] [] [] [] [] []]; vm_compute; intros H1 H2;
    first [discriminate H1|discriminate H2|reflexivity].
Qed.

Lemma numeric_not_slash (c : ascii) :
  numeric_char c = true → not_slash c = true ∧ c ≠ "."%char.
Proof.
  destruct c as [[] [] [] [] [] [] [] []]; vm_compute; intros H;
    first [discriminate H|split; [reflexivity|discriminate]].
Qed.

Lemma continuation_not_slash (s r : string) (x : N) :
  Unicode.continuation s = Some (x, r) →
  ∃ c, s = String c r ∧ not_slash c = true.
Proof.
  destruct s as [|c s]; [done|]. cbn [Unicode.continuation].
  destruct (_ && _) eqn:Hb; [|done]. intros [= <- <-].
  exists c. split; [done|]. apply high_byte_not_slash.
  apply andb_prop in Hb as [Hb%N.leb_le _]. apply N.ltb_ge. done.
Qed.

(** The bytes of a decimal digit: no slash among them, and no dot in
    front. *)
Lemma digit_char_bytes (d : string) :
  digit_char d →
  ∃ c r, d = String c r ∧ c ≠ "."%char ∧ str_all not_slash d = true.
Proof.
  intros (cp & Hd & Hcp).
  destruct d as [|c s1]; [done|]. cbn [Unicode.decode_char] in Hd.
  exists c, s1. split; [done|].
  destruct (N_of_ascii c <? 128)%N eqn:H1.
  { injection Hd as <- ->.
    destruct (numeric_not_slash c) as [Hs Hdot].
    { unfold numeric_char. by rewrite (decimal_ascii c H1 Hcp). }
    split; [done|]. cbn. by rewrite Hs. }
  destruct (high_byte_not_slash c H1) as [Hs Hdot]. split; [done|].
  cbn [str_all]. rewrite Hs. cbn [andb].
  destruct (N_of_ascii c <? 192)%N; [done|].
  destruct (Unicode.continuation s1) as [[x1 s2]|] eqn:Hc1;
    [|by repeat destruct (_ <? _)%N].
  apply continuation_not_slash in Hc1 as (c1 & -> & Hs1).
  cbn [str_all]. rewrite Hs1. cbn [andb].
  cbn [mbind option_bind] in Hd.
  destruct (N_of_ascii c <? 224)%N.
  { unfold Unicode.shortest in Hd. destruct (_ <=? _)%N; [|done].
    by injection Hd as _ ->. }
  destruct (Unicode.continuation s2) as [[x2 s3]|] eqn:Hc2;
    [|by repeat destruct (_ <? _)%N].
  apply continuation_not_slash in Hc2 as (c2 & -> & Hs2).
  cbn [str_all]. rewrite Hs2. cbn [andb].
  cbn [mbind option_bind] in Hd.
  destruct (N_of_ascii c <? 240)%N.
  { unfold Unicode.shortest in Hd. destruct (_ <=? _)%N; [|done].
    by injection Hd as _ ->. }
  destruct (Unicode.continuation s3) as [[x3 s4]|] eqn:Hc3;
    [|by repeat destruct (_ <? _)%N].
  apply continuation_not_slash in Hc3 as (c3 & -> & Hs3).
  cbn [str_all]. rewrite Hs3. cbn [andb].
  cbn [mbind option_bind] in Hd.
  destruct (N_of_ascii c <? 248)%N; [|done].
  unfold Unicode.shortest in Hd. destruct (_ <=? _)%N; [|done].
  by injection Hd as _ ->.
Qed.

Lemma digits_bytes (w : string) :
  digits w →
  ∃ c r, w = String c r ∧ c ≠ "."%char ∧ str_all not_slash w = true.
Proof.
  induction 1 as [d Hd|d w Hd _ (c' & r' & -> & _ & Hw)].
  - by apply digit_char_bytes.
  - apply digit_char_bytes in Hd as (c & r & -> & Hc & Hs).
    exists c, (r +:+ String c' r'). rewrite str_app_cons. split; [done|].
    split; [done|]. rewrite <-str_app_cons, str_all_app, Hs, Hw. done.
Qed.

Lemma optional_part_bytes (mark p : string) :
  str_all not_slash mark = true → optional_part mark p →
  str_all not_slash p = true.
Proof.
  intros Hm [->|(d & (c & r & -> & _ & Hd)%digits_bytes & ->)]; [done|].
  by rewrite str_all_app, Hm, Hd.
Qed.

(** What the version pattern captures is a plain component. *)
Lemma version_token_plain (v : string) : version_token v → plain v.
Proof.
  intros (major & minor & patch & rc & beta & -> & HM & Hm & Hp & Hrc & Hbeta).
  apply digits_bytes in HM as (c & r & -> & Hc & HM).
  apply digits_bytes in Hm as (c' & r' & -> & _ & Hm).
  apply (optional_part_bytes ".") in Hp; [|done].
  apply (optional_part_bytes "rc") in Hrc; [|done].
  apply (optional_part_bytes "beta") in Hbeta; [|done].
  rewrite str_app_cons. apply plain_intro; [done|].
  rewrite <-str_app_cons, !str_all_app, HM, Hm, Hp, Hrc, Hbeta. done.
Qed.

Lemma pretty_N_go_nonempty (x : N) (s : string) :
  s ≠ EmptyString → pretty_N_go x s ≠ EmptyString.
Proof.
  revert s. induction (N.lt_wf_0 x) as [x _ IH]; intros s Hs.
  destruct (decide (x = 0)%N) as [->|Hx]; [by rewrite pretty_N_go_0|].
  rewrite pretty_N_go_step by lia. apply IH; [apply N.div_lt; lia|done].
Qed.

Lemma pretty_Z_nonempty (x : Z) : pretty x ≠ EmptyString.
Proof.
  assert (HN : ∀ n : N, pretty n ≠ EmptyString).
  { intros n. unfold pretty, pretty_N. case_decide; [done|].
    rewrite pretty_N_go_step by lia. by apply pretty_N_go_nonempty. }
  destruct x as [|p|p]; [done|apply HN|].
  change (pretty (Z.neg p)) with ("-" +:+ pretty (N.pos p)).
  by rewrite str_app_cons.
Qed.

(** Every candidate of the generator is a plain component. *)
Lemma generated_plain (start_major start_minor end_major end_minor : Z) (v : string) :
  v ∈ generate_all_version_numbers start_major start_minor end_major end_minor →
  plain v.
Proof.
  rewrite generate_renders_candidates.
  intros (x & -> & _)%list_elem_of_fmap.
  assert (Hnum : ∀ z : Z, str_all not_slash (pretty z) = true).
  { intros z. eapply str_all_impl; [|apply pretty_Z_numeric].
    intros c Hc. by apply numeric_not_slash. }
  unfold Spec.render.
  pose proof (pretty_Z_nonempty (Spec.major x)) as Hne.
  pose proof (pretty_Z_numeric (Spec.major x)) as Hfirst.
  pose proof (Hnum (Spec.major x)) as HM.
  destruct (pretty (Spec.major x)) as [|c r]; [done|].
  rewrite str_app_cons. apply plain_intro.
  { cbn in Hfirst. apply andb_prop in Hfirst as [Hc _].
    by apply numeric_not_slash. }
  rewrite <-str_app_cons, !str_all_app, HM, Hnum. cbn [andb str_all not_slash].
  destruct (Spec.patch x) as [p|]; [|done].
  rewrite !str_all_app, Hnum.
  destruct (Spec.tag x) as [[i|i]|]; [| |done]; unfold Spec.render_tag;
    by rewrite str_all_app, Hnum.
Qed.

(** ** Properties kept by every step

    A relation between states that is reflexive, transitive and kept by
    the primitive state changes of the engine is kept by every method.
    The strings that the methods join into paths are followed through
    the calls by a predicate [ok] on components. *)

Lemma confined_refl ok root f : confined ok root f f.
Proof. intros q. by left. Qed.

Lemma confined_trans ok root f1 f2 f3 :
  confined ok root f1 f2 → confined ok root f2 f3 → confined ok root f1 f3.
Proof.
  intros H12 H23 q.
  destruct (H12 q) as [E12|[Hin|(Hp & Hn & Hd)]]; [|by right; left|];
    destruct (H23 q) as [E23|[Hin'|(Hp' & Hn' & Hd')]]; try (by right; left).
  - left. congruence.
  - right. right. split; [done|]. split; congruence.
  - right. right. split; [done|]. split; congruence.
  - congruence.
Qed.

(** What touches only a destination below the root is confined to the
    root. *)
Lemma touches_only_confined (ok : string → Prop) (root l : path)
    (f f' : gmap path node) :
  Forall ok l → touches_only (root ++ l) f f' → confined ok root f f'.
Proof.
  intros Hl Ht q.
  destruct (decide (q = root ++ l)) as [->|Hq]; [right; left; by exists l|].
  destruct (Ht q Hq) as [?|(Hpre & Hn & Hd)]; [by left|].
  assert (Hroot : root `prefix_of` root ++ l) by by eexists.
  destruct (prefix_weak_total _ _ _ Hpre Hroot) as [?|[k ->]].
  - right. right. done.
  - right. left. exists k. split; [done|].
    apply prefix_app_inv in Hpre as [k' ->]. by apply Forall_app in Hl as [? _].
Qed.

(** The versions that the probe phase collects are among those probed. *)
Lemma probe_all_subset E vs s v :
  v ∈ (probe_all E vs s).1 → v ∈ probe_order E vs.
Proof.
  unfold probe_all. generalize (probe_order E vs) as l. intros l.
  assert (Hgen : ∀ acc : list string * engine,
            v ∈ (foldl (probe_step E) acc l).1 → v ∈ acc.1 ∨ v ∈ l).
  { induction l as [|x l IH]; intros acc; cbn [foldl]; [by left|].
    intros [Hv|Hv]%IH; [|by right; right].
    destruct acc as [existing t]. unfold probe_step in Hv.
    destruct (check_version_exists E x t) as [[|] t1]; cbn [fst] in *.
    - apply elem_of_app in Hv as [?|Hv]; [by left|].
      apply list_elem_of_singleton in Hv as ->. right. by left.
    - by left. }
  intros [Hv|Hv]%Hgen; [|done]. by apply elem_of_nil in Hv.
Qed.

(** What the feed scan returns is among what the set of matches yields. *)
Lemma scan_rss_for_versions_subset E s v :
  v ∈ (scan_rss_for_versions E s).1 →
  ∃ text, v ∈ set_order E (list_to_set (findall_versions text)).
Proof.
  unfold scan_rss_for_versions. rewrite session_request_spec.
  destruct (net E (requests s) GET RSS_URL) as [|status body [|]]; cbn [fst];
    [by intros ?%elem_of_nil| |by intros ?%elem_of_nil].
  intros [_ Hv]%list_elem_of_filter. eauto.
Qed.

Lemma check_version_exists_caches E v s :
  version_exists_cache (check_version_exists E v s).2 !! v
  = Some (check_version_exists E v s).1.
Proof.
  unfold check_version_exists.
  destruct (version_exists_cache s !! v) as [b|] eqn:Hv; [done|].
  rewrite session_request_spec.
  destruct (net E (requests s) HEAD _) as [|status body complete];
    [apply lookup_insert_eq|].
  destruct (status_exists status); [apply lookup_insert_eq|].
  rewrite session_request_spec.
  destruct (net E _ HEAD _); apply lookup_insert_eq.
Qed.

(** The versions collected by the probe phase are cached as existing. *)
Lemma probe_all_existing_cached E vs s v :
  v ∈ (probe_all E vs s).1 →
  version_exists_cache (probe_all E vs s).2 !! v = Some true.
Proof.
  unfold probe_all. generalize (probe_order E vs) as l. intros l.
  assert (Hgen : ∀ acc : list string * engine,
            (∀ w, w ∈ acc.1 → version_exists_cache acc.2 !! w = Some true) →
            ∀ w, w ∈ (foldl (probe_step E) acc l).1 →
                 version_exists_cache (foldl (probe_step E) acc l).2 !! w = Some true).
  { induction l as [|x l IH]; intros acc Hacc; [done|].
    cbn [foldl]. apply IH. destruct acc as [existing t]. cbn [fst snd] in Hacc.
    unfold probe_step.
    pose proof (grows_check_version_exists E x t) as (_ & Hc & _).
    pose proof (check_version_exists_caches E x t) as Hx.
    destruct (check_version_exists E x t) as [b t1]; cbn [fst snd] in *.
    destruct b; cbn [fst snd]; autorewrite with engine.
    - intros w [Hw|Hw]%elem_of_app.
      + eapply lookup_weaken; [by apply Hacc|done].
      + apply list_elem_of_singleton in Hw as ->. done.
    - intros w Hw. eapply lookup_weaken; [by apply Hacc|done]. }
  apply Hgen. cbn. intros w Hw. by apply elem_of_nil in Hw.
Qed.

Section Stepwise.
Context (E : Env) (ok : string → Prop) (R : relation engine) `{!PreOrder R}.
Context (R_emit : ∀ e s, R s (emit e s)).
Context (R_request : ∀ m url s, R s (session_request E m url s).2).
Context (R_fs : ∀ f s, confined ok (output_dir E) (fs s) f → R s (with_fs f s)).
Context (R_incr : ∀ key amount s, 0 ≤ amount → R s (increment_stat key amount s)).
Context (R_update : ∀ v s, R s (update_stat_current_version v s)).
Context (R_cache : ∀ v b s,
           version_exists_cache s !! v = None → R s (cache_put v b s)).
Context (R_found : ∀ X s,
           (∀ v, v ∈ X → version_exists_cache s !! v = Some true) →
           R s (with_found (X ∪ found_versions s) s)).
Context (ok_versions_file : ok "found_versions.json").
Context (ok_stats_file : ok "download_stats.json").
Context (ok_targets : ∀ v url a f,
           ok v → (url, a, f) ∈ download_order E (build_download_urls v) →
           ok a ∧ ok f).
Context (ok_candidates : ∀ a b c d v,
           v ∈ probe_order E (generate_all_version_numbers a b c d) → ok v).
Context (ok_feed : ∀ text v,
           v ∈ set_order E (list_to_set (findall_versions text)) → ok v).

Lemma step_log m l s : R s (log m l s).
Proof. apply R_emit. Qed.

Lemma step_sleep n s : R s (sleep n s).
Proof. apply R_emit. Qed.

(** Peels the last primitive step off the state on the right. *)
Local Ltac peel :=
  lazymatch goal with
  | |- R _ (log _ _ _) => etrans; [|apply step_log]
  | |- R _ (sleep _ _) => etrans; [|apply step_sleep]
  | |- R _ (increment_stat _ _ _) => etrans; [|apply R_incr; lia]
  | |- R _ (update_stat_current_version _ _) => etrans; [|apply R_update]
  end.

Lemma step_foldl {A} (f : engine → A → engine) l s :
  (∀ s x, x ∈ l → R s (f s x)) → R s (foldl f s l).
Proof.
  revert s. induction l as [|x l IH]; intros s Hf; cbn; [done|].
  etrans; [apply Hf; by left|]. apply IH. intros t y Hy. apply Hf. by right.
Qed.

Lemma step_check_version_exists v s : R s (check_version_exists E v s).2.
Proof.
  unfold check_version_exists.
  destruct (version_exists_cache s !! v) as [b|] eqn:Hv; [done|].
  pose proof (R_request HEAD (BASE_CDN_URL +:+ "/" +:+ v +:+ "/") s) as H1.
  rewrite session_request_spec in H1 |- *. cbn [snd] in H1.
  destruct (net E (requests s) HEAD _) as [|status body complete]; cbn [snd].
  { etrans; [exact H1|]. by apply R_cache. }
  destruct (status_exists status); cbn [snd].
  { etrans; [exact H1|]. by apply R_cache. }
  match type of H1 with R _ ?t => set (s1 := t) in * end.
  pose proof (R_request HEAD (BASE_CDN_URL +:+ "/" +:+ v +:+ "/CHANGELOG") s1) as H2.
  rewrite session_request_spec in H2 |- *. cbn [snd] in H2.
  destruct (net E (requests s1) HEAD _); cbn [snd];
    (etrans; [exact H1|]); (etrans; [exact H2|]); by apply R_cache.
Qed.

Lemma step_download_attempt url v a f s :
  ok v → ok a → ok f → R s (download_attempt E url v a f s).2.
Proof.
  intros Hv Ha Hf. unfold download_attempt.
  assert (Hok : Forall ok [v; a; f]) by by repeat constructor.
  change (out_path E v a f) with (output_dir E ++ [v; a; f]).
  destruct (present_nonempty E (fs s) _); cbn [snd].
  { repeat peel. done. }
  pose proof (R_request GET url s) as H1.
  rewrite session_request_spec in H1 |- *. cbn [snd] in H1.
  match type of H1 with R _ ?t => set (s1 := t) in * end.
  destruct (net E (requests s) GET url) as [|status body complete]; [done|].
  destruct (status =? 404); [done|].
  destruct (raise_for_status status); [done|].
  destruct (FS.mkdir_parents (fs s1) (FS.parent (output_dir E ++ [v; a; f])))
    as [f1|] eqn:Hm; [|done].
  apply (mkdir_parents_touches E v a f) in Hm as [Hm _].
  change (out_path E v a f) with (output_dir E ++ [v; a; f]) in Hm.
  destruct (FS.open_w f1 (output_dir E ++ [v; a; f])) as [f2|] eqn:Ho; cbn [snd].
  { apply open_w_spec in Ho as (-> & _ & _ & _).
    destruct (write_chunks_spec (output_dir E ++ [v; a; f]) body
                (<[output_dir E ++ [v; a; f] := File []]> f1) [])
      as (f3 & Hw & _ & Hfr); [apply lookup_insert_eq|].
    rewrite Hw.
    assert (H3 : R s1 (with_fs f3 s1)).
    { apply R_fs. apply (touches_only_confined _ _ [v; a; f]); [done|].
      eapply touches_only_trans; [exact Hm|].
      intros q Hq. left. rewrite Hfr by done. by rewrite lookup_insert_ne. }
    destruct complete; cbn [snd].
    - repeat peel. etrans; [exact H1|exact H3].
    - etrans; [exact H1|exact H3]. }
  etrans; [exact H1|]. apply R_fs.
  by apply (touches_only_confined _ _ [v; a; f]).
Qed.

Lemma step_remove_partial v a f s :
  ok v → ok a → ok f → R s (remove_partial (out_path E v a f) s).
Proof.
  intros Hv Ha Hf.
  unfold remove_partial. destruct (FS.exists_ _ _); [|done].
  unfold FS.unlink. destruct (FS.node_at _ _) as [[c|]|]; [|done..].
  apply R_fs. apply (touches_only_confined _ _ [v; a; f]); [by repeat constructor|].
  intros q Hq. left. by rewrite lookup_delete_ne.
Qed.

Lemma step_download_file url v a f retry_count s b s' :
  ok v → ok a → ok f →
  download_file E url v a f retry_count s = Some (b, s') → R s s'.
Proof.
  intros Hv Ha' Hf.
  unfold download_file.
  generalize (Z.to_nat (max_retries E - retry_count)) as fuel.
  intros fuel. revert retry_count s.
  induction fuel as [|fuel IH]; intros rc s; cbn;
    pose proof (step_download_attempt url v a f s Hv Ha' Hf) as Ha;
    destruct (download_attempt E url v a f s) as [[r|] s1]; cbn [snd] in Ha.
  - by intros [= <- <-].
  - destruct (rc <? max_retries E); [done|]. intros [= <- <-].
    etrans; [|by apply step_remove_partial]. repeat peel. done.
  - by intros [= <- <-].
  - destruct (rc <? max_retries E).
    + intros Hd. apply IH in Hd. etrans; [|exact Hd]. repeat peel. done.
    + intros [= <- <-].
      etrans; [|by apply step_remove_partial]. repeat peel. done.
Qed.

Lemma step_process_version v s : ok v → R s (process_version E v s).2.
Proof.
  intros Hok. unfold process_version.
  pose proof (step_check_version_exists v s) as Hc.
  pose proof (check_version_exists_caches E v s) as Hv.
  destruct (check_version_exists E v s) as [b s1]; cbn [fst snd] in Hc, Hv.
  destruct b; cbn [negb snd]; [|done].
  etrans; [|apply step_foldl].
  - repeat peel. etrans; [|apply (R_found {[v]})].
    + repeat peel. done.
    + intros w ->%elem_of_singleton. by autorewrite with engine.
  - intros t [[url a] f] Hin.
    destruct (ok_targets v url a f Hok Hin) as [Ha Hf].
    destruct (download_file E url v a f 0 t) as [[b t']|] eqn:Hd; [|done].
    exact (step_download_file url v a f 0 t b t' Hok Ha Hf Hd).
Qed.

Lemma step_save_found_versions s : R s (save_found_versions E s).
Proof.
  unfold save_found_versions.
  destruct (FS.open_w _ _) as [f|] eqn:Ho; [|apply step_log].
  apply open_w_spec in Ho as (-> & _ & _ & _).
  etrans; [|apply step_log]. apply R_fs.
  apply (touches_only_confined _ _ ["found_versions.json"%string]);
    [by repeat constructor|].
  intros q Hq. left. unfold FS.append. rewrite lookup_insert_eq.
  by rewrite !lookup_insert_ne.
Qed.

Lemma step_save_stats s : R s (save_stats E s).
Proof.
  unfold save_stats.
  destruct (match gui s with Some g => _ | None => _ end) as [counters current].
  destruct (FS.open_w _ _) as [f|] eqn:Ho; [|apply step_log].
  apply open_w_spec in Ho as (-> & _ & _ & _).
  etrans; [|apply step_log]. apply R_fs.
  apply (touches_only_confined _ _ ["download_stats.json"%string]);
    [by repeat constructor|].
  intros q Hq. left. unfold FS.append. rewrite lookup_insert_eq.
  by rewrite !lookup_insert_ne.
Qed.

Lemma step_probe_step existing s v : R s (probe_step E (existing, s) v).2.
Proof.
  unfold probe_step.
  pose proof (step_check_version_exists v s) as Hc.
  destruct (check_version_exists E v s) as [b s1]; cbn [snd] in Hc.
  destruct b; cbn [snd]; repeat peel; done.
Qed.

Lemma step_probe_all vs s : R s (probe_all E vs s).2.
Proof.
  unfold probe_all. generalize (probe_order E vs) as l.
  generalize (@nil string) as existing. intros existing l. revert existing s.
  induction l as [|v l IH]; intros existing s; cbn [foldl]; [done|].
  pose proof (step_probe_step existing s v) as Hs.
  destruct (probe_step E (existing, s) v) as [existing' s1]; cbn [snd] in Hs.
  etrans; [done|apply IH].
Qed.

Lemma step_download_each total i vs s :
  Forall ok vs → R s (download_each E total i vs s).2.
Proof.
  revert i s. induction vs as [|v vs IH]; intros i s Hvs; cbn; [done|].
  apply Forall_cons in Hvs as [Hv Hvs].
  destruct (stop_check E s) as [[|]|]; cbn [snd].
  - apply step_log.
  - etrans; [apply step_log|]. etrans; [by apply step_process_version|].
    by apply IH.
  - done.
Qed.

Lemma step_scan_versions_range_and_download a b w s :
  R s (scan_versions_range_and_download E a b w s).2.
Proof.
  unfold scan_versions_range_and_download.
  destruct (parse_int E _) as [start_major|]; [|done].
  destruct (parse_minor E _ 0) as [start_minor|]; [|done].
  destruct (parse_int E _) as [end_major|]; [|done].
  destruct (parse_minor E _ 50) as [end_minor|]; [|done].
  set (all := generate_all_version_numbers _ _ _ _).
  set (s0 := log (MsgGenerated (Z.of_nat (length all))) INFO s).
  destruct (w <=? 0); [apply step_log|].
  pose proof (step_probe_all all s0) as Hp.
  pose proof (probe_all_existing_cached E all s0) as Hex.
  pose proof (probe_all_subset E all s0) as Hsub.
  destruct (probe_all E all s0) as [existing s1]; cbn [fst snd] in *.
  assert (Hok : Forall ok (sorted existing)).
  { apply Forall_forall. intros v Hv. unfold all in Hsub.
    eapply ok_candidates, Hsub.
    unfold sorted in Hv. by rewrite merge_sort_Permutation in Hv. }
  match goal with |- context [download_each E ?n ?i ?l ?t] =>
    pose proof (step_download_each n i l t Hok) as Hd;
    assert (Ht : R s t);
    [|destruct (download_each E n i l t) as [c s2]] end.
  { etrans; [|apply step_save_found_versions].
    etrans.
    2:{ rewrite (comm_L (∪)). apply R_found.
        intros v Hv%elem_of_list_to_set. autorewrite with engine. by apply Hex. }
    peel. etrans; [|exact Hp]. unfold s0. peel. done. }
  cbn [snd] in Hd.
  destruct c; cbn [snd]; [|by etrans].
  etrans; [|apply step_save_stats]. by etrans.
Qed.

Lemma step_scan_rss_for_versions s : R s (scan_rss_for_versions E s).2.
Proof.
  unfold scan_rss_for_versions.
  pose proof (R_request GET RSS_URL s) as H1.
  rewrite session_request_spec in H1 |- *. cbn [snd] in H1.
  destruct (net E (requests s) GET RSS_URL) as [|status body [|]]; cbn [snd].
  - etrans; [done|apply step_log].
  - etrans; [done|]. apply step_foldl. intros t v _. apply step_log.
  - etrans; [done|apply step_log].
Qed.

Lemma step_scan_version v s : ok v → R s (scan_version E v s).
Proof.
  intros Hv. unfold scan_version.
  etrans; [apply step_log|]. etrans; [by apply step_process_version|].
  etrans; [apply step_save_found_versions|].
  etrans; [apply step_save_stats|]. apply step_log.
Qed.

Lemma step_check_rss s : R s (check_rss E s).
Proof.
  unfold check_rss.
  pose proof (step_scan_rss_for_versions
                (log (MsgOther "Checking RSS for new versions...") INFO s)) as Hr.
  pose proof (scan_rss_for_versions_subset E
                (log (MsgOther "Checking RSS for new versions...") INFO s)) as Hsub.
  destruct (scan_rss_for_versions E _) as [new s1]; cbn [fst snd] in Hr, Hsub.
  etrans; [apply step_log|]. etrans; [done|].
  destruct new as [|v new]; [apply step_log|].
  etrans; [apply step_log|].
  etrans;
    [apply (step_foldl
              (λ t w, (process_version E w
                         (log (MsgOther "Downloading version") INFO t)).2)
              (v :: new));
     intros t w [text Hw]%Hsub; etrans;
       [apply step_log|apply step_process_version; by eapply ok_feed]|].
  etrans; [apply step_save_found_versions|].
  etrans; [apply step_save_stats|]. apply step_log.
Qed.

(** Every operation but the reload of the persisted record. *)
Lemma step_exec o s :
  o ≠ OpLoadPersisted → Forall ok (operation_components o) → R s (exec E o s).
Proof.
  intros Ho Hok. destruct o; cbn in *; [done|..].
  - apply step_check_version_exists.
  - apply Forall_cons in Hok as [Hv Hok]. apply Forall_cons in Hok as [Ha Hok].
    apply Forall_cons in Hok as [Hf _].
    destruct (download_file _ _ _ _ _ _ _) as [[b s']|] eqn:Hd; [|done].
    exact (step_download_file _ _ _ _ _ _ _ _ Hv Ha Hf Hd).
  - apply Forall_cons in Hok as [Hv _]. by apply step_process_version.
  - apply step_save_found_versions.
  - apply step_save_stats.
  - apply step_scan_versions_range_and_download.
  - apply step_scan_rss_for_versions.
  - apply Forall_cons in Hok as [Hv _]. by apply step_scan_version.
  - apply step_check_rss.
Qed.

Lemma step_run ops s :
  OpLoadPersisted ∉ ops → Forall (λ o, Forall ok (operation_components o)) ops →
  R s (run E ops s).
Proof.
  unfold run. revert s. induction ops as [|o ops IH]; intros s Hno Hok; cbn; [done|].
  apply Forall_cons in Hok as [Ho Hok].
  etrans; [apply step_exec|apply IH].
  - intros ->. apply Hno. by left.
  - done.
  - intros Hin. apply Hno. by right.
  - done.
Qed.

(** With the reload as well, when the relation allows any version to be
    added. *)
Lemma step_run_with_load ops s :
  (∀ v t, R t (with_found ({[v]} ∪ found_versions t) t)) →
  Forall (λ o, Forall ok (operation_components o)) ops →
  R s (run E ops s).
Proof.
  intros Hload. unfold run. revert s.
  induction ops as [|o ops IH]; intros s Hok; cbn; [done|].
  apply Forall_cons in Hok as [Hok Hoks].
  etrans; [|by apply IH].
  assert (Hcase : o = OpLoadPersisted ∨ o ≠ OpLoadPersisted)
    by (destruct o; (by left) || (by right)).
  destruct Hcase as [->|Ho]; [|by apply step_exec].
  cbn. unfold _load_persisted. destruct (FS.exists_ _ _); [|done].
  destruct (FS.read _ _); [|done].
  apply step_foldl. intros t v _. apply Hload.
Qed.
End Stepwise.

(** ** What every run of the engine keeps *)

#[global] Instance counts_up_preorder : PreOrder counts_up.
Proof.
  split.
  - intros s. by repeat split.
  - intros s1 s2 s3 (Ha1 & Hc1 & Hr1) (Ha2 & Hc2 & Hr2). split_and!.
    + by rewrite Ha1.
    + intros key. etrans; [apply Hc1|apply Hc2].
    + lia.
Qed.

#[global] Instance confirmed_growth_preorder : PreOrder confirmed_growth.
Proof.
  split.
  - intros s. split; [done|]. intros v Hv. by left.
  - intros s1 s2 s3 [Hc1 Hf1] [Hc2 Hf2]. split; [by etrans|].
    intros v Hv. destruct (Hf2 v Hv) as [Hv2|?]; [|by right].
    destruct (Hf1 v Hv2) as [?|Ht]; [by left|].
    right. by eapply lookup_weaken.
Qed.

#[global] Instance stays_inside_preorder E : PreOrder (stays_inside E).
Proof.
  split.
  - intros s. apply confined_refl.
  - intros s1 s2 s3. apply confined_trans.
Qed.

Lemma counts_up_same_gui s s' :
  gui s' = gui s → (requests s ≤ requests s')%nat → counts_up s s'.
Proof.
  intros Hg Hr. split_and!; [by rewrite Hg| |done].
  intros key. by rewrite (counter_gui s s').
Qed.

Lemma counts_up_increment_stat key amount s :
  0 ≤ amount → counts_up s (increment_stat key amount s).
Proof.
  intros Ha. split_and!.
  - symmetry. apply gui_increment_stat_attached.
  - intros key'. rewrite counter_increment_stat. unfold counter.
    destruct (gui s); [|done]. case_decide; lia.
  - by rewrite requests_increment_stat.
Qed.

(** X5. Along any sequence of engine operations no counter of the stats
    sink goes down, a sink stays attached if and only if it was, and the
    number of requests issued does not go down either. *)
Theorem counters_never_decrease E ops s :
  (is_Some (gui s) ↔ is_Some (gui (run E ops s)))
  ∧ (∀ key, counter s key ≤ counter (run E ops s) key)
  ∧ (requests s ≤ requests (run E ops s))%nat.
Proof.
  apply (step_run_with_load E (λ _, True) counts_up).
  - intros e t. by apply counts_up_same_gui.
  - intros m url t. apply counts_up_same_gui; cbn; [done|lia].
  - intros f t _. by apply counts_up_same_gui.
  - intros key amount t. apply counts_up_increment_stat.
  - intros v t. unfold update_stat_current_version. split_and!.
    + destruct (gui t) as [g|] eqn:Hg; cbn; [|by rewrite Hg].
      split; eauto.
    + intros key. unfold counter. destruct (gui t) as [g|] eqn:Hg; cbn; [done|].
      by rewrite Hg.
    + by destruct (gui t).
  - intros v b t _. by apply counts_up_same_gui.
  - intros X t _. by apply counts_up_same_gui.
  - done.
  - done.
  - done.
  - done.
  - done.
  - intros v t. by apply counts_up_same_gui.
  - apply Forall_true. intros o. by apply Forall_true.
Qed.

(** X6. Along any sequence of operations that does not reload the
    persisted record, a version enters the found set only after a probe
    said it exists: every found version of the final state was found
    before or is cached as existing. No cache entry is dropped or changed
    on the way. *)
Theorem found_versions_are_confirmed E ops s :
  OpLoadPersisted ∉ ops →
  version_exists_cache s ⊆ version_exists_cache (run E ops s)
  ∧ ∀ v, v ∈ found_versions (run E ops s) →
         v ∈ found_versions s
         ∨ version_exists_cache (run E ops s) !! v = Some true.
Proof.
  intros Hno.
  apply (step_run E (λ _, True) confirmed_growth);
    [..|done|apply Forall_true; intros o; by apply Forall_true].
  - intros e t. split; [done|]. intros v Hv. by left.
  - intros m url t. split; [done|]. intros v Hv. by left.
  - intros f t _. split; [done|]. intros v Hv. by left.
  - intros key amount t _. unfold increment_stat.
    destruct (gui t); (split; [done|]); intros v Hv; by left.
  - intros v t. unfold update_stat_current_version.
    destruct (gui t); (split; [done|]); intros w Hw; by left.
  - intros v b t Hnone. split; [by apply insert_subseteq|].
    intros w Hw. by left.
  - intros X t HX. split; [done|]. cbn. intros v [Hv|Hv]%elem_of_union.
    + right. by apply HX.
    + by left.
  - done.
  - done.
  - done.
  - done.
  - done.
Qed.

(** The theorem at work: 6.51 processed on a server whose directories
    answer 200. *)
Lemma found_versions_are_confirmed_witness :
  version_exists_cache Demo.fresh
  ⊆ version_exists_cache
      (run (Demo.env 3 (Demo.always 200)) [OpProcessVersion "6.51"] Demo.fresh)
  ∧ ∀ v,
      v ∈ found_versions
            (run (Demo.env 3 (Demo.always 200)) [OpProcessVersion "6.51"] Demo.fresh) →
      v ∈ found_versions Demo.fresh
      ∨ version_exists_cache
          (run (Demo.env 3 (Demo.always 200)) [OpProcessVersion "6.51"] Demo.fresh) !! v
        = Some true.
Proof.
  apply (found_versions_are_confirmed (Demo.env 3 (Demo.always 200))
           [OpProcessVersion "6.51"] Demo.fresh).
  intros Hin. apply list_elem_of_singleton in Hin. discriminate.
Defined.

(** X7. Take operations whose version, architecture and file name
    arguments are plain path components, on pools and sets that yield
    nothing but what they were given. Along any sequence of them the disk
    changes only at paths that lie below the output directory and are made
    of plain components there: every other path keeps its node, except
    that a missing directory on the way to the output directory may be
    created. The versions that the generator and the feed pattern supply
    are plain by themselves. (Log lines are events of the trace; a log
    file of the sink is not on the modelled disk.) *)
Theorem engine_stays_inside_output_dir E ops s :
  (∀ l v, v ∈ probe_order E l → v ∈ l) →
  (∀ l t, t ∈ download_order E l → t ∈ l) →
  (∀ X v, v ∈ set_order E X → v ∈ X) →
  Forall (λ o, Forall plain (operation_components o)) ops →
  ∀ q, fs (run E ops s) !! q = fs s !! q
       ∨ (∃ l, q = output_dir E ++ l ∧ Forall plain l)
       ∨ (q `prefix_of` output_dir E
          ∧ fs s !! q = None ∧ fs (run E ops s) !! q = Some Dir).
Proof.
  intros Hprobe Hdownload Hset Hops.
  apply (step_run_with_load E plain (stays_inside E)); [..|exact Hops].
  - intros e t. apply confined_refl.
  - intros m url t. apply confined_refl.
  - intros f t Hf. exact Hf.
  - intros key amount t _. unfold stays_inside. rewrite fs_increment_stat.
    apply confined_refl.
  - intros v t. unfold stays_inside. rewrite fs_update_stat. apply confined_refl.
  - intros v b t _. apply confined_refl.
  - intros X t _. apply confined_refl.
  - reflexivity.
  - reflexivity.
  - intros v url a f Hv Hin%Hdownload. by eapply targets_plain.
  - intros a b c d v Hv%Hprobe. by eapply generated_plain.
  - intros text v Hv%Hset%elem_of_list_to_set.
    apply (findall_go_sound 0) in Hv as (_ & _ & _ & _ & _ & Hv).
    by apply version_token_plain.
  - intros v t. apply confined_refl.
Qed.

(** The theorem at work: 6.51 processed and 7.1 scanned on a server that
    answers every request with status 200; the file of 6.51 for [arm]
    lies where the theorem says. *)
Lemma engine_stays_inside_output_dir_witness :
  Forall (λ o, Forall plain (operation_components o))
         [OpProcessVersion "6.51"; OpScanVersion "7.1"]
  ∧ (fs (run (Demo.env 3 (Demo.always 200))
             [OpProcessVersion "6.51"; OpScanVersion "7.1"] Demo.fresh)
       !! ["archive"; "6.51"; "arm"; "routeros-arm-6.51.npk"]%string
     = fs Demo.fresh !! ["archive"; "6.51"; "arm"; "routeros-arm-6.51.npk"]%string
     ∨ (∃ l, ["archive"; "6.51"; "arm"; "routeros-arm-6.51.npk"]%string
             = output_dir (Demo.env 3 (Demo.always 200)) ++ l
             ∧ Forall plain l)
     ∨ (["archive"; "6.51"; "arm"; "routeros-arm-6.51.npk"]%string
          `prefix_of` output_dir (Demo.env 3 (Demo.always 200))
        ∧ fs Demo.fresh !! ["archive"; "6.51"; "arm"; "routeros-arm-6.51.npk"]%string
          = None
        ∧ fs (run (Demo.env 3 (Demo.always 200))
                  [OpProcessVersion "6.51"; OpScanVersion "7.1"] Demo.fresh)
            !! ["archive"; "6.51"; "arm"; "routeros-arm-6.51.npk"]%string
          = Some Dir)).
Proof.
  assert (Hops : Forall (λ o, Forall plain (operation_components o))
                        [OpProcessVersion "6.51"; OpScanVersion "7.1"]).
  { repeat constructor. }
  split; [exact Hops|].
  apply (engine_stays_inside_output_dir (Demo.env 3 (Demo.always 200))
           [OpProcessVersion "6.51"; OpScanVersion "7.1"] Demo.fresh).
  - intros l v Hv. exact Hv.
  - intros l t Ht. exact Ht.
  - intros X v Hv. apply elem_of_elements. exact Hv.
  - exact Hops.
Defined.


(** ** The probe phase of a scan *)

Section ProbePhase.
Context (E : Env).

Lemma probe_step_spec (existing : list string) (t : engine) (v : string) :
  ∃ (b : bool) (t1 : engine),
    probe_step E (existing, t) v
    = (if b then existing ++ [v] else existing, t1)
    ∧ version_exists_cache t ⊆ version_exists_cache t1
    ∧ version_exists_cache t1 !! v = Some b
    ∧ (requests t ≤ requests t1 ≤ requests t + 2)%nat
    ∧ (is_Some (version_exists_cache t !! v) →
       version_exists_cache t1 = version_exists_cache t
       ∧ requests t1 = requests t).
Proof.
  unfold probe_step.
  pose proof (grows_check_version_exists E v t) as (_ & Hc & _).
  pose proof (check_version_exists_caches E v t) as Hv.
  assert (Hreq : (requests t ≤ requests (check_version_exists E v t).2
                  ≤ requests t + 2)%nat
                 ∧ (is_Some (version_exists_cache t !! v) →
                    (check_version_exists E v t).2 = t)).
  { unfold check_version_exists.
    destruct (version_exists_cache t !! v) as [b|] eqn:Hcv.
    { cbn. split; [lia|done]. }
    split; [|by intros [? ?]].
    rewrite session_request_spec.
    destruct (net E (requests t) HEAD _) as [|status body complete];
      [cbn; lia|].
    destruct (status_exists status); [cbn; lia|].
    rewrite session_request_spec. cbn [requests].
    destruct (net E (S (requests t)) HEAD _); cbn; lia. }
  destruct Hreq as [Hreq Hcached].
  destruct (check_version_exists E v t) as [b t1]; cbn [fst snd] in *.
  exists b.
  assert (Htail : ∀ u : engine,
            version_exists_cache u = version_exists_cache t1 →
            requests u = requests t1 →
            version_exists_cache t ⊆ version_exists_cache u
            ∧ version_exists_cache u !! v = Some b
            ∧ (requests t ≤ requests u ≤ requests t + 2)%nat
            ∧ (is_Some (version_exists_cache t !! v) →
               version_exists_cache u = version_exists_cache t
               ∧ requests u = requests t)).
  { intros u Hcu Hru. rewrite Hcu, Hru. split_and!; try done; try lia.
    intros Hs. by rewrite (Hcached Hs). }
  destruct b; eexists; (split; [reflexivity|]); apply Htail;
    by autorewrite with engine.
Qed.

(** The fold of the probe phase, from any accumulator. *)
Lemma probe_fold_spec (l : list string) existing t :
  ∃ t',
    foldl (probe_step E) (existing, t) l
    = (existing ++ filter (λ v, version_exists_cache t' !! v = Some true) l, t')
    ∧ version_exists_cache t ⊆ version_exists_cache t'
    ∧ (∀ v, v ∈ l → is_Some (version_exists_cache t' !! v))
    ∧ (requests t ≤ requests t' ≤ requests t + 2 * length l)%nat
    ∧ ((∀ v, v ∈ l → is_Some (version_exists_cache t !! v)) →
       version_exists_cache t' = version_exists_cache t
       ∧ requests t' = requests t).
Proof.
  revert existing t. induction l as [|x l IH]; intros existing t.
  - exists t. cbn. rewrite app_nil_r.
    split; [done|]. split; [done|]. split; [|split; [lia|done]].
    intros v Hv. by apply elem_of_nil in Hv.
  - cbn [foldl].
    destruct (probe_step_spec existing t x) as (b & t1 & -> & Hc1 & Hx & Hr1 & Hk1).
    destruct (IH (if b then existing ++ [x] else existing) t1)
      as (t' & -> & Hc' & Hall & Hr' & Hk').
    exists t'. split; [|split; [|split; [|split]]].
    + f_equal. pose proof (lookup_weaken _ _ _ _ Hx Hc') as Hx'.
      destruct b.
      * rewrite filter_cons_True by done. by rewrite <-app_assoc.
      * rewrite filter_cons_False; [done|]. by rewrite Hx'.
    + by etrans.
    + intros v [->|Hv]%elem_of_cons; [|by apply Hall].
      exists b. by eapply lookup_weaken.
    + cbn [length]. lia.
    + intros Hl.
      destruct Hk1 as [Hcache1 Hreq1]; [apply Hl; by left|].
      destruct Hk' as [Hcache' Hreq'].
      { intros v Hv. rewrite Hcache1. apply Hl. by right. }
      split; congruence.
Qed.

(** X8. The probe phase of a scan returns, in completion order, exactly
    the candidates that the cache then records as existing; afterwards
    every candidate is cached, at most two requests per candidate were
    issued, and a second probe phase over the same candidates issues no
    request, leaves the cache as it is and returns the same versions. *)
Theorem probe_all_agrees_with_cache vs s :
  (probe_all E vs s).1
  = filter (λ v, version_exists_cache (probe_all E vs s).2 !! v = Some true)
           (probe_order E vs)
  ∧ (∀ v, v ∈ probe_order E vs →
          is_Some (version_exists_cache (probe_all E vs s).2 !! v))
  ∧ (requests (probe_all E vs s).2 ≤ requests s + 2 * length (probe_order E vs))%nat
  ∧ (probe_all E vs (probe_all E vs s).2).1 = (probe_all E vs s).1
  ∧ requests (probe_all E vs (probe_all E vs s).2).2 = requests (probe_all E vs s).2
  ∧ version_exists_cache (probe_all E vs (probe_all E vs s).2).2
    = version_exists_cache (probe_all E vs s).2.
Proof.
  unfold probe_all.
  destruct (probe_fold_spec (probe_order E vs) [] s)
    as (t' & -> & Hc & Hall & Hr & _).
  cbn [fst snd].
  destruct (probe_fold_spec (probe_order E vs) [] t')
    as (t'' & -> & _ & _ & _ & Hk).
  destruct (Hk Hall) as [Hcache Hreq]. cbn [fst snd app].
  rewrite Hcache. split_and!; try done. lia.
Qed.
End ProbePhase.

(** ** Persistent State Store: properties *)

Lemma parent_versions_file (E : Env) : FS.parent (versions_file E) = output_dir E.
Proof. unfold FS.parent, versions_file. apply removelast_last. Qed.

Lemma versions_file_not_prefix (E : Env) (q : path) :
  q `prefix_of` output_dir E → q ≠ versions_file E.
Proof.
  intros [k Hk] ->. apply (f_equal length) in Hk. unfold versions_file in Hk.
  rewrite !length_app in Hk. cbn in Hk. lia.
Qed.

Lemma is_dir_output_dir (E : Env) (f : gmap path node) :
  (∀ q, q ∈ FS.prefixes (output_dir E) → FS.is_dir f q = true) →
  FS.is_dir f (output_dir E) = true.
Proof.
  intros Hd. destruct (output_dir E) as [|c p] eqn:Ho; [done|].
  apply Hd. apply elem_of_prefixes. split; [done|reflexivity].
Qed.

(** Adding versions one by one, as the reload does. *)
Lemma foldl_add_found (l : list string) (s : engine) :
  let s' := foldl (λ s v, with_found ({[v]} ∪ found_versions s) s) s l in
  found_versions s' = list_to_set l ∪ found_versions s
  ∧ fs s' = fs s ∧ gui s' = gui s ∧ trace s' = trace s
  ∧ version_exists_cache s' = version_exists_cache s
  ∧ requests s' = requests s.
Proof.
  revert s. induction l as [|v l IH]; intros s; cbn [foldl].
  - cbn. split; [by rewrite (left_id_L ∅ (∪))|done].
  - destruct (IH (with_found ({[v]} ∪ found_versions s) s))
      as (Hf & Hfs & Hg & Ht & Hc & Hr).
    cbn zeta. rewrite Hf, Hfs, Hg, Ht, Hc, Hr. cbn. split; [|done].
    apply set_eq. intros x. rewrite !elem_of_union. tauto.
Qed.

Lemma sorted_spec (l : list string) : Sorted string_le (sorted l) ∧ sorted l ≡ₚ l.
Proof.
  split.
  - apply Sorted_merge_sort. intros a b. apply String.leb_total.
  - apply merge_sort_Permutation.
Qed.

(** What a save that can open its file leaves on disk. *)
Lemma save_found_versions_disk (E : Env) (s : engine) :
  FS.is_dir (fs s) (output_dir E) = true →
  FS.is_dir (fs s) (versions_file E) = false →
  save_found_versions E s
  = log MsgSavedVersions INFO
      (with_fs (<[versions_file E :=
                    File (json_dump_versions E (sorted (elements (found_versions s)))
                                             (utcnow E (length (trace s))))]> (fs s)) s).
Proof.
  intros Hdir Hfile. unfold save_found_versions, FS.open_w.
  rewrite parent_versions_file, Hdir, Hfile.
  destruct (versions_file E) eqn:Hv.
  { unfold versions_file in Hv. by destruct (output_dir E). }
  cbn [andb negb]. rewrite <-Hv.
  unfold FS.append. rewrite lookup_insert_eq, insert_insert_eq. done.
Qed.

(** X9. When the output directory and the directories that lead to it
    exist, the found-versions path is not a directory, and the codec reads
    back the list it is about to write, then an engine constructed on the
    disk that [save_found_versions] leaves starts with exactly the found
    set that was saved, with an empty probe cache and an empty trace. *)
Theorem saved_versions_survive_restart (E : Env) (s : engine) (g : option gui_state) :
  (∀ q, q ∈ FS.prefixes (output_dir E) → FS.is_dir (fs s) q = true) →
  FS.is_dir (fs s) (versions_file E) = false →
  json_load_versions E
    (json_dump_versions E (sorted (elements (found_versions s)))
                        (utcnow E (length (trace s))))
  = sorted (elements (found_versions s)) →
  ∃ s',
    __init__ E (fs (save_found_versions E s)) g = Some s'
    ∧ found_versions s' = found_versions s
    ∧ version_exists_cache s' = ∅
    ∧ gui s' = g
    ∧ trace s' = [].
Proof.
  intros Hdirs Hfile Hcodec.
  rewrite save_found_versions_disk by (by apply is_dir_output_dir || done).
  rewrite fs_log, fs_with_fs. unfold __init__.
  set (content := json_dump_versions E _ _) in *.
  set (f1 := <[versions_file E := File content]> (fs s)).
  pose proof (mkdir_parents_spec f1 (output_dir E)) as Hm.
  destruct (FS.mkdir_parents f1 (output_dir E)) as [f2|].
  2:{ destruct Hm as (q & Hq & Hisfile). exfalso.
      pose proof (Hdirs q Hq) as Hd. apply elem_of_prefixes in Hq as [Hne Hpre].
      pose proof (versions_file_not_prefix E q Hpre) as Hneq.
      unfold FS.is_file, FS.is_dir, FS.node_at in *.
      destruct q as [|c q]; [done|]. unfold f1 in Hisfile.
      rewrite lookup_insert_ne in Hisfile by done.
      destruct (fs s !! (c :: q)) as [[?|]|]; done. }
  destruct Hm as [_ Hl].
  assert (Hvf : f2 !! versions_file E = Some (File content)).
  { rewrite Hl. rewrite decide_False.
    - apply lookup_insert_eq.
    - intros [_ Hpre]%elem_of_prefixes. by apply (versions_file_not_prefix E) in Hpre. }
  eexists. split; [reflexivity|].
  unfold _load_persisted, FS.exists_, FS.read, FS.node_at. cbn [fs].
  destruct (versions_file E) eqn:Hv.
  { unfold versions_file in Hv. by destruct (output_dir E). }
  rewrite Hvf.
  match goal with |- context [foldl ?f ?a ?l] =>
    destruct (foldl_add_found l a) as (Hf & _ & Hg & Ht & Hc & _) end.
  cbn zeta in *. rewrite Hf, Hg, Ht, Hc. cbn. split_and!; try done.
  rewrite Hcodec.
  rewrite (list_to_set_perm_L _ (elements (found_versions s)))
    by apply sorted_spec.
  by rewrite list_to_set_elements_L, (right_id_L ∅ (∪)).
Qed.

(** The theorem at work: two versions, saved and found again. *)
Lemma saved_versions_survive_restart_witness :
  ∃ s',
    __init__ Restart.env (fs (save_found_versions Restart.env Restart.engine)) None
    = Some s'
    ∧ found_versions s' = found_versions Restart.engine.
Proof.
  destruct (saved_versions_survive_restart Restart.env Restart.engine None)
    as (s' & H1 & H2 & _).
  - intros q Hq. apply elem_of_prefixes in Hq as [Hne [k Hk]].
    destruct q as [|c q]; [done|]. cbn in Hk. injection Hk as <- Hk.
    destruct q; [|done]. vm_compute. reflexivity.
  - vm_compute. reflexivity.
  - vm_compute. reflexivity.
  - exists s'. auto.
Defined.


(** ** The version pattern: properties *)

(** X11. Every string that the pattern search returns stands in the text
    right after [RouterOS ] or [RouterOS v] and has the shape
    [digits.digits], optionally followed by [.digits], by [rc digits] and
    by [beta digits], in this order, where a digit is a decimal digit of
    any script, as [\d] matches it in a [str]. Such a string is a plain
    path component: it is not empty, not [.] or [..], and has no slash. *)
Theorem findall_versions_sound (text : string) :
  Forall (λ v, (∃ before pre after,
                  text = before +:+ pre +:+ v +:+ after
                  ∧ (pre = "RouterOS "%string ∨ pre = "RouterOS v"%string)
                  ∧ version_token v)
               ∧ plain_component v = true)
         (findall_versions text).
Proof.
  apply Forall_forall. intros v Hv.
  pose proof (findall_go_sound 0 text v Hv) as Hsound.
  split; [exact Hsound|].
  destruct Hsound as (_ & _ & _ & _ & _ & Htoken).
  by apply version_token_plain.
Qed.

(** ** Processing a version that exists *)

Lemma counter_increment_stat_ne key amount s key' :
  key ≠ key' → counter (increment_stat key amount s) key' = counter s key'.
Proof.
  intros Hne. rewrite counter_increment_stat. unfold counter.
  destruct (gui s); [|done]. by rewrite decide_False.
Qed.

Lemma counter_log m l s key : counter (log m l s) key = counter s key.
Proof. reflexivity. Qed.

Lemma counter_sleep n s key : counter (sleep n s) key = counter s key.
Proof. reflexivity. Qed.

Lemma counter_with_fs f s key : counter (with_fs f s) key = counter s key.
Proof. reflexivity. Qed.

Lemma counter_remove_partial p s key : counter (remove_partial p s) key = counter s key.
Proof. apply counter_gui, gui_remove_partial. Qed.

Lemma probes_app t1 t2 : probes (t1 ++ t2) = probes t1 ++ probes t2.
Proof. apply omap_app. Qed.

Local Ltac not_file_counter Hk :=
  intros <-; apply Hk; unfold file_counters;
  repeat first [apply list_elem_of_here|apply list_elem_of_further].

Section OneDownload.
Context (E : Env) (url version arch filename : string).

Local Abbreviation attempt_ := (download_attempt E url version arch filename).

Lemma download_attempt_effects s :
  ∃ evs,
    trace (attempt_ s).2 = trace s ++ evs
    ∧ (fetches evs = [] ∨ fetches evs = [url])
    ∧ probes evs = []
    ∧ ∀ key, key ∉ file_counters → counter (attempt_ s).2 key = counter s key.
Proof.
  unfold download_attempt.
  destruct (present_nonempty E (fs s) _).
  { exists [Log INFO (MsgSkip filename)]. cbn [snd].
    rewrite trace_increment_stat, trace_log. split; [done|]. split; [by left|].
    split; [done|]. intros key Hk. rewrite counter_increment_stat_ne; [done|].
    not_file_counter Hk. }
  rewrite session_request_spec.
  set (s1 := {| fs := fs s; trace := trace s ++ [Request GET url] |}).
  assert (Hone : ∃ evs, trace s1 = trace s ++ evs
                        ∧ (fetches evs = [] ∨ fetches evs = [url])
                        ∧ probes evs = []
                        ∧ ∀ key, key ∉ file_counters → counter s1 key = counter s key).
  { exists [Request GET url]. split; [done|]. split; [by right|]. done. }
  destruct (net E (requests s) GET url) as [|status body complete]; [done|].
  destruct (status =? 404); [done|].
  destruct (raise_for_status status); [done|].
  destruct (FS.mkdir_parents (fs s1) _) as [f1|]; [|done].
  destruct (FS.open_w f1 _) as [f2|]; [|done].
  destruct (write_chunks _ body f2) as [f3 downloaded].
  destruct complete; [|done]. cbn [snd].
  exists [Request GET url; Log SUCCESS (MsgDownload filename downloaded)].
  rewrite trace_log, !trace_increment_stat, trace_with_fs. unfold s1. cbn [trace].
  split; [by rewrite <-app_assoc|]. split; [by right|]. split; [done|].
  intros key Hk.
  rewrite counter_log, !counter_increment_stat_ne; [done|..]; not_file_counter Hk.
Qed.

(** One download fetches only its own URL, at most once per attempt of the
    budget, probes nothing and touches only the file counters. *)
Lemma download_file_effects retry_count s :
  ∃ b s' evs (n : nat),
    download_file E url version arch filename retry_count s = Some (b, s')
    ∧ trace s' = trace s ++ evs
    ∧ fetches evs = replicate n url
    ∧ Z.of_nat n ≤ Z.max 0 (max_retries E - retry_count) + 1
    ∧ probes evs = []
    ∧ ∀ key, key ∉ file_counters → counter s' key = counter s key.
Proof.
  remember (Z.to_nat (max_retries E - retry_count)) as fuel eqn:Hfuel.
  revert retry_count s Hfuel. induction fuel as [|fuel IH]; intros rc s Hfuel;
    rewrite download_file_unfold;
    destruct (download_attempt_effects s) as (evs & Ht & Hf & Hp & Hc);
    destruct (attempt_ s) as [[b|] s1]; cbn [snd] in *.
  - destruct Hf as [Hf|Hf]; [exists b, s1, evs, 0%nat|exists b, s1, evs, 1%nat];
      rewrite Hf; split_and!; try done; lia.
  - destruct (Z.ltb_spec rc (max_retries E)); [lia|].
    assert (Hfin : ∃ n : nat, fetches (evs ++ [Log ERROR (MsgFailed filename)])
                              = replicate n url ∧ (n ≤ 1)%nat).
    { rewrite fetches_app. cbn. rewrite app_nil_r.
      destruct Hf as [-> | ->]; [exists 0%nat|exists 1%nat]; (split; [done|lia]). }
    destruct Hfin as (n & Hn & Hle).
    eexists _, _, (evs ++ [Log ERROR (MsgFailed filename)]), n.
    split; [done|]. rewrite trace_remove_partial, trace_increment_stat, trace_log, Ht.
    split; [by rewrite <-app_assoc|]. split; [done|]. split; [lia|].
    split; [by rewrite probes_app, Hp|].
    intros key Hk.
    rewrite counter_remove_partial, counter_increment_stat_ne, counter_log;
      [by apply Hc|not_file_counter Hk].
  - destruct Hf as [Hf|Hf]; [exists b, s1, evs, 0%nat|exists b, s1, evs, 1%nat];
      rewrite Hf; split_and!; try done; lia.
  - destruct (Z.ltb_spec rc (max_retries E)).
    + destruct (IH (rc + 1)
                  (sleep (2 ^ rc) (log (MsgRetry (rc + 1) filename (2 ^ rc)) WARNING s1)))
        as (b & s' & evs' & n & Hd & Ht' & Hf' & Hn & Hp' & Hc'); [lia|].
      assert (Hfin : ∃ m : nat,
                fetches (evs ++ [Log WARNING (MsgRetry (rc + 1) filename (2 ^ rc));
                                 Sleep (2 ^ rc)] ++ evs')
                = replicate m url ∧ (m ≤ n + 1)%nat).
      { rewrite !fetches_app, Hf'. cbn.
        destruct Hf as [-> | ->]; [exists n|exists (S n)]; split; try done; lia. }
      destruct Hfin as (m & Hm & Hle).
      exists b, s',
        (evs ++ [Log WARNING (MsgRetry (rc + 1) filename (2 ^ rc)); Sleep (2 ^ rc)] ++ evs'),
        m.
      split; [done|]. split.
      { rewrite Ht', trace_sleep, trace_log, Ht. by rewrite <-!app_assoc. }
      split; [done|]. split; [lia|]. split.
      { rewrite !probes_app, Hp, Hp'. done. }
      intros key Hk. rewrite (Hc' key Hk), counter_sleep, counter_log.
      by apply Hc.
    + assert (Hfin : ∃ n : nat, fetches (evs ++ [Log ERROR (MsgFailed filename)])
                                = replicate n url ∧ (n ≤ 1)%nat).
      { rewrite fetches_app. cbn. rewrite app_nil_r.
        destruct Hf as [-> | ->]; [exists 0%nat|exists 1%nat]; (split; [done|lia]). }
      destruct Hfin as (n & Hn & Hle).
      eexists _, _, (evs ++ [Log ERROR (MsgFailed filename)]), n.
      split; [done|]. rewrite trace_remove_partial, trace_increment_stat, trace_log, Ht.
      split; [by rewrite <-app_assoc|]. split; [done|]. split; [lia|].
      split; [by rewrite probes_app, Hp|].
      intros key Hk.
      rewrite counter_remove_partial, counter_increment_stat_ne, counter_log;
        [by apply Hc|not_file_counter Hk].
Qed.

(** One download leaves the found set and the probe cache alone and, on
    disk, touches only its destination and the missing ancestors of it. *)
Lemma download_file_frame retry_count s b s' :
  download_file E url version arch filename retry_count s = Some (b, s') →
  touches_only (out_path E version arch filename) (fs s) (fs s')
  ∧ found_versions s' = found_versions s
  ∧ version_exists_cache s' = version_exists_cache s.
Proof.
  assert (Hfinal : ∀ t key msg,
            touches_only (out_path E version arch filename) (fs s) (fs t)
            ∧ found_versions t = found_versions s
            ∧ version_exists_cache t = version_exists_cache s →
            let t' := remove_partial (out_path E version arch filename)
                        (increment_stat key 1 (log msg ERROR t)) in
            touches_only (out_path E version arch filename) (fs s) (fs t')
            ∧ found_versions t' = found_versions s
            ∧ version_exists_cache t' = version_exists_cache s).
  { intros t key msg (Hfs & Hfound & Hcache). cbn zeta. split_and!.
    - eapply touches_only_trans; [exact Hfs|].
      intros q Hq. left. rewrite fs_remove_partial_other by done.
      by autorewrite with engine.
    - unfold remove_partial. destruct (FS.exists_ _ _); [|by autorewrite with engine].
      destruct (FS.unlink _ _); by autorewrite with engine.
    - unfold remove_partial. destruct (FS.exists_ _ _); [|by autorewrite with engine].
      destruct (FS.unlink _ _); by autorewrite with engine. }
  revert Hfinal. unfold download_file.
  generalize (Z.to_nat (max_retries E - retry_count)) as fuel.
  intros fuel. revert retry_count s.
  induction fuel as [|fuel IH]; intros rc s Hfinal; cbn;
    destruct (download_attempt_footprint E url version arch filename s)
      as (Hfs & Hfound & Hcache);
    destruct (attempt_ s) as [[r|] s1]; cbn [snd] in *.
  - by intros [= <- <-].
  - destruct (rc <? max_retries E); [done|]. intros [= <- <-]. by apply Hfinal.
  - by intros [= <- <-].
  - destruct (rc <? max_retries E).
    + intros (Hfs' & Hfound' & Hcache')%IH.
      * autorewrite with engine in Hfs', Hfound', Hcache'. split_and!.
        -- eapply touches_only_trans; [exact Hfs|exact Hfs'].
        -- by rewrite Hfound'.
        -- by rewrite Hcache'.
      * intros t key msg (H1 & H2 & H3). cbn zeta. split_and!.
        -- eapply touches_only_trans; [exact H1|].
           intros q Hq. left. rewrite fs_remove_partial_other by done.
           by autorewrite with engine.
        -- unfold remove_partial.
           destruct (FS.exists_ _ _); [|by autorewrite with engine].
           destruct (FS.unlink _ _); by autorewrite with engine.
        -- unfold remove_partial.
           destruct (FS.exists_ _ _); [|by autorewrite with engine].
           destruct (FS.unlink _ _); by autorewrite with engine.
    + intros [= <- <-]. by apply Hfinal.
Qed.
End OneDownload.

Lemma counter_update_stat v s key :
  counter (update_stat_current_version v s) key = counter s key.
Proof.
  unfold counter, update_stat_current_version.
  destruct (gui s) as [g|] eqn:Hg; cbn; [done|by rewrite Hg].
Qed.

Lemma cache_update_stat v s :
  version_exists_cache (update_stat_current_version v s) = version_exists_cache s.
Proof. unfold update_stat_current_version. by destruct (gui s). Qed.

Lemma counter_with_found X s key : counter (with_found X s) key = counter s key.
Proof. reflexivity. Qed.

Section Downloads.
Context (E : Env) (version : string).

Local Abbreviation download_one :=
  (λ (s : engine) '(url, arch, fname),
     match download_file E url version arch fname 0 s with
     | Some (_, s') => s'
     | None => s
     end).

(** The downloads of a version, one after the other: the events split
    into one segment per target. *)
Lemma downloads_effects (l : list (string * string * string)) (t : engine) :
  (∀ url a f, (url, a, f) ∈ l → plain a ∧ plain f) →
  ∃ segs,
    trace (foldl download_one t l) = trace t ++ concat segs
    ∧ Forall2 (one_target E) l segs
    ∧ (∀ key, key ∉ file_counters → counter (foldl download_one t l) key = counter t key)
    ∧ found_versions (foldl download_one t l) = found_versions t
    ∧ version_exists_cache (foldl download_one t l) = version_exists_cache t
    ∧ confined plain (output_dir E ++ [version]) (fs t) (fs (foldl download_one t l)).
Proof.
  revert t. induction l as [|[[url arch] fname] l IH]; intros t Hl.
  - exists []. cbn. rewrite app_nil_r. split_and!; first [done|apply confined_refl|constructor].
  - cbn [foldl].
    destruct (download_file_effects E url version arch fname 0 t)
      as (b & t1 & evs1 & n & Hd & Ht1 & Hf1 & Hn & Hp1 & Hc1).
    destruct (download_file_frame E url version arch fname 0 t b t1 Hd)
      as (Hfs & Hfound & Hcache).
    destruct (Hl url arch fname) as [Harch Hfname]; [by left|].
    cbv beta iota. rewrite Hd.
    destruct (IH t1) as (segs & Ht & Hsegs & Hc & Hfo & Hca & Hco).
    { intros u a f Hin. apply (Hl u). by right. }
    exists (evs1 :: segs). split_and!.
    + cbn [concat]. by rewrite Ht, Ht1, <-app_assoc.
    + constructor; [|done]. split; [done|]. exists n. cbn [fst].
      split; [done|]. rewrite Z.sub_0_r in Hn. done.
    + intros key Hk. rewrite (Hc key Hk). by apply Hc1.
    + by rewrite Hfo.
    + by rewrite Hca.
    + eapply confined_trans; [|exact Hco].
      apply (touches_only_confined plain _ [arch; fname]); [by repeat constructor|].
      unfold out_path in Hfs. by rewrite <-app_assoc.
Qed.
End Downloads.



(** ** Full-range scan: reading the range *)

(** The download loop raises only where an attached sink has no
    [stop_requested]. *)
Lemma download_each_exception E total i vs t t' :
  download_each E total i vs t = (Exception, t') →
  is_Some (gui t') ∧ ∃ n, stop_requested E n = None.
Proof.
  revert i t. induction vs as [|v vs IH]; intros i t; cbn [download_each]; [done|].
  destruct (stop_check E t) as [[|]|] eqn:Hstop; [done|apply IH|].
  intros [= <-]. unfold stop_check in Hstop.
  destruct (gui t) as [g|]; [|done]. split; [by eexists|]. by eexists.
Qed.

(** With the sink of the headless controller and a server on which every
    version exists, the scan of the candidates of 7.16 raises. *)
Example scan_range_headless_sink_raises :
  (scan_versions_range_and_download Restart.headless_env "7.16" "7.16" 12 Demo.fresh).1
  = Exception.
Proof. vm_compute. reflexivity. Qed.

(** X13. The range scan reads its two version strings before it does
    anything else. When [int] raises on a major or on a minor that is
    present, the scan raises with the state untouched: no request, no log
    line. When neither string has a dot, the start minor is 0 and the end
    minor is 50, and for majors [M1 <= M2] the first log line announces
    [221 * (51 + 100 * (M2 - M1))] candidates. With [test_workers <= 0]
    the scan then raises at once, that line being its only effect.
    Otherwise it goes on; it raises only if a sink is attached whose
    [stop_requested] cannot be read, and when it completes, its last event
    is the log line of [save_stats]. *)
Theorem scan_range_reads_versions (E : Env) (start_version end_version : string)
    (test_workers : Z) (s : engine) :
  (parse_int E (nth 0 (Str.split "." start_version) EmptyString) = None
   ∨ parse_minor E (Str.split "." start_version) 0 = None
   ∨ parse_int E (nth 0 (Str.split "." end_version) EmptyString) = None
   ∨ parse_minor E (Str.split "." end_version) 50 = None →
   scan_versions_range_and_download E start_version end_version test_workers s
   = (Exception, s))
  ∧ (∀ M1 M2,
       Str.contains "." start_version = false →
       Str.contains "." end_version = false →
       parse_int E start_version = Some M1 →
       parse_int E end_version = Some M2 →
       M1 ≤ M2 →
       (test_workers ≤ 0 →
        scan_versions_range_and_download E start_version end_version test_workers s
        = (Exception, log (MsgGenerated (221 * (51 + 100 * (M2 - M1)))) INFO s))
       ∧ (0 < test_workers →
          ∃ c s',
            scan_versions_range_and_download E start_version end_version test_workers s
            = (c, s')
            ∧ (trace s ++ [Log INFO (MsgGenerated (221 * (51 + 100 * (M2 - M1))))])
              `prefix_of` trace s'
            ∧ (c = Exception →
               is_Some (gui s') ∧ ∃ n, stop_requested E n = None)
            ∧ (c = Done →
               last (trace s') = Some (Log INFO MsgSavedStats)
               ∨ last (trace s') = Some (Log WARNING MsgSaveStatsFailed)))).
Proof.
  split.
  - intros Hbad. unfold scan_versions_range_and_download.
    destruct (parse_int E (nth 0 (Str.split "." start_version) _)); [|done].
    destruct (parse_minor E (Str.split "." start_version) 0); [|done].
    destruct (parse_int E (nth 0 (Str.split "." end_version) _)); [|done].
    destruct (parse_minor E (Str.split "." end_version) 50); [|done].
    by destruct Hbad as [?|[?|[?|?]]].
  - intros M1 M2 Hs He HM1 HM2 Hle. unfold scan_versions_range_and_download.
    rewrite (split_no_sep "." start_version Hs), (split_no_sep "." end_version He).
    unfold parse_minor. cbn [nth length]. rewrite HM1, HM2.
    rewrite !decide_False by lia.
    set (all := generate_all_version_numbers M1 0 M2 50).
    assert (Hn : Z.of_nat (length all) = 221 * (51 + 100 * (M2 - M1))).
    { unfold all. rewrite generate_renders_candidates, length_fmap.
      rewrite length_candidates by done. unfold Spec.pair_count.
      case_decide; [subst|]; lia. }
    rewrite Hn.
    set (s0 := log (MsgGenerated (221 * (51 + 100 * (M2 - M1)))) INFO s).
    split.
    { intros Hw. by rewrite (proj2 (Z.leb_le _ _) Hw). }
    intros Hw. rewrite (proj2 (Z.leb_gt _ _) Hw).
    pose proof (grows_probe_all E all s0) as Hp.
    destruct (probe_all E all s0) as [existing s1]; cbn [snd] in Hp.
    match goal with |- context [download_each E ?n ?i ?l ?t] =>
      pose proof (grows_download_each E n i l t) as Hd;
      pose proof (download_each_exception E n i l t) as Hex;
      assert (Ht : grows s0 t);
      [|destruct (download_each E n i l t) as [c s2]] end.
    { etrans; [exact Hp|]. etrans; [apply grows_log|].
      etrans; [apply grows_union_found|]. apply grows_save_found_versions. }
    cbn [snd] in Hd.
    assert (Hpre : ∀ u, grows s2 u →
              (trace s ++ [Log INFO (MsgGenerated (221 * (51 + 100 * (M2 - M1))))])
                `prefix_of` trace u).
    { intros u Hu. change (trace s0 `prefix_of` trace u).
      assert (Hg : grows s0 u) by (etrans; [exact Ht|]; etrans; [exact Hd|exact Hu]).
      apply Hg. }
    destruct c.
    + exists Done, (save_stats E s2). split; [done|].
      split; [apply Hpre, grows_save_stats|]. split; [done|]. intros _.
      unfold save_stats.
      destruct (match gui s2 with Some g => _ | None => _ end) as [counters current].
      destruct (FS.open_w _ _); [left|right]; cbn [trace log emit];
        apply last_snoc.
    + exists Exception, s2. split; [done|].
      split; [by apply Hpre|]. split; [|done]. intros _. by apply Hex.
Qed.

(** The theorem at work: a start version that is no number raises at
    once; from 6 to 7 with no worker the scan raises after announcing
    33371 candidates; with twelve workers it goes on. *)
Lemma scan_range_reads_versions_witness :
  scan_versions_range_and_download Restart.env "v6.1" "7" 12 Restart.engine
  = (Exception, Restart.engine)
  ∧ scan_versions_range_and_download Restart.env "6" "7" 0 Restart.engine
    = (Exception, log (MsgGenerated (221 * (51 + 100 * (7 - 6)))) INFO Restart.engine)
  ∧ ∃ c s',
      scan_versions_range_and_download Restart.env "6" "7" 12 Restart.engine = (c, s')
      ∧ (trace Restart.engine ++ [Log INFO (MsgGenerated (221 * (51 + 100 * (7 - 6))))])
        `prefix_of` trace s'.
Proof.
  split; [|split].
  - apply (scan_range_reads_versions Restart.env "v6.1" "7" 12 Restart.engine).
    left. vm_compute. reflexivity.
  - destruct (scan_range_reads_versions Restart.env "6" "7" 0 Restart.engine) as [_ H].
    destruct (H 6 7) as [H0 _].
    + vm_compute. reflexivity.
    + vm_compute. reflexivity.
    + vm_compute. reflexivity.
    + vm_compute. reflexivity.
    + lia.
    + apply H0. lia.
  - destruct (scan_range_reads_versions Restart.env "6" "7" 12 Restart.engine) as [_ H].
    destruct (H 6 7) as [_ H1].
    + vm_compute. reflexivity.
    + vm_compute. reflexivity.
    + vm_compute. reflexivity.
    + vm_compute. reflexivity.
    + lia.
    + destruct H1 as (c & s' & Hscan & Hpre & _); [lia|].
      exists c, s'. split; [exact Hscan|exact Hpre].
Defined.
